(* ===== verification/_CoqProject ===== *)
-Q . S2P
Prelude.v
Config.v
Utils.v
Pipeline.v
Storage.v
Cache.v
Admission.v
Interleaving.v
Controller.v
FanOut.v
Coherence.v
Transparency.v
Roundtrip.v
Registry.v
GcpBackend.v
Backends.v
Scenarios.v
