(* ===== verification/Prelude.v ===== *)
(** * lust: a verification development of the image bucket controller

    The program ([src/]) serves images from "buckets".  A
    [BucketController] ([src/controller.rs]) has three operations:
    [upload] hashes the bytes, runs the bucket's pipeline upload hook and
    stores every variant it produced through a concurrent fan-out;
    [fetch] resolves a sizing preset, reads through a cache ("cache-aside")
    and, depending on the bucket's processing mode (AOT, JIT, Realtime),
    returns the stored bytes or runs the pipeline fetch hook and stores
    what it derived; [delete] purges an image from storage and invalidates
    the purged variants in the bucket's cache.  Every call first takes a
    permit from the global limiter if there is one, else from the
    bucket's own.  Storage is an open trait ([src/storage/template.rs])
    with a cloud implementation ([src/storage/backends/gcp_cloud_storage.rs])
    chosen by [BackendConfigs::connect]
    ([src/storage/backends/register.rs]); pipelines are a closed enum
    ([src/pipelines/register.rs]); buckets live in a process-wide
    registry; ids come from CRC-32 and SHA-256 ([src/utils.rs]).

    ** Files, in dependency order

    - [Prelude] (this file): the error type and [result], the state-error
      monad [ST S A = S -> S * result A] with [x <- m ;; k], decimal
      printing [dec] and separator lemmas for keys, 32-bit bounds, counting
      along list updates, [rtc_inv], termination by a decreasing measure
      ([wf_decreasing], [nsteps_decreasing]), and the hint database [lust].
    - [Config]: [ImageKind], [ProcessingMode], [BucketConfig], [StoreEntry],
      [PipelineResult] ([crate::config] and [crate::pipelines] are not under
      [src/]; modelled from the specification).
    - [Utils]: [crc_hash] (CRC-32 of the [Hash] encoding of a string,
      written out bit by bit as [crc32fast] computes it) and
      [sha256_hash] (hex of a digest; SHA-256 itself is a parameter).
    - [Pipeline]: the [Pipeline] trait as a class and the
      [PipelineSelector] dispatch; the three pipelines' bodies are not under
      [src/] and the controller is verified for every pipeline.
    - [Storage]: the [StorageBackend] trait as a class; [StorageContract],
      the specification's contract of a backend as a view [contents] with
      laws; [StoreCommutes], independence of writes to different variants;
      the reference backend [MemStorage] (with injected faults) meeting both.
    - [Cache]: the [Cache] capability ([crate::cache], not under [src/]) as
      a finite map from keys to bytes.
    - [Admission]: [get_optional_permit] and the semaphores.
    - [Interleaving]: a step relation of many concurrent requests over many
      buckets and their limiters, with the permit-accounting invariant
      proved by rule induction, its corollaries, and the termination of
      the scheduler's acquire and release steps ([sched_step], measured by
      [pending]: two steps left to a waiting request, one to a running one),
      and the completion of every request: by the permit accounting a
      state with an unfinished request can always step.
    - [Controller]: the controller ([BucketController]) and the [World] an
      operation changes (storage state, the bucket cache, the shared cache,
      both limiters, and an instrumentation log of pipeline calls); one
      definition per method: [cache_key], [caching_fetch], [concurrent_upload]
      (with [upload_task] and [run_tasks]), [upload], [fetch], [delete],
      [controller_new]; [with_permit] is the [_permit] guard.  Frame lemmas
      (which parts of the world an operation keeps) and the claims about
      permits, uploads and the modes of [fetch].
    - [FanOut]: the fan-out's tasks may run in any order.
    - [Coherence]: the invariant that the cache a bucket reads agrees with
      storage, its preservation by every operation, and what [fetch]
      returns in each mode, for every backend meeting [StorageContract].
    - [Transparency]: the refinement of the uncached controller by the
      cached one: with a coherent bucket cache every call returns what it
      returns without caches; [Call], [Answer] and [run_calls] lift this
      to a client's whole session of awaited calls.
    - [Roundtrip]: pairs of calls from the specification's testable
      properties: [upload] then [fetch] in AOT mode, [delete] then
      [fetch] in every mode.
    - [Registry]: [BUCKETS] ([init_buckets], [get_bucket_by_id],
      [get_bucket_by_name]) as a once-cell and sequences of calls.
    - [GcpBackend]: the cloud backend ([format_path], [store], [fetch],
      [delete], [new]) over an object map, the registry cell it consults and
      a client whose behaviour on missing objects is a parameter.
    - [Backends]: [BackendConfigs], its [serde] deserialisation, and
      [connect].
    - [Scenarios]: concrete runs (a thumbnail pipeline, concrete worlds),
      the witnesses of the theorems with hypotheses and the scenarios that
      exhibit the specification's open questions.

    ** What the theorems show

    - Correctness of [fetch] per mode (Coherence, Controller): AOT answers
      from storage and never runs the fetch hook; JIT derives a missing
      variant from the original once per fetch, and also re-runs the hook on
      a variant it already has; Realtime reads only the canonical original
      at sizing id 0 and always runs the hook.
    - The cache invariant: [caching_fetch] returns storage's bytes, never
      stale ones, and fills the cache; [upload], [fetch], a successful
      [delete] and evictions preserve coherence when the bucket has its own
      cache, and then the cache is transparent: [upload], [fetch] and
      [delete] return what they return with no cache at all, call by call
      over any session in which no [delete] fails.  Two theorems show
      where the invariant ends: [delete] never invalidates the shared
      cache, so a bucket reading through it serves deleted bytes, and a
      failed [delete] invalidates nothing, whatever the backend purged.
    - Roundtrips (Roundtrip): after a successful AOT upload, fetching any
      variant the hook produced returns the stored entry from the bucket
      cache without the fetch hook; after a successful delete, a fetch of
      the image answers "not found" in every mode; outside AOT mode, a
      fetch that ran the hook answers only after its entries are stored.
    - Admission: every call returns its permit on every path;
      [max_concurrency = Some 0] blocks forever; in the interleaving model
      a global limiter of capacity [n] bounds the requests running across
      all buckets by [n] and leaves the local limiters unused, and when
      every limiter has a permit the scheduler never gets stuck and every
      request completes (progress from the permit accounting, and a
      decreasing measure for termination).
    - Fan-out and errors: no task is cancelled by a failing sibling; task
      order does not matter for backends whose writes commute; a failing
      upload hook leaves no partial state (nothing stored or cached).
    - Keys: cache keys and object paths are injective (a lemma also
      checks the CRC-32 model against the standard check value).
    - Registry and backends: the first registry call fixes the table (a
      lookup before [init_buckets] loses every bucket); the cloud backend's
      [delete] reports every registered variant whether it existed or not,
      removes exactly the objects at registered sizing ids (objects under
      a preset no longer configured survive), and fails part-way with a
      strict client; [connect] sets [SERVICE_ACCOUNT] even when it
      fails.

    ** Bounds and fuel

    Every definition is structurally recursive and total; no fuel is used.
    The only unbounded behaviour is the interleaving's step relation; its
    acquire and release steps are shown well founded by the [pending]
    measure, which bounds any run of them by twice the number of requests.
    The concurrency of a single call is sequentialised: the fan-out runs its
    tasks in spawn order (and [FanOut] shows that the order does not matter
    when writes commute), and a call that would wait for a permit returns
    [None] (with no other call in flight it waits forever).  Concurrency
    between calls is the step relation of [Interleaving].
    Integers are [N] or [Z]; CRC-32 works on 32-bit values with its masks
    written out and its results are proved to fit in 32 bits.

    ** Not modelled

    Timing ([processing_time], [io_time]) and logging; the bodies of the
    AOT, JIT and Realtime pipelines, of the cache, of the file-system,
    blob-storage and Scylla backends and of the [cloud_storage] client (not
    under [src/]: they are parameters or specification-level models); the
    SHA-256 compression function (a parameter).  The [cloud_storage]
    client is modelled only as far as the backend uses it: [create] never
    fails, [download] and [delete] fail only on a missing object and only
    under the strict policy, and [new] reads [SERVICE_ACCOUNT] back from
    the environment on every call, where the real client may cache it.
    Also not modelled: [tokio] scheduling beyond
    the permit interleaving and the fan-out order; [JoinError]s from
    panicking tasks; HTTP routing and configuration loading. *)

From stdpp Require Export base list strings gmap.
From Stdlib Require Export ZArith Ascii.
From Stdlib Require Import DecimalString DecimalN.
From Stdlib Require Import Wellfounded.

Declare Scope lust_scope.
Delimit Scope lust_scope with lust.
Open Scope lust_scope.

#[export] Instance byte_eq_decision : EqDecision Byte.byte := Byte.byte_eq_dec.
Abbreviation bytes := (list Byte.byte).

Inductive error :=
  | AcquireError
  | JoinError
  | PipelineError (msg : string)
  | StorageError (msg : string)
  | BucketMissing.

Inductive result (A : Type) : Type :=
  | Ok (a : A)
  | Err (e : error).
Arguments Ok {A} a.
Arguments Err {A} e.

Definition ST (S A : Type) : Type := S → S * result A.
Definition st_ret {S A} (a : A) : ST S A := λ s, (s, Ok a).
Definition st_bind {S A B} (m : ST S A) (k : A → ST S B) : ST S B :=
  λ s, match m s with
       | (s', Ok a) => k a s'
       | (s', Err e) => (s', Err e)
       end.
Definition st_lift {S A} (r : result A) : ST S A := λ s, (s, r).

Notation "x <- m ;; k" := (st_bind m (λ x, k))
  (at level 100, m at next level, right associativity) : lust_scope.

Fixpoint has_char (c : Ascii.ascii) (s : string) : bool :=
  match s with
  | EmptyString => false
  | String a s' => Ascii.eqb c a || has_char c s'
  end.

Definition dec (n : N) : string := NilEmpty.string_of_uint (N.to_uint n).

Lemma st_bind_ok {S A B} (m : ST S A) (k : A → ST S B) s s' a :
  m s = (s', Ok a) → st_bind m k s = k a s'.
Proof. intros H. unfold st_bind. by rewrite H. Qed.

Lemma st_bind_err {S A B} (m : ST S A) (k : A → ST S B) s s' e :
  m s = (s', Err e) → st_bind m k s = (s', Err e).
Proof. intros H. unfold st_bind. by rewrite H. Qed.

Lemma dec_inj n m : dec n = dec m → n = m.
Proof.
  unfold dec. intros H. apply (f_equal NilEmpty.uint_of_string) in H.
  rewrite !NilEmpty.usu in H. injection H as H. by apply Unsigned.to_uint_inj.
Qed.

Lemma has_char_app c s1 s2 : has_char c (s1 +:+ s2) = has_char c s1 || has_char c s2.
Proof. induction s1 as [|a s1 IH]; simpl; [done|]. by rewrite IH, orb_assoc. Qed.

Lemma dec_no_char c n : has_char c "0123456789" = false → has_char c (dec n) = false.
Proof.
  intros Hc. simpl in Hc. unfold dec. generalize (N.to_uint n) as d.
  repeat match type of Hc with
  | (?x || ?y) = false => apply orb_false_elim in Hc as [?Hd Hc]
  end.
  induction d; simpl; rewrite ?IHd; by rewrite ?orb_false_r.
Qed.

Lemma split_first c a a' r r' :
  has_char c a = false → has_char c a' = false →
  a +:+ String c r = a' +:+ String c r' → a = a' ∧ r = r'.
Proof.
  revert a'. induction a as [|x a IH]; intros [|y a'] Ha Ha' H; simpl in *.
  - by injection H.
  - injection H as -> _. by rewrite Ascii.eqb_refl in Ha'.
  - injection H as <- _. by rewrite Ascii.eqb_refl in Ha.
  - apply orb_false_elim in Ha as [_ Ha]. apply orb_false_elim in Ha' as [_ Ha'].
    injection H as -> H. destruct (IH a' Ha Ha' H) as [-> ->]. done.
Qed.

Lemma split_last c i i' e e' :
  has_char c e = false → has_char c e' = false →
  i +:+ String c e = i' +:+ String c e' → i = i' ∧ e = e'.
Proof.
  revert i'. induction i as [|x i IH]; intros [|y i'] He He' H; simpl in *.
  - by injection H.
  - injection H as -> H. subst e. rewrite has_char_app in He. simpl in He.
    rewrite Ascii.eqb_refl, orb_true_r in He. done.
  - injection H as <- H. subst e'. rewrite has_char_app in He'. simpl in He'.
    rewrite Ascii.eqb_refl, orb_true_r in He'. done.
  - injection H as -> H. destruct (IH i' He He' H) as [-> ->]. done.
Qed.

(** ** Generic lemmas on machine-width integers *)

Lemma bound_shiftr (x n : Z) :
  (0 <= n)%Z → (0 <= x < 2 ^ n)%Z ↔ (0 <= x)%Z ∧ Z.shiftr x n = 0%Z.
Proof.
  intros Hn. rewrite Z.shiftr_div_pow2 by lia.
  split; intros [H1 H2]; split; try lia.
  - apply Z.div_small; lia.
  - apply Z.div_small_iff in H2; [lia | apply Z.pow_nonzero; lia].
Qed.

Lemma lxor_bound (n a b : Z) :
  (0 <= n)%Z → (0 <= a < 2 ^ n)%Z → (0 <= b < 2 ^ n)%Z → (0 <= Z.lxor a b < 2 ^ n)%Z.
Proof.
  intros Hn Ha Hb. apply bound_shiftr in Ha, Hb; auto. apply bound_shiftr; auto.
  rewrite Z.lxor_nonneg, Z.shiftr_lxor. split; [tauto|].
  destruct Ha as [_ ->], Hb as [_ ->]. reflexivity.
Qed.

Lemma shiftr1_bound (n c : Z) : (0 <= c < 2 ^ n)%Z → (0 <= Z.shiftr c 1 < 2 ^ n)%Z.
Proof.
  rewrite Z.shiftr_div_pow2 by lia. intros H. change (2 ^ 1)%Z with 2%Z.
  split; [apply Z.div_pos; lia|]. apply (Z.le_lt_trans _ c); [apply Z.div_le_upper_bound|]; lia.
Qed.

(** ** Automation *)

Create HintDb lust discriminated.
Create Rewrite HintDb lust.
#[export] Hint Resolve lxor_bound shiftr1_bound dec_inj : lust.
#[export] Hint Rewrite has_char_app : lust.

(** [simpl_st] unfolds one bind of the state-error monad once its first
    computation has been evaluated. *)
Ltac simpl_st :=
  repeat match goal with
  | H : ?m ?s = (?s', Ok ?a) |- context [st_bind ?m ?k ?s] => rewrite (st_bind_ok m k s s' a H)
  | H : ?m ?s = (?s', Err ?e) |- context [st_bind ?m ?k ?s] => rewrite (st_bind_err m k s s' e H)
  end.


(** ** Counting along list updates *)

Lemma filter_length_insert {A} (P : A → Prop) `{∀ x, Decision (P x)} (l : list A) j x y :
  l !! j = Some y →
  length (filter P (<[j := x]> l)) + (if decide (P y) then 1 else 0) =
  length (filter P l) + (if decide (P x) then 1 else 0).
Proof.
  revert j. induction l as [|a l IH]; intros [|j] Hj; simplify_eq/=.
  - rewrite !filter_cons. repeat case_decide; simpl; rewrite ?Nat.add_0_r, ?Nat.add_1_r; reflexivity.
  - rewrite !filter_cons. specialize (IH j Hj). destruct (decide (P a)); cbn [length]; lia.
Qed.

Lemma sum_list_insert {A} (f : A → nat) (l : list A) j x y :
  l !! j = Some y → sum_list (f <$> <[j := x]> l) + f y = sum_list (f <$> l) + f x.
Proof. revert j. induction l as [|a l IH]; intros [|j] Hj; simplify_eq/=; [lia|]. specialize (IH j Hj). lia. Qed.

Lemma filter_length_pos {A} (P : A → Prop) `{∀ x, Decision (P x)} (l : list A) x :
  x ∈ l → P x → 0 < length (filter P l).
Proof.
  intros Hx HP. destruct (filter P l) eqn:E; simpl; [|lia].
  assert (x ∈ filter P l) as Hin by (apply list_elem_of_filter; done).
  rewrite E in Hin. set_solver.
Qed.

Lemma filter_length_mono {A} (P Q : A → Prop) `{∀ x, Decision (P x)} `{∀ x, Decision (Q x)}
    (l : list A) :
  (∀ x, x ∈ l → P x → Q x) → length (filter P l) ≤ length (filter Q l).
Proof.
  induction l as [|a l IH]; intros HPQ; simpl; [done|].
  rewrite !filter_cons. assert (∀ x, x ∈ l → P x → Q x) as H' by set_solver.
  specialize (IH H'). repeat case_decide; simpl; try lia.
  exfalso. eauto using list_elem_of_here.
Qed.

Lemma sep_app (c : Ascii.ascii) (s : string) : String c EmptyString +:+ s = String c s.
Proof. reflexivity. Qed.

Lemma dec_no_colon n : has_char ":"%char (dec n) = false.
Proof. by apply dec_no_char. Qed.

Lemma dec_no_slash n : has_char "/"%char (dec n) = false.
Proof. by apply dec_no_char. Qed.

#[export] Hint Resolve dec_no_colon dec_no_slash : lust.

(** ** Step relations *)

(** A property that holds initially and that every step keeps holds on
    every state reachable by steps. *)
Lemma rtc_inv {A} (R : relation A) (P : A → Prop) x y :
  P x → (∀ a b, P a → R a b → P b) → rtc R x y → P y.
Proof. intros Hx Hstep Hr. induction Hr; eauto. Qed.

(** ** Termination by a decreasing measure *)

Lemma wf_decreasing {A} (R : relation A) (m : A → nat) :
  (∀ x y, R x y → m y < m x) → well_founded (λ y x, R x y).
Proof.
  intros Hd. apply (wf_incl _ _ (λ y x, m y < m x)); [intros y x H; by apply Hd|].
  apply (wf_inverse_image _ _ lt m lt_wf).
Qed.

Lemma nsteps_decreasing {A} (R : relation A) (m : A → nat) :
  (∀ x y, R x y → m y < m x) → ∀ n x y, nsteps R n x y → n + m y ≤ m x.
Proof. intros Hd n x y Hs. induction Hs as [|n x y z Hxy _ IH]; [lia|]. specialize (Hd x y Hxy). lia. Qed.
