(* ===== verification/Config.v ===== *)
(** * Config: the data the bucket controller consumes

    [ImageKind], [ProcessingMode], [BucketConfig], [StoreEntry] and
    [PipelineResult] are declared in [crate::config] and [crate::pipelines],
    which are not part of the sources under [src/]; they are modelled here
    from the specification (sections 3 and 4.2).  The file also proves the
    facts about file extensions that the cache-key and storage-path
    injectivity results need. *)

From S2P Require Import Prelude.
Open Scope lust_scope.

(** The closed enumeration of encodings (spec §3 "ImageKind"). *)
Inductive ImageKind := Png | Jpeg | Webp | Gif.

#[export] Instance ImageKind_eq_dec : EqDecision ImageKind.
Proof. solve_decision. Defined.

Definition ImageKind_to_nat (k : ImageKind) : nat :=
  match k with Png => 0 | Jpeg => 1 | Webp => 2 | Gif => 3 end.

Definition ImageKind_of_nat (n : nat) : ImageKind :=
  match n with 0 => Png | 1 => Jpeg | 2 => Webp | _ => Gif end.

#[export] Instance ImageKind_countable : Countable ImageKind.
Proof.
  refine (inj_countable' ImageKind_to_nat ImageKind_of_nat _). by intros [].
Defined.

Definition as_file_extension (k : ImageKind) : string :=
  match k with
  | Png => "png"
  | Jpeg => "jpeg"
  | Webp => "webp"
  | Gif => "gif"
  end.

Definition as_content_type (k : ImageKind) : string :=
  "image/" +:+ as_file_extension k.

(** [ImageKind::variants()]: every kind, used when purging an image. *)
Definition variants : list ImageKind := [Png; Jpeg; Gif; Webp].

(** The processing mode of a bucket: [ProcessingMode::{Realtime, Jit, Aot}]. *)
Inductive ProcessingMode := Realtime | Jit | Aot.

#[export] Instance ProcessingMode_eq_dec : EqDecision ProcessingMode.
Proof. solve_decision. Defined.

(** [BucketConfig] restricted to the fields the controller reads:
    [mode], [formats.original_image_store_format],
    [default_serving_preset], [max_concurrency] and the registered
    sizing ids returned by [sizing_preset_ids()]. *)
Record BucketConfig := {
  mode : ProcessingMode;
  original_image_store_format : ImageKind;
  default_serving_preset : option string;
  max_concurrency : option nat;
  sizing_preset_ids : list N;
}.

(** A unit of derived output: [StoreEntry { data, kind, sizing_id }]. *)
Record StoreEntry := {
  data : bytes;
  kind : ImageKind;
  sizing_id : N;
}.

(** The pipeline's output: [PipelineResult { to_store, response }]. *)
Record PipelineResult := {
  to_store : list StoreEntry;
  response : option StoreEntry;
}.

(** ** Facts about extensions *)

Lemma as_file_extension_inj k k' : as_file_extension k = as_file_extension k' → k = k'.
Proof. destruct k, k'; simpl; congruence. Qed.

(** No extension contains the separators used by cache keys ([:]) and
    by object paths ([/] and [.]). *)
Lemma as_file_extension_no_sep k :
  has_char ":"%char (as_file_extension k) = false ∧
  has_char "."%char (as_file_extension k) = false ∧
  has_char "/"%char (as_file_extension k) = false.
Proof. destruct k; vm_compute; auto. Qed.

Lemma variants_complete k : k ∈ variants.
Proof. destruct k; vm_compute; set_solver. Qed.

Lemma variants_nodup : NoDup variants.
Proof. apply NoDup_ListNoDup. repeat constructor; simpl; intuition discriminate. Qed.

#[export] Hint Resolve as_file_extension_inj variants_complete : lust.
