(* ===== verification/Utils.v ===== *)
(** * Utils: [src/utils.rs], the identity and hashing helpers

    [crc_hash] feeds a value's [Hash] encoding to a CRC-32 hasher;
    [sha256_hash] hex-encodes a SHA-256 digest.  CRC-32 (the [crc32fast]
    crate) is written out bit by bit as the reflected IEEE polynomial, so
    checksums and preset ids compute; the SHA-256 compression function is
    a library the sources only call and is a section variable [sha256].
    The theorems bound the checksum to 32 bits, fix its check value, and
    show that the lowercase hex encoding has a decoder that inverts it
    and never contains the cache-key separator. *)

From S2P Require Import Prelude.
Open Scope lust_scope.

(** ** CRC-32 (IEEE 802.3, reflected, polynomial [0xEDB88320]) *)

Definition crc_poly : Z := 3988292384%Z.   (* 0xEDB88320 *)
Definition u32_mask : Z := 4294967295%Z.   (* 0xFFFFFFFF *)

Definition crc_step (c : Z) : Z :=
  if Z.testbit c 0 then Z.lxor (Z.shiftr c 1) crc_poly else Z.shiftr c 1.

Definition crc_update (c : Z) (b : Byte.byte) : Z :=
  Nat.iter 8 crc_step (Z.lxor c (Z.of_N (Byte.to_N b))).

(** [crc32fast::hash] / [Hasher::finalize]: start from all ones, process
    every byte, complement. *)
Definition crc32 (input : bytes) : Z :=
  Z.lxor (fold_left crc_update input u32_mask) u32_mask.

(** The bytes of a string ([str::as_bytes]). *)
Definition string_bytes (s : string) : bytes :=
  map Ascii.byte_of_ascii (String.list_ascii_of_string s).

(** [impl Hash for str] writes the bytes and then the terminator [0xff]
    ([Hasher::write_str]); [crc_hash] finalizes the CRC of that stream. *)
Definition hash_str_stream (s : string) : bytes := string_bytes s ++ [Byte.xff].

Definition crc_hash (s : string) : N := Z.to_N (crc32 (hash_str_stream s)).

(** ** Lowercase hex ([hex::encode]) *)

Definition hex_alphabet : string := "0123456789abcdef".

Definition hex_digit (n : N) : Ascii.ascii :=
  match String.get (N.to_nat n) hex_alphabet with
  | Some c => c
  | None => "0"%char
  end.

Definition hex_byte (b : Byte.byte) : string :=
  String (hex_digit (N.shiftr (Byte.to_N b) 4))
         (String (hex_digit (N.land (Byte.to_N b) 15)) EmptyString).

Fixpoint hex_encode (bs : bytes) : string :=
  match bs with
  | [] => EmptyString
  | b :: bs' => hex_byte b +:+ hex_encode bs'
  end.

(** The inverse of the encoding (the [hex] crate's [decode]). *)
Fixpoint hex_index (c : Ascii.ascii) (s : string) (i : N) : option N :=
  match s with
  | EmptyString => None
  | String a s' => if Ascii.eqb c a then Some i else hex_index c s' (i + 1)
  end.

Fixpoint hex_decode (s : string) : option bytes :=
  match s with
  | EmptyString => Some []
  | String h (String l s') =>
      match hex_index h hex_alphabet 0, hex_index l hex_alphabet 0 with
      | Some hi, Some lo =>
          match Byte.of_N (hi * 16 + lo), hex_decode s' with
          | Some b, Some rest => Some (b :: rest)
          | _, _ => None
          end
      | _, _ => None
      end
  | String _ EmptyString => None
  end.

Section Sha256.
(** The SHA-256 digest function of the [sha2] crate. *)
Variable sha256 : bytes → bytes.

(** [utils::sha256_hash]: the image id of an upload. *)
Definition sha256_hash (v : bytes) : string := hex_encode (sha256 v).
End Sha256.

(** ** Lemmas *)

Lemma crc_step_bound c : (0 <= c < 2 ^ 32)%Z → (0 <= crc_step c < 2 ^ 32)%Z.
Proof.
  intros H. unfold crc_step. destruct (Z.testbit c 0); auto with lust.
  apply lxor_bound; [lia | auto with lust | unfold crc_poly; lia].
Qed.

Lemma crc_iter_bound n c : (0 <= c < 2 ^ 32)%Z → (0 <= Nat.iter n crc_step c < 2 ^ 32)%Z.
Proof. intros H. induction n; simpl; auto using crc_step_bound. Qed.

Lemma byte_to_Z_bound b : (0 <= Z.of_N (Byte.to_N b) < 2 ^ 32)%Z.
Proof.
  pose proof (Byte.to_of_N_option_map (Byte.to_N b)) as H.
  rewrite Byte.of_to_N in H. simpl in H.
  destruct (N.leb_spec (Byte.to_N b) 255); [lia | discriminate].
Qed.

Lemma crc_update_bound c b : (0 <= c < 2 ^ 32)%Z → (0 <= crc_update c b < 2 ^ 32)%Z.
Proof.
  intros H. apply crc_iter_bound, lxor_bound; [lia | done | apply byte_to_Z_bound].
Qed.

Lemma fold_crc_bound l c : (0 <= c < 2 ^ 32)%Z → (0 <= fold_left crc_update l c < 2 ^ 32)%Z.
Proof. revert c. induction l; simpl; auto using crc_update_bound. Qed.

Lemma hex_byte_decode b s : hex_decode (hex_byte b +:+ s) =
  match hex_decode s with Some r => Some (b :: r) | None => None end.
Proof. destruct b; reflexivity. Qed.

Lemma hex_byte_app b s :
  hex_byte b +:+ s =
  String (hex_digit (N.shiftr (Byte.to_N b) 4)) (String (hex_digit (N.land (Byte.to_N b) 15)) s).
Proof. reflexivity. Qed.

Lemma hex_byte_no_colon b : has_char ":"%char (hex_byte b) = false.
Proof. destruct b; reflexivity. Qed.

#[export] Hint Resolve crc_update_bound fold_crc_bound : lust.
#[export] Hint Rewrite hex_byte_decode : lust.

(** ** Properties *)

(** CRC-32 values fit in 32 bits. *)
Lemma crc32_bound (input : bytes) : (0 <= crc32 input < 2 ^ 32)%Z.
Proof.
  unfold crc32. apply lxor_bound; [lia | apply fold_crc_bound |]; unfold u32_mask; lia.
Qed.

(** The model is the standard CRC-32: its check value on ["123456789"] is
    [0xCBF43926]. *)
Example crc32_check_value : crc32 (string_bytes "123456789") = 3421780262%Z.
Proof. vm_compute. reflexivity. Qed.

(** Hex decoding inverts [hex::encode]. *)
Lemma hex_roundtrip (bs : bytes) : hex_decode (hex_encode bs) = Some bs.
Proof. induction bs as [|b bs IH]; cbn [hex_encode]; [done|]. by rewrite hex_byte_decode, IH. Qed.

Lemma hex_encode_length (bs : bytes) : String.length (hex_encode bs) = 2 * length bs.
Proof.
  induction bs as [|b bs IH]; cbn [hex_encode]; [done|].
  rewrite hex_byte_app. cbn [String.length length]. rewrite IH. lia.
Qed.

Lemma hex_encode_no_colon (bs : bytes) : has_char ":"%char (hex_encode bs) = false.
Proof.
  induction bs as [|b bs IH]; cbn [hex_encode]; [done|].
  by rewrite has_char_app, hex_byte_no_colon, IH.
Qed.

