(* ===== verification/Pipeline.v ===== *)
(** * Pipeline: [src/pipelines/register.rs]

    The [Pipeline] trait is a type class with the two hooks [on_upload]
    and [on_fetch]; both are pure and may fail ([anyhow::Result]).
    [PipelineSelector] is the [enum_dispatch] enum over the three
    mode-specific pipelines, whose bodies ([aot.rs], [jit.rs],
    [realtime.rs]) are not under [src/] and stay abstract: the
    controller is verified for every pipeline. *)

From S2P Require Import Prelude Config.
Open Scope lust_scope.

Class Pipeline (P : Type) := {
  on_upload : P → ImageKind → bytes → result PipelineResult;
  on_fetch : P → ImageKind → ImageKind → bytes → N → option (N * N) → result PipelineResult;
}.

(** [#[enum_dispatch(Pipeline)] enum PipelineSelector]. *)
Inductive PipelineSelector (R A J : Type) :=
  | RealtimePipeline (r : R)
  | AheadOfTimePipeline (a : A)
  | JustInTimePipeline (j : J).
Arguments RealtimePipeline {R A J} r.
Arguments AheadOfTimePipeline {R A J} a.
Arguments JustInTimePipeline {R A J} j.

Section Dispatch.
Context {R A J : Type} `{Pipeline R} `{Pipeline A} `{Pipeline J}.

Definition selector_on_upload (p : PipelineSelector R A J) kind d : result PipelineResult :=
  match p with
  | RealtimePipeline r => on_upload r kind d
  | AheadOfTimePipeline a => on_upload a kind d
  | JustInTimePipeline j => on_upload j kind d
  end.

Definition selector_on_fetch (p : PipelineSelector R A J) desired_kind data_kind d
    sizing_id custom_size : result PipelineResult :=
  match p with
  | RealtimePipeline r => on_fetch r desired_kind data_kind d sizing_id custom_size
  | AheadOfTimePipeline a => on_fetch a desired_kind data_kind d sizing_id custom_size
  | JustInTimePipeline j => on_fetch j desired_kind data_kind d sizing_id custom_size
  end.
End Dispatch.

#[export] Instance PipelineSelector_pipeline {R A J}
    `{Pipeline R} `{Pipeline A} `{Pipeline J} : Pipeline (PipelineSelector R A J) := {
  on_upload := selector_on_upload;
  on_fetch := selector_on_fetch;
}.
