(* ===== verification/Storage.v ===== *)
(** * Storage: [src/storage/template.rs], the [StorageBackend] trait

    The trait is a type class over a backend state [S] whose three
    operations pass that state explicitly and may fail.  The contract the
    controller relies on (spec §6) is a second class, [StorageContract]:
    a view [contents] of what [fetch] returns, [store] writes exactly one
    object or fails without effect, and a successful [delete] removes
    every variant of the image and reports every variant that existed.
    [ReliableFetch] is a backend whose reads do not fail.  [MemStorage]
    is the reference backend that meets all three, with injected write
    faults so that the error paths of [store] and [delete] have concrete
    witnesses. *)

From S2P Require Import Prelude Config.
Open Scope lust_scope.

(** An object's identity: [(bucket_id, image_id, kind, sizing_id)]. *)
Abbreviation obj_key := (N * string * ImageKind * N)%type.

Class StorageBackend (S : Type) := {
  sb_store : N → string → ImageKind → N → bytes → ST S unit;
  sb_fetch : N → string → ImageKind → N → ST S (option bytes);
  sb_delete : N → string → ST S (list (N * ImageKind));
}.

Class StorageContract (S : Type) `{!StorageBackend S} := {
  contents : S → obj_key → option bytes;
  sb_fetch_spec b i k z st :
    (sb_fetch b i k z st).1 = st ∧
    ((sb_fetch b i k z st).2 = Ok (contents st (b, i, k, z)) ∨
     ∃ e, (sb_fetch b i k z st).2 = Err e);
  sb_store_spec b i k z d st :
    ((sb_store b i k z d st).2 = Ok tt ∧
     ∀ key, contents (sb_store b i k z d st).1 key =
            if decide (key = (b, i, k, z)) then Some d else contents st key) ∨
    (∃ e, sb_store b i k z d st = (st, Err e));
  sb_delete_ok b i st st' l :
    sb_delete b i st = (st', Ok l) →
    (∀ k z, is_Some (contents st (b, i, k, z)) → (z, k) ∈ l) ∧
    (∀ key, contents st' key = if decide (key.1.1 = (b, i)) then None else contents st key);
  sb_delete_err b i st st' e :
    sb_delete b i st = (st', Err e) →
    ∀ key, contents st' key = contents st key ∨ (key.1.1 = (b, i) ∧ contents st' key = None);
}.

(** Writes of different variants of an image are independent: running
    two of them in either order ends in the same state, and the outcome
    of a write does not depend on a write of another variant before it.
    This is what lets the fan-out of [concurrent_upload] run its tasks in
    any order. *)
Class StoreCommutes (S : Type) `{!StorageBackend S} := {
  sb_store_comm b i k z d k' z' d' st :
    (k, z) ≠ (k', z') →
    (sb_store b i k' z' d' (sb_store b i k z d st).1).1 =
      (sb_store b i k z d (sb_store b i k' z' d' st).1).1 ∧
    (sb_store b i k' z' d' (sb_store b i k z d st).1).2 = (sb_store b i k' z' d' st).2;
}.

(** A backend whose reads always succeed with what it holds. *)
Class ReliableFetch (S : Type) `{!StorageBackend S} `{!StorageContract S} := {
  sb_fetch_reliable b i k z st : (sb_fetch b i k z st).2 = Ok (contents st (b, i, k, z));
}.

(** ** The reference backend *)

Record MemStorage := {
  objects : gmap obj_key bytes;
  faulty : gset obj_key;
}.

Definition mem_store (b : N) (i : string) (k : ImageKind) (z : N) (d : bytes) : ST MemStorage unit :=
  λ st, if decide ((b, i, k, z) ∈ faulty st)
        then (st, Err (StorageError "write failed"))
        else ({| objects := <[(b, i, k, z) := d]> (objects st); faulty := faulty st |}, Ok tt).

Definition mem_fetch (b : N) (i : string) (k : ImageKind) (z : N) : ST MemStorage (option bytes) :=
  λ st, (st, Ok (objects st !! (b, i, k, z))).

(** A purge removes every object of the image that is not faulty; it
    fails when one of them is. *)
Definition mem_delete (b : N) (i : string) : ST MemStorage (list (N * ImageKind)) :=
  λ st,
    let hits := filter (λ kv : obj_key * bytes, kv.1.1.1 = (b, i)) (map_to_list (objects st)) in
    let st' := {| objects := filter (λ kv : obj_key * bytes, kv.1.1.1 ≠ (b, i) ∨ kv.1 ∈ faulty st)
                               (objects st);
                  faulty := faulty st |} in
    if decide (Exists (λ kv : obj_key * bytes, kv.1 ∈ faulty st) hits)
    then (st', Err (StorageError "delete failed"))
    else (st', Ok (map (λ kv : obj_key * bytes, (kv.1.2, kv.1.1.2)) hits)).

#[export] Instance MemStorage_backend : StorageBackend MemStorage := {
  sb_store := mem_store;
  sb_fetch := mem_fetch;
  sb_delete := mem_delete;
}.

Definition mem_contents (st : MemStorage) (key : obj_key) : option bytes := objects st !! key.

Lemma mem_delete_hits b i st k z :
  is_Some (objects st !! (b, i, k, z)) →
  (z, k) ∈ map (λ kv : obj_key * bytes, (kv.1.2, kv.1.1.2))
             (filter (λ kv : obj_key * bytes, kv.1.1.1 = (b, i)) (map_to_list (objects st))).
Proof.
  intros [d Hd]. apply list_elem_of_fmap. exists ((b, i, k, z), d). split; [done|].
  apply list_elem_of_filter. split; [done|]. by apply elem_of_map_to_list.
Qed.

Lemma mem_fetch_spec b i k z st :
  (mem_fetch b i k z st).1 = st ∧
  ((mem_fetch b i k z st).2 = Ok (mem_contents st (b, i, k, z)) ∨
   ∃ e, (mem_fetch b i k z st).2 = Err e).
Proof. unfold mem_fetch. simpl. eauto. Qed.

Lemma mem_store_spec b i k z d st :
  ((mem_store b i k z d st).2 = Ok tt ∧
   ∀ key, mem_contents (mem_store b i k z d st).1 key =
          if decide (key = (b, i, k, z)) then Some d else mem_contents st key) ∨
  (∃ e, mem_store b i k z d st = (st, Err e)).
Proof.
  unfold mem_store. case_decide; [right; eauto|left].
  split; [done|]. intros key. unfold mem_contents. simpl.
  rewrite lookup_insert. by do 2 case_decide; subst.
Qed.

Lemma mem_delete_ok b i st st' l :
  mem_delete b i st = (st', Ok l) →
  (∀ k z, is_Some (mem_contents st (b, i, k, z)) → (z, k) ∈ l) ∧
  (∀ key, mem_contents st' key = if decide (key.1.1 = (b, i)) then None else mem_contents st key).
Proof.
  unfold mem_delete. case_decide as Hf; [done|]. intros [= <- <-]. split.
  - intros k z Hk. by apply mem_delete_hits.
  - intros key. unfold mem_contents. simpl. rewrite map_lookup_filter.
    destruct (objects st !! key) as [v|] eqn:Hv; simpl; [|by case_decide].
    unfold guard. repeat case_decide; simpl; try naive_solver.
    exfalso. apply Hf, Exists_exists. exists (key, v). split; [|naive_solver].
    apply list_elem_of_filter. split; [done|]. by apply elem_of_map_to_list.
Qed.

Lemma mem_delete_err b i st st' e :
  mem_delete b i st = (st', Err e) →
  ∀ key, mem_contents st' key = mem_contents st key ∨
         (key.1.1 = (b, i) ∧ mem_contents st' key = None).
Proof.
  unfold mem_delete. case_decide; [|done]. intros [= <- _] key.
  unfold mem_contents. simpl. rewrite map_lookup_filter.
  destruct (objects st !! key); simpl; [|by left].
  unfold guard. case_decide; simpl; [by left|]. right. split; [|done]. apply dec_stable. naive_solver.
Qed.

#[export] Instance MemStorage_contract : StorageContract MemStorage := {
  contents := mem_contents;
  sb_fetch_spec := mem_fetch_spec;
  sb_store_spec := mem_store_spec;
  sb_delete_ok := mem_delete_ok;
  sb_delete_err := mem_delete_err;
}.

Lemma mem_store_comm b i k z d k' z' d' st :
  (k, z) ≠ (k', z') →
  (mem_store b i k' z' d' (mem_store b i k z d st).1).1 =
    (mem_store b i k z d (mem_store b i k' z' d' st).1).1 ∧
  (mem_store b i k' z' d' (mem_store b i k z d st).1).2 = (mem_store b i k' z' d' st).2.
Proof.
  intros Hne. unfold mem_store. repeat (case_decide; simpl); try done.
  split; [|done]. f_equal. apply insert_insert_ne. naive_solver.
Qed.

#[export] Instance MemStorage_commutes : StoreCommutes MemStorage := {
  sb_store_comm := mem_store_comm;
}.

Lemma mem_fetch_reliable b i k z st :
  (mem_fetch b i k z st).2 = Ok (mem_contents st (b, i, k, z)).
Proof. done. Qed.

#[export] Instance MemStorage_reliable : ReliableFetch MemStorage := {
  sb_fetch_reliable := mem_fetch_reliable;
}.
