(* ===== verification/Cache.v ===== *)
(** * Cache: the byte cache the controller reads and fills

    [crate::cache::Cache] is not under [src/]; it is modelled from the
    specification (§2, §6) as a finite map from the string key to bytes
    with [get], [insert] and [invalidate].  A real cache may also evict
    entries on its own: [cache_evict] is that step, and every property of
    the development that speaks of cache contents is stable under it
    ([coherent_sub] in [Controller.v]). *)

From S2P Require Import Prelude.
Open Scope lust_scope.

Abbreviation cache := (gmap string bytes).

Definition cache_get (c : cache) (key : string) : option bytes := c !! key.

Definition cache_insert (key : string) (value : bytes) (c : cache) : cache := <[key := value]> c.

Definition cache_invalidate (key : string) (c : cache) : cache := delete key c.

(** Eviction: the cache forgets an entry of its own accord. *)
Definition cache_evict (key : string) (c : cache) : cache := delete key c.

Lemma cache_get_insert key key' v c :
  cache_get (cache_insert key v c) key' = if decide (key = key') then Some v else cache_get c key'.
Proof. unfold cache_get, cache_insert. rewrite lookup_insert. by repeat case_decide. Qed.

Lemma cache_get_invalidate key key' c :
  cache_get (cache_invalidate key c) key' = if decide (key = key') then None else cache_get c key'.
Proof. unfold cache_get, cache_invalidate. rewrite lookup_delete. by repeat case_decide. Qed.

Lemma cache_invalidate_subseteq key c : cache_invalidate key c ⊆ c.
Proof. apply delete_subseteq. Qed.

#[export] Hint Rewrite cache_get_insert cache_get_invalidate : lust.
