(* ===== verification/Admission.v ===== *)
(** * Admission: [get_optional_permit] and the concurrency limiters

    [src/controller.rs] [get_optional_permit] (lines 29-42) picks at most
    one limiter: the global one when it is configured, else the bucket's
    own, else none.  The limiters are [tokio::sync::Semaphore]s, modelled
    as a permit count with a closed flag; [Semaphore::new] is
    [semaphore_new], an acquire either takes a permit, fails on a closed
    semaphore, or waits while no permit is free.  The file [Interleaving]
    runs many calls against these limiters. *)

From S2P Require Import Prelude Config.
Open Scope lust_scope.

Record Semaphore := {
  permits : nat;
  closed : bool;
}.

Definition semaphore_new (n : nat) : Semaphore := {| permits := n; closed := false |}.

Inductive LimiterRef := GlobalLimiter | LocalLimiter.

#[export] Instance LimiterRef_eq_dec : EqDecision LimiterRef.
Proof. solve_decision. Defined.

(** [get_optional_permit global local]: which limiter the call waits on. *)
Definition get_optional_permit (global local : option Semaphore) : option (LimiterRef * Semaphore) :=
  match global with
  | Some limiter => Some (GlobalLimiter, limiter)
  | None =>
      match local with
      | Some limiter => Some (LocalLimiter, limiter)
      | None => None
      end
  end.

Inductive AcquireOutcome :=
  | Acquired (s : Semaphore)
  | AcquireClosed
  | WouldBlock.

(** [Semaphore::acquire]. *)
Definition try_acquire (s : Semaphore) : AcquireOutcome :=
  if closed s then AcquireClosed
  else match permits s with
       | 0 => WouldBlock
       | S n => Acquired {| permits := n; closed := closed s |}
       end.

(** Dropping a [SemaphorePermit]. *)
Definition release (s : Semaphore) : Semaphore :=
  {| permits := S (permits s); closed := closed s |}.

Lemma try_acquire_release s s' : try_acquire s = Acquired s' → release s' = s.
Proof.
  unfold try_acquire, release. by destruct s as [[|n] []]; intros [= <-].
Qed.

Lemma try_acquire_permits s s' : try_acquire s = Acquired s' → permits s = S (permits s').
Proof. unfold try_acquire. by destruct s as [[|n] []]; intros [= <-]. Qed.

Lemma try_acquire_closed s s' : try_acquire s = Acquired s' → closed s' = closed s.
Proof. unfold try_acquire. by destruct s as [[|n] []]; intros [= <-]. Qed.

#[export] Hint Resolve try_acquire_release : lust.
