(* ===== verification/Interleaving.v ===== *)
(** * Interleaving: concurrent calls over the limiters

    Many concurrent requests to many buckets side by side: a request
    arrives, passes [get_optional_permit] and acquires its permit (the
    step is not enabled while it would wait), runs, and releases the
    permit when its call returns (the [_permit] guard is dropped on every
    exit path).  The invariant [admission_inv] counts permits: for every
    limiter the free permits plus the requests holding it equal its
    capacity, and while a global limiter exists no request holds a local
    one.  It holds on every reachable state (rule induction over [astep]);
    the global limit across buckets and the disuse of the local limiters
    under a global one follow.  Without arrivals the scheduler's steps
    ([sched_step]) terminate: each moves one request forward, and the
    measure [pending] (two steps to a waiting request, one to a running
    one) decreases.  With that, the permit accounting gives progress: when
    every limiter was created with a permit, a state with an unfinished
    request can always step (a running one can release; with none running
    every permit is back, so a waiting one can acquire), hence every
    request completes. *)

From S2P Require Import Prelude Config Admission.
Open Scope lust_scope.


Inductive Phase :=
  | Waiting
  | Running (held : option LimiterRef)
  | Finished.

#[export] Instance Phase_eq_dec : EqDecision Phase.
Proof. solve_decision. Defined.

Record Req := {
  req_bucket : N;
  phase : Phase;
}.

(** The limiters of the process: the global one and, per bucket id,
    the bucket's own ([config.max_concurrency.map(Semaphore::new)]). *)
Record AState := {
  a_global : option Semaphore;
  a_locals : gmap N Semaphore;
  a_reqs : list Req;
}.

Definition set_phase (st : AState) (j : nat) (b : N) (p : Phase) : list Req :=
  <[j := {| req_bucket := b; phase := p |}]> (a_reqs st).

Definition arrive (st : AState) (b : N) : AState :=
  {| a_global := a_global st; a_locals := a_locals st;
     a_reqs := a_reqs st ++ [{| req_bucket := b; phase := Waiting |}] |}.

(** Request [j] passes [get_optional_permit]; [None] when it must wait. *)
Definition acquire_step (st : AState) (j : nat) : option AState :=
  match a_reqs st !! j with
  | Some {| req_bucket := b; phase := Waiting |} =>
      match get_optional_permit (a_global st) (a_locals st !! b) with
      | None => Some {| a_global := a_global st; a_locals := a_locals st;
                        a_reqs := set_phase st j b (Running None) |}
      | Some (r, s) =>
          match try_acquire s with
          | WouldBlock => None
          | AcquireClosed => Some {| a_global := a_global st; a_locals := a_locals st;
                                     a_reqs := set_phase st j b Finished |}
          | Acquired s' =>
              Some {| a_global := if r is GlobalLimiter then Some s' else a_global st;
                      a_locals := if r is LocalLimiter then <[b := s']> (a_locals st)
                                  else a_locals st;
                      a_reqs := set_phase st j b (Running (Some r)) |}
          end
      end
  | _ => None
  end.

(** Request [j] returns; its permit, if any, goes back. *)
Definition release_step (st : AState) (j : nat) : option AState :=
  match a_reqs st !! j with
  | Some {| req_bucket := b; phase := Running h |} =>
      Some {| a_global := if h is Some GlobalLimiter then release <$> a_global st
                          else a_global st;
              a_locals := if h is Some LocalLimiter then alter release b (a_locals st)
                          else a_locals st;
              a_reqs := set_phase st j b Finished |}
  | _ => None
  end.

Inductive astep : AState → AState → Prop :=
  | step_arrive st b : astep st (arrive st b)
  | step_acquire st j st' : acquire_step st j = Some st' → astep st st'
  | step_release st j st' : release_step st j = Some st' → astep st st'.

Definition init_state (global : option nat) (locals : gmap N nat) : AState :=
  {| a_global := semaphore_new <$> global;
     a_locals := semaphore_new <$> locals;
     a_reqs := [] |}.

Definition holds_global (r : Req) : Prop := phase r = Running (Some GlobalLimiter).
Definition holds_local (b : N) (r : Req) : Prop :=
  req_bucket r = b ∧ phase r = Running (Some LocalLimiter).
Definition running_unlimited (r : Req) : Prop := phase r = Running None.
Definition is_running (r : Req) : Prop := ∃ h, phase r = Running h.

#[export] Instance holds_global_dec r : Decision (holds_global r).
Proof. unfold holds_global. apply _. Defined.
#[export] Instance holds_local_dec b r : Decision (holds_local b r).
Proof. unfold holds_local. apply _. Defined.
#[export] Instance running_unlimited_dec r : Decision (running_unlimited r).
Proof. unfold running_unlimited. apply _. Defined.
#[export] Instance is_running_dec r : Decision (is_running r).
Proof.
  unfold is_running. destruct (phase r) as [|h|];
    [right; by intros [? ?] | left; eauto | right; by intros [? ?]].
Defined.

Definition held_global (st : AState) : nat := length (filter holds_global (a_reqs st)).
Definition held_local (st : AState) (b : N) : nat := length (filter (holds_local b) (a_reqs st)).

(** The permit accounting of every reachable state.  [cap_global] and
    [cap_local] are the capacities the limiters were created with: the
    free permits of a limiter plus the requests holding it make up its
    capacity, a request holds no limiter that does not exist, and while
    the global limiter exists no request holds a local one or runs
    without a permit. *)
Definition global_accounting (cap_global : nat) (st : AState) : Prop :=
  match a_global st with
  | Some s => permits s + held_global st = cap_global
  | None => held_global st = 0
  end.

Definition local_accounting (cap_local : gmap N nat) (st : AState) (b : N) : Prop :=
  match a_locals st !! b with
  | Some s => cap_local !! b = Some (permits s + held_local st b)
  | None => held_local st b = 0
  end.

Definition precedence (st : AState) : Prop :=
  is_Some (a_global st) →
  (∀ b, held_local st b = 0) ∧ Forall (λ r, ¬ running_unlimited r) (a_reqs st).

Definition admission_inv (cap_global : nat) (cap_local : gmap N nat) (st : AState) : Prop :=
  global_accounting cap_global st ∧ (∀ b, local_accounting cap_local st b) ∧ precedence st.

(** The state after request [j] of bucket [b] moves to phase [p], with
    limiters [gl] and [lo]. *)
Definition moved (st : AState) (j : nat) (b : N) (p : Phase) (gl : option Semaphore)
    (lo : gmap N Semaphore) : AState :=
  {| a_global := gl; a_locals := lo; a_reqs := set_phase st j b p |}.

(** The states the process can reach from its start-up limiters. *)
Definition reachable (global : option nat) (locals : gmap N nat) (st : AState) : Prop :=
rtc astep (init_state global locals) st.


(** The scheduler alone: some request acquires or releases, none arrives. *)
Inductive sched_step : AState → AState → Prop :=
  | sched_acquire st j st' : acquire_step st j = Some st' → sched_step st st'
  | sched_release st j st' : release_step st j = Some st' → sched_step st st'.

(** The steps a request has left: to acquire, then to release. *)
Definition phase_weight (p : Phase) : nat :=
  match p with Waiting => 2 | Running _ => 1 | Finished => 0 end.

Definition pending (st : AState) : nat := sum_list ((λ r, phase_weight (phase r)) <$> a_reqs st).


Section Inv.
Context (cap_global : nat) (cap_local : gmap N nat).
  
Lemma count_step (P : Req → Prop) `{∀ r, Decision (P r)} st j r b p :
  a_reqs st !! j = Some r →
  length (filter P (set_phase st j b p)) + (if decide (P r) then 1 else 0) =
  length (filter P (a_reqs st)) + (if decide (P {| req_bucket := b; phase := p |}) then 1 else 0).
Proof. apply filter_length_insert. Qed.
  
Lemma held_global_moved st j r b p gl lo :
  a_reqs st !! j = Some r →
  held_global (moved st j b p gl lo) + (if decide (holds_global r) then 1 else 0) =
  held_global st + (if decide (holds_global {| req_bucket := b; phase := p |}) then 1 else 0).
Proof. apply count_step. Qed.
  
Lemma held_local_moved st j r b p gl lo b' :
  a_reqs st !! j = Some r →
  held_local (moved st j b p gl lo) b' + (if decide (holds_local b' r) then 1 else 0) =
  held_local st b' + (if decide (holds_local b' {| req_bucket := b; phase := p |}) then 1 else 0).
Proof. apply count_step. Qed.
  
Ltac counts Hj :=
  repeat match goal with
  | |- context [held_global (moved ?st ?j ?b ?p ?gl ?lo)] =>
      let E := fresh "E" in let n := fresh "n" in
      pose proof (held_global_moved st j _ b p gl lo Hj) as E;
      set (n := held_global (moved st j b p gl lo)) in *; clearbody n;
      unfold holds_global in E; simpl in E; rewrite ?decide_True, ?decide_False in E by congruence
  | |- context [held_local (moved ?st ?j ?b ?p ?gl ?lo) ?b'] =>
      let E := fresh "E" in let n := fresh "n" in
      pose proof (held_local_moved st j _ b p gl lo b' Hj) as E;
      set (n := held_local (moved st j b p gl lo) b') in *; clearbody n;
      unfold holds_local in E; simpl in E; repeat case_decide; destruct_and?; simplify_eq/=;
      try match goal with H : ¬ (?a = ?a ∧ ?c = ?c) |- _ => by destruct H end
  end.
  
Lemma inv_arrive st b :
  admission_inv cap_global cap_local st → admission_inv cap_global cap_local (arrive st b).
Proof.
  unfold admission_inv, global_accounting, local_accounting, precedence, held_global, held_local, arrive.
  simpl. intros (HG & HL & HP).
  assert (∀ b', length (filter (holds_local b') [{| req_bucket := b; phase := Waiting |}]) = 0) as E1.
  { intros b'. rewrite filter_cons_False; [done|]. by intros [_ ?]. }
  assert (length (filter holds_global [{| req_bucket := b; phase := Waiting |}]) = 0) as E2.
  { rewrite filter_cons_False; [done|]. by unfold holds_global. }
  rewrite filter_app, length_app, E2, Nat.add_0_r. split_and!; [done| |].
  - intros b'. rewrite filter_app, length_app, E1, Nat.add_0_r. apply HL.
  - intros Hs. destruct (HP Hs) as [H1 H2]. split.
    + intros b'. rewrite filter_app, length_app, E1, H1. done.
    + apply Forall_app. split; [done|]. constructor; [|done]. by unfold running_unlimited.
Qed.
  
Lemma inv_acquire_global st j b g g' :
  a_reqs st !! j = Some {| req_bucket := b; phase := Waiting |} →
  a_global st = Some g → try_acquire g = Acquired g' →
  admission_inv cap_global cap_local st →
  admission_inv cap_global cap_local (moved st j b (Running (Some GlobalLimiter)) (Some g') (a_locals st)).
Proof.
  intros Hj Hg Ha (HG & HL & HP). apply try_acquire_permits in Ha.
  unfold admission_inv, global_accounting, local_accounting, precedence in *. rewrite Hg in HG.
  simpl. split_and!.
  - counts Hj. lia.
  - intros b0. specialize (HL b0). destruct (a_locals st !! b0); counts Hj; [rewrite HL; f_equal|]; lia.
  - intros _. destruct (HP ltac:(by rewrite Hg)) as [HP1 HP2]. split.
    + intros b0. counts Hj. specialize (HP1 b0). lia.
    + apply Forall_insert; [done|]. by unfold running_unlimited.
Qed.
  
Lemma inv_acquire_local st j b l l' :
  a_reqs st !! j = Some {| req_bucket := b; phase := Waiting |} →
  a_global st = None → a_locals st !! b = Some l → try_acquire l = Acquired l' →
  admission_inv cap_global cap_local st →
  admission_inv cap_global cap_local
    (moved st j b (Running (Some LocalLimiter)) None (<[b := l']> (a_locals st))).
Proof.
  intros Hj Hg Hl Ha (HG & HL & HP). apply try_acquire_permits in Ha.
  unfold admission_inv, global_accounting, local_accounting, precedence in *. rewrite Hg in HG.
  simpl. split_and!.
  - counts Hj. lia.
  - intros b0. specialize (HL b0). rewrite lookup_insert. case_decide as Hb; subst.
    + rewrite Hl in HL. counts Hj; rewrite HL; f_equal; lia.
    + destruct (a_locals st !! b0); counts Hj; [rewrite HL; f_equal|]; lia.
  - by intros [? ?].
Qed.
  
Lemma inv_neutral st j r b p :
  a_reqs st !! j = Some r → req_bucket r = b →
  (phase r = Waiting ∨ phase r = Running None) →
  (p = Finished ∨ p = Waiting ∨ (p = Running None ∧ a_global st = None)) →
  admission_inv cap_global cap_local st →
  admission_inv cap_global cap_local (moved st j b p (a_global st) (a_locals st)).
Proof.
  intros Hj Hb Hr Hp (HG & HL & HP). destruct r as [b' ph]; simpl in *; subst b'.
  unfold admission_inv, global_accounting, local_accounting, precedence in *.
  destruct Hr as [->| ->], Hp as [->|[->|[-> Hn]]]; simpl; split_and!.
  all: try (destruct (a_global st); counts Hj; lia).
  all: try (intros b0; specialize (HL b0); destruct (a_locals st !! b0);
            counts Hj; rewrite ?HL; try f_equal; lia).
  all: intros Hs; destruct (HP Hs) as [HP1 HP2]; split;
    [intros b0; specialize (HP1 b0); counts Hj; lia
    |apply Forall_insert; [done|]; unfold running_unlimited; simpl; try congruence].
  all: by rewrite Hn in Hs; destruct Hs.
Qed.
  
Lemma inv_release_global st j b :
  a_reqs st !! j = Some {| req_bucket := b; phase := Running (Some GlobalLimiter) |} →
  admission_inv cap_global cap_local st →
  admission_inv cap_global cap_local (moved st j b Finished (release <$> a_global st) (a_locals st)).
Proof.
  intros Hj (HG & HL & HP).
  unfold admission_inv, global_accounting, local_accounting, precedence in *.
  simpl. split_and!.
  - destruct (a_global st) as [g|]; simpl; counts Hj; lia.
  - intros b0. specialize (HL b0). destruct (a_locals st !! b0);
      counts Hj; rewrite ?HL; try f_equal; lia.
  - intros Hs. destruct (HP ltac:(by destruct (a_global st))) as [HP1 HP2]. split.
    + intros b0. specialize (HP1 b0). counts Hj. lia.
    + apply Forall_insert; [done|]. by unfold running_unlimited.
Qed.
  
Lemma inv_release_local st j b :
  a_reqs st !! j = Some {| req_bucket := b; phase := Running (Some LocalLimiter) |} →
  admission_inv cap_global cap_local st →
  admission_inv cap_global cap_local (moved st j b Finished (a_global st) (alter release b (a_locals st))).
Proof.
  intros Hj (HG & HL & HP).
  unfold admission_inv, global_accounting, local_accounting, precedence in *.
  simpl. split_and!.
  - destruct (a_global st); counts Hj; lia.
  - intros b0. specialize (HL b0). rewrite lookup_alter. case_decide as Hb; subst.
    + destruct (a_locals st !! b0); simpl; counts Hj; rewrite ?HL; try f_equal; lia.
    + destruct (a_locals st !! b0); counts Hj; rewrite ?HL; try f_equal; lia.
  - intros Hs. destruct (HP Hs) as [HP1 HP2]. split.
    + intros b0. specialize (HP1 b0). counts Hj; lia.
    + apply Forall_insert; [done|]. by unfold running_unlimited.
Qed.
  
Lemma acquire_step_inv st j st' :
  admission_inv cap_global cap_local st → acquire_step st j = Some st' →
  admission_inv cap_global cap_local st'.
Proof.
  unfold acquire_step. intros Hinv Hs.
  destruct (a_reqs st !! j) as [[b [| |]]|] eqn:Hj; try discriminate.
  destruct (a_global st) as [g|] eqn:Hg; simpl in Hs;
    [|destruct (a_locals st !! b) as [l|] eqn:Hl; simpl in Hs].
  - destruct (try_acquire g) eqn:Ha; simplify_eq.
    + by apply (inv_acquire_global st j b g).
    + rewrite <- Hg. apply (inv_neutral st j _ b _ Hj); auto.
  - destruct (try_acquire l) eqn:Ha; simplify_eq.
    + by apply (inv_acquire_local st j b l).
    + rewrite <- Hg. apply (inv_neutral st j _ b _ Hj); auto.
  - simplify_eq. rewrite <- Hg. apply (inv_neutral st j _ b (Running None) Hj); auto.
Qed.
  
Lemma release_step_inv st j st' :
  admission_inv cap_global cap_local st → release_step st j = Some st' →
  admission_inv cap_global cap_local st'.
Proof.
  unfold release_step. intros Hinv Hs.
  destruct (a_reqs st !! j) as [[b [|[[|]|]|]]|] eqn:Hj; simplify_eq.
  - by apply inv_release_global.
  - by apply inv_release_local.
  - apply (inv_neutral st j _ b Finished Hj); auto.
Qed.
  
Lemma astep_inv st st' :
  admission_inv cap_global cap_local st → astep st st' → admission_inv cap_global cap_local st'.
Proof.
  intros Hinv Hs. destruct Hs as [st b|st j st' Hs|st j st' Hs].
  - by apply inv_arrive.
  - by eapply acquire_step_inv.
  - by eapply release_step_inv.
Qed.
End Inv.

Lemma init_inv global locals : admission_inv (default 0 global) locals (init_state global locals).
Proof.
  unfold admission_inv, global_accounting, local_accounting, precedence, held_global, held_local.
  simpl. split_and!.
  - destruct global; simpl; lia.
  - intros b. rewrite lookup_fmap. destruct (locals !! b); simpl; [f_equal; lia | done].
  - intros _. split; [done | constructor].
Qed.

Lemma reachable_admission global locals st :
  reachable global locals st → admission_inv (default 0 global) locals st.
Proof. intros Hr. eapply rtc_inv; [apply init_inv | apply astep_inv | exact Hr]. Qed.

(** C17: every state reachable from the start-up limiters keeps the permit
    accounting: free permits plus holders make up each limiter's
    capacity, and under a global limiter no request holds a local permit
    or runs without a permit. *)
Theorem reachable_inv global locals st :
  reachable global locals st → admission_inv (default 0 global) locals st.
Proof. apply reachable_admission. Qed.

Section Corollaries.
Lemma astep_global_some st st' : is_Some (a_global st) → astep st st' → is_Some (a_global st').
Proof.
  intros [g Hg] Hs. destruct Hs as [st b|st j st' Hs|st j st' Hs]; simpl; [by rewrite Hg| |].
  - unfold acquire_step in Hs. rewrite Hg in Hs.
    destruct (a_reqs st !! j) as [[b [| |]]|]; try discriminate. simpl in Hs.
    destruct (try_acquire g); simplify_eq/=; eauto.
  - unfold release_step in Hs. destruct (a_reqs st !! j) as [[b [|[[|]|]|]]|]; simplify_eq/=;
      rewrite ?Hg; eauto.
Qed.
  
Lemma reachable_global_some cap L st : reachable (Some cap) L st → is_Some (a_global st).
Proof.
  intros Hr. eapply (rtc_inv _ (λ s, is_Some (a_global s))); [| apply astep_global_some | exact Hr]; simpl; eauto.
Qed.
  
Lemma running_holds_global cap L st r :
  admission_inv cap L st → is_Some (a_global st) → r ∈ a_reqs st → is_running r → holds_global r.
Proof.
  intros (_ & _ & HP) Hs Hr [h Hh]. destruct (HP Hs) as [HP1 HP2].
  unfold holds_global. rewrite Hh. destruct h as [[]|]; [done| |].
  - exfalso. pose proof (filter_length_pos (holds_local (req_bucket r)) (a_reqs st) r Hr
      (conj eq_refl Hh)) as E.
    unfold held_local in HP1. rewrite HP1 in E. lia.
  - exfalso. rewrite Forall_forall in HP2. by apply (HP2 r).
Qed.
  
(** C13: with a global limiter of capacity [cap], at most [cap] requests run
    at once, across all buckets, whatever the buckets' own limits. *)
Theorem global_limit cap L st :
  reachable (Some cap) L st → length (filter is_running (a_reqs st)) ≤ cap.
Proof.
  intros Hr. pose proof (rtc_inv _ _ _ _ (init_inv (Some cap) L) (astep_inv _ _) Hr) as Hinv. simpl in Hinv.
  destruct (reachable_global_some _ _ _ Hr) as [s Hs].
  apply (Nat.le_trans _ (held_global st)).
  { apply filter_length_mono. intros r Hin Hrun. eapply running_holds_global; eauto. }
  destruct Hinv as (HG & _). unfold global_accounting in HG. rewrite Hs in HG. lia.
Qed.
  
Lemma astep_locals_fixed cap L st st' :
  admission_inv cap L st → is_Some (a_global st) → astep st st' → a_locals st' = a_locals st.
Proof.
  intros Hinv Hsome Hs. destruct Hsome as [g Hg].
  destruct Hs as [st b|st j st' Hs|st j st' Hs]; [done| |].
  - unfold acquire_step in Hs. rewrite Hg in Hs.
    destruct (a_reqs st !! j) as [[b [| |]]|]; try discriminate. simpl in Hs.
    destruct (try_acquire g); by simplify_eq/=.
  - unfold release_step in Hs.
    destruct (a_reqs st !! j) as [[b [|[[|]|]|]]|] eqn:Hj; simplify_eq/=; try done.
    exfalso. apply list_elem_of_lookup_2 in Hj.
    assert (holds_global {| req_bucket := b; phase := Running (Some LocalLimiter) |}) as Hh.
    { eapply running_holds_global; eauto. by eexists. }
    discriminate Hh.
Qed.
  
(** C33: with a global limiter, the buckets' own limiters are never used:
    they keep all the permits they were created with. *)
Theorem locals_untouched cap L st :
  reachable (Some cap) L st → a_locals st = semaphore_new <$> L.
Proof.
  unfold reachable. intros Hr.
  assert (∀ st0, rtc astep st0 st → admission_inv cap L st0 → is_Some (a_global st0) →
          a_locals st = a_locals st0) as Gen.
  { clear Hr. intros st0 Hr. induction Hr as [|x y z Hxy Hyz IH]; intros Hinv Hs; [done|].
    rewrite IH; eauto using astep_inv, astep_global_some, astep_locals_fixed. }
  apply (Gen _ Hr); [apply (init_inv (Some cap)) | simpl; eauto].
Qed.
End Corollaries.

(** ** Termination of the scheduler *)

Lemma set_phase_pending st j b p r :
  a_reqs st !! j = Some r → phase_weight p < phase_weight (phase r) →
  sum_list ((λ r, phase_weight (phase r)) <$> set_phase st j b p) < pending st.
Proof.
  intros Hj Hlt. unfold set_phase, pending.
  pose proof (sum_list_insert (λ r, phase_weight (phase r)) (a_reqs st) j
                {| req_bucket := b; phase := p |} r Hj) as E. simpl in E. lia.
Qed.

(** Each step of the scheduler moves one request forward. *)
Lemma sched_step_pending st st' : sched_step st st' → pending st' < pending st.
Proof.
  intros [st0 j st1 Hs|st0 j st1 Hs].
  - unfold acquire_step in Hs.
    destruct (a_reqs st0 !! j) as [[b [| |]]|] eqn:Hj; try discriminate.
    destruct (get_optional_permit _ _) as [[r s]|];
      [destruct (try_acquire s)|]; simplify_eq/=;
      (eapply set_phase_pending; [exact Hj|simpl; lia]).
  - unfold release_step in Hs.
    destruct (a_reqs st0 !! j) as [[b [|h|]]|] eqn:Hj; simplify_eq/=.
    eapply set_phase_pending; [exact Hj|simpl; lia].
Qed.

Lemma pending_bound st : pending st ≤ 2 * length (a_reqs st).
Proof.
  destruct st as [g ls reqs]. unfold pending. simpl.
  induction reqs as [|r l IH]; [simpl; lia|]. rewrite fmap_cons. cbn [sum_list length].
  destruct (phase r); simpl; lia.
Qed.

(** Without new arrivals the scheduler terminates.  No infinite
    sequence of acquisitions and releases exists, and from a state with
    [n] requests at most [2 n] of them happen: each request passes
    [get_optional_permit] once (a closed semaphore ends it with an error)
    and releases its permit once. *)
Theorem scheduler_terminates :
  well_founded (λ st' st, sched_step st st') ∧
  ∀ n st st', nsteps sched_step n st st' → n ≤ 2 * length (a_reqs st).
Proof.
  split; [apply (wf_decreasing _ pending), sched_step_pending|].
  intros n st st' Hs. pose proof (nsteps_decreasing _ pending sched_step_pending n st st' Hs).
  pose proof (pending_bound st). lia.
Qed.

(** ** Completion: no request is left waiting *)

Lemma try_acquire_free s : 0 < permits s → try_acquire s ≠ WouldBlock.
Proof. unfold try_acquire. destruct (closed s); [done|]. destruct (permits s); [lia|done]. Qed.

Lemma sched_step_astep st st' : sched_step st st' → astep st st'.
Proof. intros [? ? ? H|? ? ? H]; [eapply step_acquire|eapply step_release]; eauto. Qed.

Lemma astep_global_none st st' : a_global st = None → astep st st' → a_global st' = None.
Proof.
  intros Hg Hs. destruct Hs as [st b|st j st' Hs|st j st' Hs]; simpl; [done| |].
  - unfold acquire_step in Hs. rewrite Hg in Hs.
    destruct (a_reqs st !! j) as [[b [| |]]|]; try discriminate. simpl in Hs.
    destruct (a_locals st !! b) as [l|]; simpl in Hs; [destruct (try_acquire l)|]; by simplify_eq/=.
  - unfold release_step in Hs. destruct (a_reqs st !! j) as [[b [|[[|]|]|]]|]; simplify_eq/=; by rewrite ?Hg.
Qed.

Lemma reachable_global_cap global locals st g :
  reachable global locals st → a_global st = Some g → ∃ c, global = Some c.
Proof.
  intros Hr Hg. destruct global as [c|]; [by eexists|].
  enough (a_global st = None) by congruence.
  apply (rtc_inv astep (λ x, a_global x = None) (init_state None locals) st);
    [done | intros ? ?; apply astep_global_none | exact Hr].
Qed.

Lemma filter_length_none {A} (P : A → Prop) `{∀ x, Decision (P x)} (l : list A) :
  Forall (λ x, ¬ P x) l → length (filter P l) = 0.
Proof. induction 1 as [|x l Hx _ IH]; [done|]. by rewrite filter_cons_False. Qed.

(** With no request running, every limiter has all its permits back. *)
Lemma idle_permits cap L st :
  admission_inv cap L st → Forall (λ r, ¬ is_running r) (a_reqs st) →
  (∀ g, a_global st = Some g → permits g = cap) ∧
  (∀ b s, a_locals st !! b = Some s → L !! b = Some (permits s)).
Proof.
  intros (HG & HL & _) Hidle.
  assert (held_global st = 0) as H0.
  { apply filter_length_none. eapply Forall_impl; [exact Hidle|]. intros r Hr Hh. apply Hr.
    unfold holds_global in Hh. by eexists. }
  split.
  - intros g Hg. unfold global_accounting in HG. rewrite Hg in HG. lia.
  - intros b s' Hs. specialize (HL b). unfold local_accounting in HL. rewrite Hs in HL.
    assert (held_local st b = 0) as H1.
    { apply filter_length_none. eapply Forall_impl; [exact Hidle|]. intros r Hr [_ Hh]. apply Hr.
      by eexists. }
    by rewrite H1, Nat.add_0_r in HL.
Qed.

(** Progress: a reachable state where some request has not finished can
    take a scheduler step, provided every limiter was created with at
    least one permit. *)
Lemma sched_progress global locals st :
  (∀ c, global = Some c → 0 < c) → map_Forall (λ _ c, 0 < c) locals →
  reachable global locals st → ¬ Forall (λ r, phase r = Finished) (a_reqs st) →
  ∃ st', sched_step st st'.
Proof.
  intros Hgc Hlc Hr Hnf.
  destruct (decide (Exists is_running (a_reqs st))) as [Hrun|Hidle].
  - apply Exists_exists in Hrun as ([b ph] & Hin & [h Hh]). simpl in Hh. subst ph.
    apply list_elem_of_lookup_1 in Hin as [j Hj].
    eexists. apply (sched_release _ j). unfold release_step. by rewrite Hj.
  - apply not_Exists_Forall in Hidle.
    apply not_Forall_Exists, Exists_exists in Hnf as ([b ph] & Hin & Hph). simpl in Hph.
    assert (ph = Waiting) as ->.
    { destruct ph as [|h|]; [done| |done]. exfalso.
      rewrite Forall_forall in Hidle. apply (Hidle _ Hin). by eexists. }
    apply list_elem_of_lookup_1 in Hin as [j Hj].
    pose proof (reachable_admission global locals st Hr) as Hinv.
    destruct (idle_permits _ _ _ Hinv Hidle) as [Hg Hl].
    destruct (get_optional_permit (a_global st) (a_locals st !! b)) as [[lr s]|] eqn:Ep;
      [|by eexists; apply (sched_acquire _ j); unfold acquire_step; rewrite Hj, Ep].
    assert (0 < permits s) as Hfree.
    { unfold get_optional_permit in Ep. destruct (a_global st) as [g|] eqn:Eg.
      - injection Ep as <- <-. destruct (reachable_global_cap _ _ _ _ Hr Eg) as [c ->].
        rewrite (Hg g eq_refl). simpl. by apply Hgc.
      - destruct (a_locals st !! b) as [l|] eqn:El; [|done]. injection Ep as <- <-.
        by apply (Hlc b), Hl. }
    destruct (try_acquire s) eqn:Ea; [| |by destruct (try_acquire_free s Hfree)];
      eexists; apply (sched_acquire _ j); unfold acquire_step; by rewrite Hj, Ep, Ea.
  all: intros; apply _.
Qed.

Lemma reachable_sched global locals st st' :
  reachable global locals st → sched_step st st' → reachable global locals st'.
Proof. intros Hr Hs. eapply rtc_r; [exact Hr | by apply sched_step_astep]. Qed.

(** C18: every request completes.  From any state reachable from limiters
    created with at least one permit each, the scheduler never gets stuck:
    every state it reaches without new arrivals either has all requests
    finished or can take a step; and since its steps terminate, a run
    reaches a state where every request has finished. *)
Theorem requests_complete global locals st :
  (∀ c, global = Some c → 0 < c) → map_Forall (λ _ c, 0 < c) locals →
  reachable global locals st →
  (∀ st', rtc sched_step st st' →
          Forall (λ r, phase r = Finished) (a_reqs st') ∨ ∃ st'', sched_step st' st'') ∧
  ∃ st', rtc sched_step st st' ∧ Forall (λ r, phase r = Finished) (a_reqs st').
Proof.
  intros Hgc Hlc Hr. split.
  - intros st' Hs.
    assert (reachable global locals st') as Hr'.
    { clear -Hr Hs. induction Hs as [|x y z Hxy _ IH]; [done|]. apply IH. by eapply reachable_sched. }
    destruct (decide (Forall (λ r, phase r = Finished) (a_reqs st'))) as [?|Hnf]; [by left|right].
    by apply (sched_progress global locals).
  - revert Hr. induction st as [st IH] using (well_founded_induction (wf_decreasing _ pending sched_step_pending)).
    intros Hr. destruct (decide (Forall (λ r, phase r = Finished) (a_reqs st))) as [Hf|Hnf].
    { exists st. split; [apply rtc_refl|done]. }
    destruct (sched_progress global locals st Hgc Hlc Hr Hnf) as [st' Hs].
    destruct (IH st' Hs (reachable_sched _ _ _ _ Hr Hs)) as (st'' & Hrtc & Hf).
    exists st''. split; [eapply rtc_l; eauto|done].
Qed.

(** Two buckets with local limits of two share a global limiter of
    capacity one: once the request to bucket 1 holds the global permit,
    the request to bucket 2 cannot acquire, whatever its own limit. *)
Lemma global_limit_witness :
  let st := {| a_global := Some {| permits := 0; closed := false |};
               a_locals := semaphore_new <$> ({[1%N := 2; 2%N := 2]} : gmap N nat);
               a_reqs := [{| req_bucket := 1; phase := Running (Some GlobalLimiter) |};
                          {| req_bucket := 2; phase := Waiting |}] |} in
  reachable (Some 1) {[1%N := 2; 2%N := 2]} st ∧
  length (filter is_running (a_reqs st)) ≤ 1 ∧
  acquire_step st 1 = None.
Proof.
  intros st.
  assert (reachable (Some 1) {[1%N := 2; 2%N := 2]} st) as Hr.
  { unfold reachable. eapply rtc_l; [apply (step_arrive _ 1%N)|].
    eapply rtc_l; [apply (step_arrive _ 2%N)|].
    eapply rtc_l; [apply (step_acquire _ 0); reflexivity|]. apply rtc_refl. }
  split; [exact Hr|]. split; [apply (global_limit 1 _ _ Hr)|reflexivity].
Defined.

Lemma locals_untouched_witness :
  let st := {| a_global := Some {| permits := 0; closed := false |};
               a_locals := semaphore_new <$> ({[1%N := 2]} : gmap N nat);
               a_reqs := [{| req_bucket := 1; phase := Running (Some GlobalLimiter) |}] |} in
  reachable (Some 1) {[1%N := 2]} st ∧ a_locals st = semaphore_new <$> {[1%N := 2]}.
Proof.
  intros st.
  assert (reachable (Some 1) {[1%N := 2]} st) as Hr.
  { unfold reachable. eapply rtc_l; [apply (step_arrive _ 1%N)|].
    eapply rtc_l; [apply (step_acquire _ 0); reflexivity|]. apply rtc_refl. }
  split; [exact Hr | apply (locals_untouched 1 _ _ Hr)].
Defined.


(** Two requests to two buckets under a global limiter of one permit:
    both complete, one after the other. *)
Lemma requests_complete_witness :
  let L : gmap N nat := {[1%N := 2; 2%N := 2]} in
  let st := arrive (arrive (init_state (Some 1) L) 1) 2 in
  (∀ c, Some 1 = Some c → 0 < c) ∧ map_Forall (λ _ c, 0 < c) L ∧ reachable (Some 1) L st ∧
  ∃ st', rtc sched_step st st' ∧ Forall (λ r, phase r = Finished) (a_reqs st').
Proof.
  intros L st.
  assert (∀ c, Some 1 = Some c → 0 < c) as Hg by (intros c [= <-]; lia).
  assert (map_Forall (λ _ c, 0 < c) L) as Hl by (apply (bool_decide_unpack _); vm_compute; reflexivity).
  assert (reachable (Some 1) L st) as Hr.
  { unfold reachable. eapply rtc_l; [apply (step_arrive _ 1%N)|].
    eapply rtc_l; [apply (step_arrive _ 2%N)|]. apply rtc_refl. }
  split_and!; [exact Hg | exact Hl | exact Hr | exact (proj2 (requests_complete (Some 1) L st Hg Hl Hr))].
Defined.
