(* ===== verification/Controller.v ===== *)
(** * Controller: [src/controller.rs], the bucket controller

    [BucketController] keeps the fixed part of a controller (bucket id,
    configuration, pipeline); everything a call can change lives in the
    [World]: the storage backend's state, the bucket's own cache, the
    process-wide cache ([global_cache()]) and the two limiters.  Each
    method is a computation of the state-error monad [ST (World S)]
    wrapped by [with_permit], which acquires the permit chosen by
    [get_optional_permit] and gives it back when the call returns,
    whatever the result; [with_permit] yields [None] when the acquire
    would wait, which in a run with no other call in flight means it
    waits forever.

    The pipeline hooks run on a blocking thread; the model runs them in
    place and records each invocation in [pipeline_log], an
    instrumentation field with no counterpart in the code, so that the
    theorems can count pipeline invocations.  Timing ([processing_time],
    [io_time]) and logging are not modelled. *)

From S2P Require Import Prelude Config Utils Pipeline Storage Cache Admission.
Open Scope lust_scope.

Record BucketController (P : Type) := {
  bucket_id : N;
  config : BucketConfig;
  pipeline : P;
}.
Arguments bucket_id {P} _.
Arguments config {P} _.
Arguments pipeline {P} _.

Inductive PipelineCall :=
  | CallOnUpload (kind : ImageKind)
  | CallOnFetch (desired_kind data_kind : ImageKind) (sizing_id : N).

Record World (S : Type) := {
  storage : S;
  local_cache : option cache;
  global_cache : option cache;
  global_limiter : option Semaphore;
  limiter : option Semaphore;
  pipeline_log : list PipelineCall;
}.
Arguments storage {S} _.
Arguments local_cache {S} _.
Arguments global_cache {S} _.
Arguments global_limiter {S} _.
Arguments limiter {S} _.
Arguments pipeline_log {S} _.

(** [ImageUploadInfo { sizing_id }] and [UploadInfo] without the timings. *)
Record ImageUploadInfo := { upload_sizing_id : N }.

Record UploadInfo := {
  info_image_id : string;
  info_checksum : N;
  info_images : list ImageUploadInfo;
  info_bucket_id : N;
}.

(** [BucketController::cache_key]:
    [format!("{bucket}:{sizing}:{image}:{kind}")]. *)
Definition cache_key (bucket sizing : N) (image : string) (kind : ImageKind) : string :=
  dec bucket +:+ ":" +:+ dec sizing +:+ ":" +:+ image +:+ ":" +:+ as_file_extension kind.

Section Controller.
Context {S P : Type} `{!StorageBackend S} `{!Pipeline P}.
Context (sha256 : bytes → bytes).

(** ** World updates *)

Definition set_storage (st : S) (w : World S) : World S :=
  {| storage := st; local_cache := local_cache w; global_cache := global_cache w;
     global_limiter := global_limiter w; limiter := limiter w; pipeline_log := pipeline_log w |}.

Definition map_local_cache (f : cache → cache) (w : World S) : World S :=
  {| storage := storage w; local_cache := f <$> local_cache w; global_cache := global_cache w;
     global_limiter := global_limiter w; limiter := limiter w; pipeline_log := pipeline_log w |}.

Definition map_global_cache (f : cache → cache) (w : World S) : World S :=
  {| storage := storage w; local_cache := local_cache w; global_cache := f <$> global_cache w;
     global_limiter := global_limiter w; limiter := limiter w; pipeline_log := pipeline_log w |}.

Definition set_limiter (r : LimiterRef) (s : Semaphore) (w : World S) : World S :=
  {| storage := storage w; local_cache := local_cache w; global_cache := global_cache w;
     global_limiter := if r is GlobalLimiter then Some s else global_limiter w;
     limiter := if r is LocalLimiter then Some s else limiter w;
     pipeline_log := pipeline_log w |}.

Definition limiter_of (r : LimiterRef) (w : World S) : option Semaphore :=
  if r is GlobalLimiter then global_limiter w else limiter w.

Definition log_call (c : PipelineCall) (w : World S) : World S :=
  {| storage := storage w; local_cache := local_cache w; global_cache := global_cache w;
     global_limiter := global_limiter w; limiter := limiter w;
     pipeline_log := pipeline_log w ++ [c] |}.

(** What a call sees of the world apart from the limiters. *)
Definition data_of (w : World S) : S * option cache * option cache * list PipelineCall :=
  (storage w, local_cache w, global_cache w, pipeline_log w).

(** A storage call on the world's backend. *)
Definition storage_op {A} (m : ST S A) : ST (World S) A :=
  λ w, let '(st', r) := m (storage w) in (set_storage st' w, r).

(** ** Admission: the [_permit] guard around a whole call *)

Definition with_permit {A} (body : ST (World S) A) (w : World S) : option (World S * result A) :=
  match get_optional_permit (global_limiter w) (limiter w) with
  | None => Some (body w)
  | Some (r, s) =>
      match try_acquire s with
      | AcquireClosed => Some (w, Err AcquireError)
      | WouldBlock => None
      | Acquired s' =>
          let '(w', res) := body (set_limiter r s' w) in
          Some (match limiter_of r w' with
                | Some held => set_limiter r (release held) w'
                | None => w'
                end, res)
      end
  end.

Variable ctl : BucketController P.

(** ** [caching_fetch] (lines 263-295) *)

Inductive CacheRef := LocalCacheRef | GlobalCacheRef.

(** [self.cache.as_ref().map(..).unwrap_or_else(global_cache)]. *)
Definition read_cache (w : World S) : option CacheRef :=
  match local_cache w with
  | Some _ => Some LocalCacheRef
  | None => if global_cache w is Some _ then Some GlobalCacheRef else None
  end.

Definition cache_of (r : CacheRef) (w : World S) : option cache :=
  if r is LocalCacheRef then local_cache w else global_cache w.

Definition map_cache (r : CacheRef) (f : cache → cache) (w : World S) : World S :=
  if r is LocalCacheRef then map_local_cache f w else map_global_cache f w.

Definition caching_fetch (image_id : string) (fetch_kind : ImageKind) (sizing_id : N)
    : ST (World S) (option bytes) :=
  λ w,
    let key := cache_key (bucket_id ctl) sizing_id image_id fetch_kind in
    let backend := read_cache w in
    match (backend ≫= λ r, cache_of r w) ≫= (λ c, cache_get c key) with
    | Some buffer => (w, Ok (Some buffer))
    | None =>
        match storage_op (sb_fetch (bucket_id ctl) image_id fetch_kind sizing_id) w with
        | (w', Err e) => (w', Err e)
        | (w', Ok maybe_existing) =>
            (match backend, maybe_existing with
             | Some r, Some buffer => map_cache r (cache_insert key buffer) w'
             | _, _ => w'
             end, Ok maybe_existing)
        end
    end.

(** ** [concurrent_upload] (lines 297-340) *)

(** One spawned task: store the entry, then on success insert it into
    the bucket's own cache. *)
Definition upload_task (image_id : string) (e : StoreEntry) : ST (World S) unit :=
  λ w,
    match storage_op (sb_store (bucket_id ctl) image_id (kind e) (sizing_id e) (data e)) w with
    | (w', Ok _) =>
        (map_local_cache (cache_insert (cache_key (bucket_id ctl) (sizing_id e) image_id (kind e))
                                       (data e)) w', Ok tt)
    | (w', Err err) => (w', Err err)
    end.

(** Every task runs to completion; none is cancelled by a sibling. *)
Fixpoint run_tasks (image_id : string) (es : list StoreEntry) (w : World S)
    : World S * list (result unit) :=
  match es with
  | [] => (w, [])
  | e :: es' =>
      let '(w1, r) := upload_task image_id e w in
      let '(w2, rs) := run_tasks image_id es' w1 in
      (w2, r :: rs)
  end.

(** [for task in tasks { task.await??; }]: the first failure in spawn
    order is the result. *)
Fixpoint first_error (rs : list (result unit)) : result unit :=
  match rs with
  | [] => Ok tt
  | Err e :: _ => Err e
  | Ok _ :: rs' => first_error rs'
  end.

Definition concurrent_upload (image_id : string) (to_store : list StoreEntry)
    : ST (World S) (list ImageUploadInfo) :=
  λ w,
    let '(w', rs) := run_tasks image_id to_store w in
    (w', match first_error rs with
         | Err e => Err e
         | Ok _ => Ok (map (λ e, {| upload_sizing_id := sizing_id e |}) to_store)
         end).

(** ** The pipeline hooks, run off the scheduler *)

Definition run_on_upload (kind : ImageKind) (d : bytes) : ST (World S) PipelineResult :=
  λ w, (log_call (CallOnUpload kind) w, on_upload (pipeline ctl) kind d).

Definition run_on_fetch (desired_kind data_kind : ImageKind) (d : bytes) (sizing_id : N)
    (custom_sizing : option (N * N)) : ST (World S) PipelineResult :=
  λ w, (log_call (CallOnFetch desired_kind data_kind sizing_id) w,
        on_fetch (pipeline ctl) desired_kind data_kind d sizing_id custom_sizing).

(** ** [upload] (lines 114-145) *)

Definition upload_body (kind : ImageKind) (d : bytes) : ST (World S) UploadInfo :=
  let checksum := Z.to_N (crc32 d) in
  let image_id := sha256_hash sha256 d in
  result <- run_on_upload kind d ;;
  image_upload_info <- concurrent_upload image_id (to_store result) ;;
  st_ret {| info_image_id := image_id; info_checksum := checksum;
            info_images := image_upload_info; info_bucket_id := bucket_id ctl |}.

Definition upload (kind : ImageKind) (d : bytes) (w : World S) : option (World S * result UploadInfo) :=
  with_permit (upload_body kind d) w.

(** ** [fetch] (lines 147-232) *)

(** The preset name: the argument, else the bucket's default;
    ["original"] and no preset are sizing id 0. *)
Definition resolve_sizing_id (size_preset : option string) : N :=
  let sizing := match size_preset with
                | Some p => Some p
                | None => default_serving_preset (config ctl)
                end in
  match sizing with
  | Some sizing_preset => if String.eqb sizing_preset "original" then 0%N else crc_hash sizing_preset
  | None => 0%N
  end.

Definition is_mode (m : ProcessingMode) : bool := bool_decide (mode (config ctl) = m).

(** After the bytes were found: AOT returns them as they are, the other
    modes hand them to [on_fetch] and persist what it produced. *)
Definition fetch_finish (image_id : string) (desired_kind : ImageKind)
    (custom_sizing : option (N * N)) (sizing_id : N) (d : bytes) (retrieved_kind : ImageKind)
    : ST (World S) (option StoreEntry) :=
  if is_mode Aot then st_ret (Some {| data := d; kind := retrieved_kind; sizing_id := sizing_id |})
  else
    result <- run_on_fetch desired_kind retrieved_kind d sizing_id custom_sizing ;;
    _ <- concurrent_upload image_id (to_store result) ;;
    st_ret (response result).

Definition fetch_body (image_id : string) (desired_kind : ImageKind) (size_preset : option string)
    (custom_sizing : option (N * N)) : ST (World S) (option StoreEntry) :=
  let sizing_id := resolve_sizing_id size_preset in
  let base_kind := original_image_store_format (config ctl) in
  let fetch_kind := if is_mode Realtime then base_kind else desired_kind in
  maybe_existing <- caching_fetch image_id fetch_kind (if is_mode Realtime then 0%N else sizing_id) ;;
  match maybe_existing with
  | None =>
      if is_mode Jit then
        value <- caching_fetch image_id base_kind 0 ;;
        match value with
        | None => st_ret None
        | Some original => fetch_finish image_id desired_kind custom_sizing sizing_id original base_kind
        end
      else st_ret None
  | Some computed => fetch_finish image_id desired_kind custom_sizing sizing_id computed fetch_kind
  end.

Definition fetch (image_id : string) (desired_kind : ImageKind) (size_preset : option string)
    (custom_sizing : option (N * N)) (w : World S) : option (World S * result (option StoreEntry)) :=
  with_permit (fetch_body image_id desired_kind size_preset custom_sizing) w.

(** ** [delete] (lines 234-248) *)

Definition invalidate_all (image_id : string) (purged : list (N * ImageKind)) (c : cache) : cache :=
  fold_left (λ c' '(z, k), cache_invalidate (cache_key (bucket_id ctl) z image_id k) c') purged c.

Definition delete_body (image_id : string) : ST (World S) unit :=
  purged_entities <- storage_op (sb_delete (bucket_id ctl) image_id) ;;
  (λ w, (map_local_cache (invalidate_all image_id purged_entities) w, Ok tt)).

Definition delete (image_id : string) (w : World S) : option (World S * result unit) :=
  with_permit (delete_body image_id) w.

End Controller.

(** [BucketController::new] (lines 90-107): the controller and the part
    of the world it brings, its cache and its limiter
    [config.max_concurrency.map(Semaphore::new)]. *)
Definition controller_new {S P} (bucket_id : N) (c : option cache) (global : option Semaphore)
    (cfg : BucketConfig) (p : P) (st : S) (shared : option cache)
    : BucketController P * World S :=
  ({| bucket_id := bucket_id; config := cfg; pipeline := p |},
   {| storage := st; local_cache := c; global_cache := shared; global_limiter := global;
      limiter := semaphore_new <$> max_concurrency cfg; pipeline_log := [] |}).

(** ** Frame lemmas: which parts of the world an operation leaves alone *)

Section Frame.
Context {S P : Type} `{!StorageBackend S} `{!Pipeline P}.
Context (sha256 : bytes → bytes) (ctl : BucketController P).

Definition limiters (w : World S) : option Semaphore * option Semaphore :=
  (global_limiter w, limiter w).

(** A view of the world that storage calls and cache updates leave alone. *)
Record Footprint {T} (f : World S → T) : Prop := {
  fp_storage st w : f (set_storage st w) = f w;
  fp_local g w : f (map_local_cache g w) = f w;
  fp_global g w : f (map_global_cache g w) = f w;
}.

(** A computation that does not change the view [f]. *)
Definition Keeps {T A} (f : World S → T) (m : ST (World S) A) : Prop := ∀ w, f (m w).1 = f w.

Lemma limiters_footprint : Footprint limiters.
Proof. by split. Qed.

Lemma log_footprint : Footprint pipeline_log.
Proof. by split. Qed.

Context {T : Type} (f : World S → T) (Hf : Footprint f).

Lemma keeps_ret {A} (a : A) : Keeps f (st_ret a).
Proof. done. Qed.

Lemma keeps_bind {A B} (m : ST (World S) A) (k : A → ST (World S) B) :
  Keeps f m → (∀ a, Keeps f (k a)) → Keeps f (st_bind m k).
Proof.
  intros Hm Hk w. unfold st_bind. specialize (Hm w).
  destruct (m w) as [w1 [a|e]]; simpl in *; [rewrite Hk|]; done.
Qed.

Lemma keeps_storage_op {A} (m : ST S A) : Keeps f (storage_op m).
Proof. intros w. unfold storage_op. destruct (m (storage w)). apply Hf. Qed.

Lemma keeps_map_cache r g w : f (map_cache r g w) = f w.
Proof. destruct r; apply Hf. Qed.

Lemma keeps_caching_fetch i k z : Keeps f (caching_fetch ctl i k z).
Proof.
  intros w. unfold caching_fetch.
  destruct ((read_cache w ≫= λ r, cache_of r w) ≫= _); [done|].
  pose proof (keeps_storage_op (sb_fetch (bucket_id ctl) i k z) w) as E.
  destruct (storage_op _ w) as [w' [[v|]|e]]; [destruct (read_cache w) as [r|]..|]; simpl in *;
    rewrite ?keeps_map_cache; exact E.
Qed.

Lemma keeps_upload_task i e : Keeps f (upload_task ctl i e).
Proof.
  intros w. unfold upload_task.
  pose proof (keeps_storage_op (sb_store (bucket_id ctl) i (kind e) (sizing_id e) (data e)) w) as E.
  destruct (storage_op _ w) as [w' [|]]; simpl in *; rewrite ?(fp_local _ Hf); exact E.
Qed.

Lemma run_tasks_keeps i es w : f (run_tasks ctl i es w).1 = f w.
Proof.
  revert w. induction es as [|e es IH]; intros w; simpl; [done|].
  pose proof (keeps_upload_task i e w) as E.
  destruct (upload_task ctl i e w) as [w1 [u|err]]; specialize (IH w1);
    try destruct (run_tasks ctl i es w1); simpl in *; congruence.
Qed.

Lemma keeps_concurrent_upload i es : Keeps f (concurrent_upload ctl i es).
Proof.
  intros w. unfold concurrent_upload. pose proof (run_tasks_keeps i es w) as E.
  by destruct (run_tasks ctl i es w).
Qed.

Lemma keeps_delete_body i : Keeps f (delete_body ctl i).
Proof.
  intros w. unfold delete_body, st_bind. pose proof (keeps_storage_op (sb_delete (bucket_id ctl) i) w) as E.
  destruct (storage_op _ w) as [w' [l|e]]; simpl; repeat rewrite ?(fp_local _ Hf), ?(fp_global _ Hf); exact E.
Qed.
End Frame.

(** The limiters are also untouched by the pipeline calls, so by whole
    operations. *)
Section Limiters.
Context {S P : Type} `{!StorageBackend S} `{!Pipeline P}.
Context (sha256 : bytes → bytes) (ctl : BucketController P).

Lemma keeps_fetch_finish i dk cs z d rk : Keeps (limiters (S:=S)) (fetch_finish ctl i dk cs z d rk).
Proof.
  intros w. unfold fetch_finish. destruct (is_mode ctl Aot); [done|].
  unfold st_bind, run_on_fetch. destruct (on_fetch _ _ _ _ _ _) as [res|e]; simpl; [|done].
  first [done | pose proof (keeps_concurrent_upload ctl limiters limiters_footprint i (to_store res)
                              (log_call (CallOnFetch dk rk z) w)) as E;
                destruct (concurrent_upload _ _ _ _) as [w2 [|]]; exact E].
Qed.

Lemma keeps_fetch_body i dk sp cs : Keeps limiters (fetch_body ctl i dk sp cs).
Proof.
  pose proof (@limiters_footprint S) as Hf.
  unfold fetch_body. apply keeps_bind; [by apply keeps_caching_fetch|]. intros [v|].
  - apply keeps_fetch_finish.
  - destruct (is_mode ctl Jit); [|apply keeps_ret].
    apply keeps_bind; [by apply keeps_caching_fetch|].
    intros [v|]; [apply keeps_fetch_finish|apply keeps_ret].
Qed.

Lemma keeps_upload_body k d : Keeps limiters (upload_body sha256 ctl k d).
Proof.
  unfold upload_body. apply keeps_bind; [done|]. intros r.
  apply keeps_bind; [apply keeps_concurrent_upload, limiters_footprint|]. intros. apply keeps_ret.
Qed.

Lemma with_permit_restores {A} (body : ST (World S) A) w w' r :
  Keeps limiters body → with_permit body w = Some (w', r) → limiters w' = limiters w.
Proof.
  intros Hk. unfold with_permit.
  destruct (get_optional_permit _ _) as [[lr s]|] eqn:Hg.
  2: { intros [= Hb]. rewrite <- (Hk w), Hb. done. }
  destruct (try_acquire s) as [s'| |] eqn:Ha; [|by intros [= <- _]|done].
  pose proof (Hk (set_limiter lr s' w)) as E.
  destruct (body (set_limiter lr s' w)) as [w1 res]. intros [= <- _].
  unfold get_optional_permit, limiters in *. simpl in E.
  destruct lr; simpl in *; injection E as E E'; rewrite ?E, ?E'; simpl;
    destruct (global_limiter w), (limiter w); simplify_eq/=;
    rewrite ?(try_acquire_release _ _ Ha); congruence.
Qed.
End Limiters.

(** ** Properties of the controller *)

(** The fields of a cache key can be read back from it: image ids are
    free text, but bucket and sizing id are decimal numbers without [:]
    and the extension is the last field. *)
Lemma cache_key_fields b z i k b' z' i' k' :
  cache_key b z i k = cache_key b' z' i' k' → b = b' ∧ z = z' ∧ i = i' ∧ k = k'.
Proof.
  unfold cache_key. rewrite !sep_app. intros H.
  apply split_first in H as [Hb H]; auto with lust.
  apply split_first in H as [Hz H]; auto with lust.
  apply split_last in H as [Hi Hk]; try apply as_file_extension_no_sep.
  apply dec_inj in Hb, Hz. apply as_file_extension_inj in Hk. done.
Qed.

(** C19: two cache keys are equal exactly when they name the same
    bucket, sizing id, image id and kind, for any image id, including ids
    that contain [:] themselves. *)
Theorem cache_key_injective b z i k b' z' i' k' :
  cache_key b z i k = cache_key b' z' i' k' ↔ (b, z, i, k) = (b', z', i', k').
Proof.
  split; [|by intros [= -> -> -> ->]].
  intros H. apply cache_key_fields in H as (-> & -> & -> & ->). done.
Qed.

Section Operations.
Context {S P : Type} `{!StorageBackend S} `{!Pipeline P}.
Context (sha256 : bytes → bytes) (ctl : BucketController P).

Lemma with_permit_run {A} (body : ST (World S) A) w w' r :
  with_permit body w = Some (w', r) →
  (r = Err AcquireError ∧ w' = w) ∨
  ∃ w0, data_of w0 = data_of w ∧ data_of w' = data_of (body w0).1 ∧ r = (body w0).2.
Proof.
  unfold with_permit. destruct (get_optional_permit _ _) as [[lr s]|].
  - destruct (try_acquire s) as [s'| |]; [|intros [= <- <-]; by left|done].
    intros H. right. exists (set_limiter lr s' w). split; [done|].
    destruct (body (set_limiter lr s' w)) as [w1 res]. injection H as <- <-. split; [|done].
    by destruct (limiter_of lr w1).
  - intros [= H]. right. exists w. rewrite H. done.
Qed.

Lemma upload_body_eq k d w :
  upload_body sha256 ctl k d w =
  match on_upload (pipeline ctl) k d with
  | Err e => (log_call (CallOnUpload k) w, Err e)
  | Ok res =>
      let '(w2, rs) := run_tasks ctl (sha256_hash sha256 d) (to_store res) (log_call (CallOnUpload k) w) in
      (w2, match first_error rs with
           | Err e => Err e
           | Ok _ => Ok {| info_image_id := sha256_hash sha256 d; info_checksum := Z.to_N (crc32 d);
                           info_images := map (λ e, {| upload_sizing_id := sizing_id e |}) (to_store res);
                           info_bucket_id := bucket_id ctl |}
           end)
  end.
Proof.
  unfold upload_body, st_bind, run_on_upload, concurrent_upload, st_ret. simpl.
  destruct (on_upload _ k d) as [res|e]; [|done].
  destruct (run_tasks _ _ _ _) as [w2 rs]. by destruct (first_error rs).
Qed.

Lemma is_mode_true m : is_mode ctl m = true ↔ mode (config ctl) = m.
Proof. unfold is_mode. apply bool_decide_eq_true. Qed.

Lemma is_mode_other m m' : mode (config ctl) = m → m ≠ m' → is_mode ctl m' = false.
Proof. intros Hm Hne. unfold is_mode. apply bool_decide_eq_false. congruence. Qed.

(** The permit guard returns unless it has to wait: when the chosen
    limiter is closed or has a free permit, the body runs (or the call
    fails with [AcquireError]). *)
Lemma with_permit_some {A} (body : ST (World S) A) w :
  (∀ r s, get_optional_permit (global_limiter w) (limiter w) = Some (r, s) →
          closed s = true ∨ 0 < permits s) →
  is_Some (with_permit body w).
Proof.
  intros Hfree. unfold with_permit.
  destruct (get_optional_permit _ _) as [[r s]|] eqn:Hg; [|by eexists].
  destruct (Hfree r s eq_refl) as [Hc|Hp]; unfold try_acquire.
  - rewrite Hc. by eexists.
  - destruct (closed s); [by eexists|]. destruct (permits s) as [|n]; [lia|].
    destruct (body _) as [w' res]. by eexists.
Qed.

(** A lookup that hits the cache the bucket reads from returns the
    cached bytes and changes nothing. *)
Lemma caching_fetch_hit i k z w r c v :
  read_cache w = Some r → cache_of r w = Some c →
  cache_get c (cache_key (bucket_id ctl) z i k) = Some v →
  caching_fetch ctl i k z w = (w, Ok (Some v)).
Proof. intros Hr Hc Hv. unfold caching_fetch. rewrite Hr. simpl. rewrite Hc. simpl. by rewrite Hv. Qed.

End Operations.

Section Claims.
Context {S P : Type} `{!StorageBackend S} `{!Pipeline P}.
Context (sha256 : bytes → bytes) (ctl : BucketController P).

Lemma data_of_read_cache (w0 w : World S) r :
  data_of w0 = data_of w → read_cache w0 = read_cache w ∧ cache_of r w0 = cache_of r w.
Proof. unfold data_of. intros [= _ Hl Hg _]. unfold read_cache, cache_of. by rewrite Hl, Hg. Qed.

(** C20: every call gives its permit back: after [upload], [fetch] or
    [delete] returns, on success or on failure, both limiters are as
    before the call. *)
Theorem operations_release_permit k d i dk sp cs (w : World S) :
  (∀ w' r, upload sha256 ctl k d w = Some (w', r) → limiters w' = limiters w) ∧
  (∀ w' r, fetch ctl i dk sp cs w = Some (w', r) → limiters w' = limiters w) ∧
  (∀ w' r, delete ctl i w = Some (w', r) → limiters w' = limiters w).
Proof.
  split_and!; intros w' r; apply with_permit_restores.
  - apply keeps_upload_body.
  - apply keeps_fetch_body.
  - apply keeps_delete_body, limiters_footprint.
Qed.

(** C21: a bucket configured with [max_concurrency = Some 0] and no
    global limiter never completes a call: [Semaphore::new(0)] has no
    permit to give. *)
Theorem zero_capacity_blocks bid c cfg (p : P) (st : S) shared k d i dk sp cs :
  max_concurrency cfg = Some 0 →
  let '(ctl0, w) := controller_new bid c None cfg p st shared in
  upload sha256 ctl0 k d w = None ∧ fetch ctl0 i dk sp cs w = None ∧ delete ctl0 i w = None.
Proof. intros H. unfold controller_new, upload, fetch, delete, with_permit. simpl. by rewrite H. Qed.

(** C15: a successful upload returns the hex SHA-256 of the bytes as the
    image id, their CRC-32 as checksum, the bucket's id, and one sizing
    id per entry the upload hook produced, in order; the upload hook ran
    exactly once. *)
Theorem upload_success k d (w w' : World S) info :
  upload sha256 ctl k d w = Some (w', Ok info) →
  info_image_id info = sha256_hash sha256 d ∧ info_checksum info = Z.to_N (crc32 d) ∧
  info_bucket_id info = bucket_id ctl ∧
  ∃ res, on_upload (pipeline ctl) k d = Ok res ∧
         info_images info = map (λ e, {| upload_sizing_id := sizing_id e |}) (to_store res) ∧
         pipeline_log w' = pipeline_log w ++ [CallOnUpload k].
Proof.
  intros H. apply with_permit_run in H as [[? _]|(w0 & Hd & Hd' & Hr)]; [done|].
  rewrite upload_body_eq in Hd', Hr.
  destruct (on_upload _ k d) as [res|e]; [|done].
  pose proof (run_tasks_keeps ctl pipeline_log log_footprint (sha256_hash sha256 d) (to_store res)
                (log_call (CallOnUpload k) w0)) as Hlog.
  destruct (run_tasks _ _ _ _) as [w2 rs]. destruct (first_error rs); [|done].
  injection Hr as ->. simpl in *. split_and!; try done. exists res. split_and!; try done.
  unfold data_of in Hd, Hd'. simplify_eq. congruence.
Qed.

Lemma fetch_body_aot i dk sp cs (w0 : World S) :
  mode (config ctl) = Aot →
  pipeline_log (fetch_body ctl i dk sp cs w0).1 = pipeline_log w0 ∧
  ∀ e, (fetch_body ctl i dk sp cs w0).2 = Ok (Some e) →
       kind e = dk ∧ sizing_id e = resolve_sizing_id ctl sp.
Proof.
  intros Hm. unfold fetch_body, fetch_finish. rewrite (is_mode_other ctl Aot Realtime Hm),
    (is_mode_other ctl Aot Jit Hm), (proj2 (is_mode_true ctl Aot) Hm) by done.
  pose proof (keeps_caching_fetch ctl pipeline_log log_footprint i dk (resolve_sizing_id ctl sp) w0) as Hlog.
  unfold st_bind. destruct (caching_fetch _ _ _ _ _) as [w1 [[v|]|e]]; simpl in *;
    (split; [congruence | intros e' He'; simplify_eq/=; done]).
Qed.

(** C4: in AOT mode [fetch] never runs the pipeline's fetch hook, and
    what it returns carries the requested kind and the resolved sizing
    id. *)
Theorem fetch_aot_no_pipeline i dk sp cs (w w' : World S) r :
  mode (config ctl) = Aot → fetch ctl i dk sp cs w = Some (w', r) →
  pipeline_log w' = pipeline_log w ∧
  ∀ e, r = Ok (Some e) → kind e = dk ∧ sizing_id e = resolve_sizing_id ctl sp.
Proof.
  intros Hm H. apply with_permit_run in H as [[-> ->]|(w0 & Hd & Hd' & ->)]; [done|].
  destruct (fetch_body_aot i dk sp cs w0 Hm) as [Hlog Hres].
  unfold data_of in Hd, Hd'. simplify_eq. split; [congruence | done].
Qed.

Lemma fetch_body_jit_hit i dk sp cs (w0 : World S) rc c v :
  mode (config ctl) = Jit →
  read_cache w0 = Some rc → cache_of rc w0 = Some c →
  cache_get c (cache_key (bucket_id ctl) (resolve_sizing_id ctl sp) i dk) = Some v →
  pipeline_log (fetch_body ctl i dk sp cs w0).1 =
  pipeline_log w0 ++ [CallOnFetch dk dk (resolve_sizing_id ctl sp)].
Proof.
  intros Hm Hr Hc Hv.
  unfold fetch_body. rewrite (is_mode_other ctl Jit Realtime Hm) by done.
  unfold st_bind at 1. rewrite (caching_fetch_hit ctl i dk _ w0 rc c v Hr Hc Hv).
  unfold fetch_finish. rewrite (is_mode_other ctl Jit Aot Hm) by done.
  unfold st_bind, run_on_fetch. destruct (on_fetch _ _ _ _ _ _) as [res|e]; simpl; [|done].
  pose proof (keeps_concurrent_upload ctl pipeline_log log_footprint i (to_store res)
                (log_call (CallOnFetch dk dk (resolve_sizing_id ctl sp)) w0)) as Hlog.
  destruct (concurrent_upload _ _ _ _) as [w2 [|]]; simpl in *; done.
Qed.

(** C2: in JIT mode a fetch whose variant the cache already holds still
    runs the fetch hook once, on the cached bytes, so a variant derived
    once is derived again at every later fetch. *)
Theorem fetch_jit_hit_reinvokes i dk sp cs (w w' : World S) r rc c v :
  mode (config ctl) = Jit →
  read_cache w = Some rc → cache_of rc w = Some c →
  cache_get c (cache_key (bucket_id ctl) (resolve_sizing_id ctl sp) i dk) = Some v →
  fetch ctl i dk sp cs w = Some (w', r) →
  r = Err AcquireError ∨
  pipeline_log w' = pipeline_log w ++ [CallOnFetch dk dk (resolve_sizing_id ctl sp)].
Proof.
  intros Hm Hr Hc Hv H. apply with_permit_run in H as [[-> _]|(w0 & Hd & Hd' & _)]; [by left|right].
  destruct (data_of_read_cache w0 w rc Hd) as [Hr0 Hc0]. rewrite <- Hr0 in Hr. rewrite <- Hc0 in Hc.
  pose proof (fetch_body_jit_hit i dk sp cs w0 rc c v Hm Hr Hc Hv) as Hlog.
  unfold data_of in Hd, Hd'. simplify_eq. congruence.
Qed.
(** C16: a failing upload hook leaves no partial state.  When
    [on_upload] fails, [upload] returns its error (or [AcquireError] on a
    closed limiter) and leaves storage, both caches and the limiters as
    they were: nothing is stored and nothing is cached. *)
Theorem upload_pipeline_error k d e (w w' : World S) r :
  on_upload (pipeline ctl) k d = Err e → upload sha256 ctl k d w = Some (w', r) →
  (r = Err e ∨ r = Err AcquireError) ∧ storage w' = storage w ∧
  local_cache w' = local_cache w ∧ global_cache w' = global_cache w ∧ limiters w' = limiters w.
Proof.
  intros He H. pose proof (with_permit_restores _ w w' r (keeps_upload_body sha256 ctl k d) H) as Hl.
  apply with_permit_run in H as [[-> ->]|(w0 & Hd & Hd' & Hr)]; [by split_and!; [right|..]|].
  rewrite upload_body_eq, He in Hd', Hr. subst r.
  unfold data_of in Hd, Hd'. simpl in Hd'. simplify_eq. split_and!; [by left|congruence..|unfold limiters; congruence].
Qed.
End Claims.
