(* ===== verification/FanOut.v ===== *)
(** * FanOut: the order of the tasks of [concurrent_upload]

    [concurrent_upload] ([src/controller.rs] lines 297-340) spawns one
    [tokio] task per entry and awaits them all; nothing orders the tasks
    among themselves.  The model of [Controller] runs them in spawn order.
    This file shows that the choice is immaterial for a backend whose
    writes of different variants commute ([StoreCommutes], met by the
    reference backend and by the cloud backend): running the tasks in any
    order of entries with distinct (kind, sizing id) ends in the same
    world, storage and bucket cache alike, and each task has the same
    result. *)

From S2P Require Import Prelude Config Utils Pipeline Storage Cache Admission Controller.
Open Scope lust_scope.

(** The variant a store entry writes, for distinctness hypotheses. *)
Definition entry_key (e : StoreEntry) : ImageKind * N := (kind e, sizing_id e).

Section FanOut.
Context {S P : Type} `{!StorageBackend S} `{!StoreCommutes S} `{!Pipeline P}.
Context (ctl : BucketController P).

(** The cache update a task makes after its write returned [r]. *)
Definition task_cache_update (i : string) (e : StoreEntry) (r : result unit) : cache → cache :=
  if r is Ok _ then cache_insert (cache_key (bucket_id ctl) (sizing_id e) i (kind e)) (data e)
  else id.

Lemma upload_task_eq i e (w : World S) :
  upload_task ctl i e w =
  (map_local_cache (task_cache_update i e (sb_store (bucket_id ctl) i (kind e) (sizing_id e) (data e)
                                              (storage w)).2)
     (set_storage (sb_store (bucket_id ctl) i (kind e) (sizing_id e) (data e) (storage w)).1 w),
   (sb_store (bucket_id ctl) i (kind e) (sizing_id e) (data e) (storage w)).2).
Proof.
  unfold upload_task, storage_op.
  destruct (sb_store _ _ _ _ _ _) as [st' [[]|err]]; simpl; [done|].
  destruct w as [? [c|] ? ? ? ?]; done.
Qed.

Lemma world_store_local f g s s' (w : World S) :
  map_local_cache f (set_storage s (map_local_cache g (set_storage s' w))) =
  map_local_cache (f ∘ g) (set_storage s w).
Proof. destruct w as [? [c|] ? ? ? ?]; done. Qed.

Lemma map_local_cache_ext f g (w : World S) :
  (∀ c, f c = g c) → map_local_cache f w = map_local_cache g w.
Proof. intros Hfg. destruct w as [? [c|] ? ? ? ?]; unfold map_local_cache; simpl; by rewrite ?Hfg. Qed.

Lemma task_cache_update_comm i e e' r r' c :
  entry_key e ≠ entry_key e' →
  task_cache_update i e' r' (task_cache_update i e r c) =
  task_cache_update i e r (task_cache_update i e' r' c).
Proof.
  intros Hne. destruct r, r'; simpl; try done. unfold cache_insert. apply insert_insert_ne.
  intros Hk. apply cache_key_fields in Hk as (_ & Hz & _ & Hk). apply Hne. unfold entry_key. congruence.
Qed.

(** Two tasks for different variants commute, and neither one's result
    depends on the other having run. *)
Lemma upload_task_comm i e e' (w : World S) :
  entry_key e ≠ entry_key e' →
  (upload_task ctl i e' (upload_task ctl i e w).1).1 = (upload_task ctl i e (upload_task ctl i e' w).1).1 ∧
  (upload_task ctl i e' (upload_task ctl i e w).1).2 = (upload_task ctl i e' w).2.
Proof.
  intros Hne. rewrite !upload_task_eq. simpl.
  assert ((kind e, sizing_id e) ≠ (kind e', sizing_id e')) as Hkz by done.
  assert ((kind e', sizing_id e') ≠ (kind e, sizing_id e)) as Hkz' by naive_solver.
  destruct (sb_store_comm (bucket_id ctl) i _ _ (data e) _ _ (data e') (storage w) Hkz) as [Hs Hr].
  destruct (sb_store_comm (bucket_id ctl) i _ _ (data e') _ _ (data e) (storage w) Hkz') as [_ Hr'].
  rewrite Hr, Hr', Hs, !world_store_local. split; [|done].
  apply map_local_cache_ext. intros c. by apply task_cache_update_comm.
Qed.

(** C22: the tasks of the fan-out may run in any order.  For entries
    with distinct (kind, sizing id), running them in the order of any
    permutation of the entries ends in the same world, storage and
    bucket cache alike, and every entry's task has the same result. *)
Theorem fan_out_order_independent i es es' (w : World S) :
  es ≡ₚ es' → NoDup (map entry_key es) →
  (run_tasks ctl i es w).1 = (run_tasks ctl i es' w).1 ∧
  zip es (run_tasks ctl i es w).2 ≡ₚ zip es' (run_tasks ctl i es' w).2.
Proof.
  intros Hp. revert w.
  induction Hp as [|x l1 l2 Hp IH|x y l|l1 l2 l3 H12 IH12 H23 IH23]; intros w Hnd.
  - done.
  - cbn [run_tasks]. apply NoDup_cons in Hnd as [_ Hnd].
    destruct (upload_task ctl i x w) as [w1 r].
    destruct (IH w1 Hnd) as [Hw Hz].
    destruct (run_tasks ctl i l1 w1), (run_tasks ctl i l2 w1). simpl in *. split; [done|].
    by apply perm_skip.
  - cbn [run_tasks]. cbn [map] in Hnd.
    apply NoDup_cons in Hnd as [Hy Hnd]. apply NoDup_cons in Hnd as [_ _].
    assert (entry_key y ≠ entry_key x) as Hyx by (intros E; apply Hy; rewrite E; left).
    pose proof (upload_task_comm i y x w Hyx) as [Hw Hrx].
    pose proof (upload_task_comm i x y w (not_eq_sym Hyx)) as [_ Hry].
    destruct (upload_task ctl i y w) as [wy ry] eqn:Ey, (upload_task ctl i x w) as [wx rx] eqn:Ex.
    simpl in *. destruct (upload_task ctl i x wy) as [wyx rx'] eqn:Eyx,
      (upload_task ctl i y wx) as [wxy ry'] eqn:Exy. simpl in *. subst.
    destruct (run_tasks ctl i l wxy). simpl. split; [done|]. apply perm_swap.
  - assert (NoDup (map entry_key l2)) as Hnd2 by (by rewrite <- H12).
    destruct (IH12 w Hnd) as [Hw1 Hz1], (IH23 w Hnd2) as [Hw2 Hz2].
    split; [congruence|]. by rewrite Hz1.
Qed.

End FanOut.
