(* ===== verification/Coherence.v ===== *)
(** * Coherence: the cache agrees with storage

    For a backend that meets [StorageContract], [coherent ctl w] says
    that every entry of the cache the bucket reads from ([read_cache])
    holds, under its key [cache_key b z i k], exactly what storage holds
    for [(b, i, k, z)].  This is the invariant that makes the cache-aside
    read of [caching_fetch] return what storage would.  The file shows:
    - [caching_fetch] returns storage's bytes (or a storage error) and
      keeps the invariant;
    - the fan-out of [concurrent_upload] runs every task whatever its
      siblings do, and each task that succeeded leaves its entry in storage
      and in the bucket's cache;
    - [upload], [fetch] and a successful [delete] keep the invariant when
      the bucket has a cache of its own, and so do cache evictions;
    - the mode-specific results of [fetch] (AOT, JIT, Realtime). *)

From S2P Require Import Prelude Config Utils Pipeline Storage Cache Admission Controller FanOut.
Open Scope lust_scope.

Section Coherence.
Context {S P : Type} `{!StorageBackend S} `{!StorageContract S} `{!Pipeline P}.
Context (sha256 : bytes → bytes) (ctl : BucketController P).

Definition coherent_cache (b : N) (st : S) (c : cache) : Prop :=
  ∀ z i k v, cache_get c (cache_key b z i k) = Some v → contents st (b, i, k, z) = Some v.

Definition coherent (w : World S) : Prop :=
  ∀ r c, read_cache w = Some r → cache_of r w = Some c →
         coherent_cache (bucket_id ctl) (storage w) c.

(** What the bucket's own cache holds under a key. *)
Definition local_get (w : World S) (key : string) : option bytes :=
  local_cache w ≫= λ c, cache_get c key.

(** A computation that keeps the bucket's own cache and the invariant. *)
Definition Preserves {A} (m : ST (World S) A) : Prop :=
  ∀ w, is_Some (local_cache w) → coherent w →
       is_Some (local_cache (m w).1) ∧ coherent (m w).1.

(** ** Caches *)

Lemma coherent_cache_sub b st (c c' : cache) :
  c' ⊆ c → coherent_cache b st c → coherent_cache b st c'.
Proof.
  intros Hsub Hc z i k v Hv. apply Hc. unfold cache_get in *.
  by eapply lookup_weaken.
Qed.

Lemma coherent_cache_insert b st c z i k v :
  contents st (b, i, k, z) = Some v → coherent_cache b st c →
  coherent_cache b st (cache_insert (cache_key b z i k) v c).
Proof.
  intros Hv Hc z' i' k' v'. rewrite cache_get_insert. case_decide as E.
  - apply cache_key_fields in E as (_ & <- & <- & <-). by intros [= <-].
  - apply Hc.
Qed.

Lemma coherent_cache_store b st st' c z i k d :
  (∀ key, contents st' key = if decide (key = (b, i, k, z)) then Some d else contents st key) →
  coherent_cache b st c → coherent_cache b st' (cache_insert (cache_key b z i k) d c).
Proof.
  intros Hst Hc z' i' k' v'. rewrite Hst, cache_get_insert. case_decide as E.
  - apply cache_key_fields in E as (_ & <- & <- & <-). rewrite decide_True by done. by intros [= <-].
  - intros Hv. rewrite decide_False; [by apply Hc|]. intros [= -> -> ->]. done.
Qed.

Lemma coherent_cache_same b st st' c :
  (∀ key, contents st' key = contents st key) → coherent_cache b st c → coherent_cache b st' c.
Proof. intros Hst Hc z i k v Hv. rewrite Hst. by apply Hc. Qed.

Lemma invalidate_all_sub i l (c : cache) : invalidate_all ctl i l c ⊆ c.
Proof.
  unfold invalidate_all. revert c. induction l as [|[z k] l IH]; intros c; simpl; [done|].
  etrans; [apply IH|]. apply cache_invalidate_subseteq.
Qed.

Lemma invalidate_all_removes i l (c : cache) z k :
  (z, k) ∈ l → cache_get (invalidate_all ctl i l c) (cache_key (bucket_id ctl) z i k) = None.
Proof.
  intros Hin. destruct (cache_get (invalidate_all ctl i l c) _) as [v|] eqn:E; [|done].
  exfalso. revert c E. unfold invalidate_all.
  induction l as [|[z' k'] l IH]; intros c E; [set_solver|]. simpl in E.
  apply elem_of_cons in Hin as [[= <- <-]|Hin]; [|by eapply IH].
  pose proof (invalidate_all_sub i l (cache_invalidate (cache_key (bucket_id ctl) z i k) c)) as Hs.
  unfold invalidate_all in Hs. unfold cache_get in E.
  eapply lookup_weaken in E; [|exact Hs].
  unfold cache_invalidate in E. by rewrite lookup_delete_eq in E.
Qed.


(** ** The world *)

Lemma set_storage_same (w : World S) : set_storage (storage w) w = w.
Proof. by destruct w. Qed.

Lemma read_cache_map r f (w : World S) : read_cache (map_cache r f w) = read_cache w.
Proof.
  destruct r; unfold read_cache; simpl;
    destruct (local_cache w), (global_cache w); done.
Qed.

Lemma cache_of_map r f (w : World S) : cache_of r (map_cache r f w) = f <$> cache_of r w.
Proof. by destruct r. Qed.

Lemma storage_map_cache r f (w : World S) : storage (map_cache r f w) = storage w.
Proof. by destruct r. Qed.

Lemma storage_op_fetch b i k z (w : World S) :
  ∃ res, storage_op (sb_fetch b i k z) w = (w, res) ∧
         (res = Ok (contents (storage w) (b, i, k, z)) ∨ ∃ e, res = Err e).
Proof.
  destruct (sb_fetch_spec b i k z (storage w)) as [H1 H2]. unfold storage_op.
  destruct (sb_fetch b i k z (storage w)) as [st' res]. simpl in *. subst st'.
  exists res. by rewrite set_storage_same.
Qed.

(** The cache-aside read returns what storage holds for the key (or the
    storage error) and leaves storage as it was and the cache coherent. *)
Lemma caching_fetch_sound i k z (w w' : World S) r :
  coherent w → caching_fetch ctl i k z w = (w', r) →
  coherent w' ∧ storage w' = storage w ∧
  (r = Ok (contents (storage w) (bucket_id ctl, i, k, z)) ∨ ∃ e, r = Err e).
Proof.
  intros Hcoh H. unfold caching_fetch in H.
  destruct (storage_op_fetch (bucket_id ctl) i k z w) as (res & Ef & Hres).
  destruct (read_cache w) as [rc|] eqn:Hrc; simpl in H;
    [destruct (cache_of rc w) as [c|] eqn:Hc; simpl in H;
     [destruct (cache_get c _) as [v|] eqn:Hv|]|].
  - injection H as <- <-. split_and!; [done|done|]. left. f_equal. symmetry.
    by apply (Hcoh rc c).
  - rewrite Ef in H. destruct res as [[v|]|e]; injection H as <- <-; split_and!; try done.
    intros r' c' Hr' Hc'. rewrite read_cache_map, Hrc in Hr'. injection Hr' as <-.
    rewrite cache_of_map, Hc in Hc'. injection Hc' as <-. rewrite storage_map_cache.
    destruct Hres as [[= Hv']|[? ?]]; [|done].
    apply coherent_cache_insert; [done | by apply (Hcoh rc c)].
    apply storage_map_cache.
  - rewrite Ef in H. destruct res as [[v|]|e]; injection H as <- <-; split_and!; try done;
      try apply storage_map_cache.
    intros r' c' Hr' Hc'. rewrite read_cache_map, Hrc in Hr'. injection Hr' as <-.
    by rewrite cache_of_map, Hc in Hc'.
  - rewrite Ef in H. destruct res as [[v|]|e]; injection H as <- <-; split_and!; done.
Qed.

Lemma read_cache_some (w : World S) rc : read_cache w = Some rc → is_Some (cache_of rc w).
Proof.
  unfold read_cache. destruct (local_cache w) eqn:El; [intros [= <-]; simpl; by rewrite El|].
  destruct (global_cache w) eqn:Eg; intros [= <-]; simpl; by rewrite Eg.
Qed.

(** C10: the cache-aside read ([caching_fetch]) on a coherent world
    returns exactly what storage holds for the key, never stale bytes, or
    the storage error; it leaves storage as it was and the cache
    coherent; and when it returns bytes, the cache the bucket reads from
    holds them under the key afterwards (a hit kept them, a miss that
    found them in storage inserted them). *)
Theorem caching_fetch_correct i k z (w w' : World S) r :
  coherent w → caching_fetch ctl i k z w = (w', r) →
  coherent w' ∧ storage w' = storage w ∧
  (r = Ok (contents (storage w) (bucket_id ctl, i, k, z)) ∨ ∃ e, r = Err e) ∧
  ∀ rc v, read_cache w = Some rc → r = Ok (Some v) →
    (cache_of rc w' ≫= λ c, cache_get c (cache_key (bucket_id ctl) z i k)) = Some v.
Proof.
  intros Hc H. destruct (caching_fetch_sound i k z w w' r Hc H) as (H1 & H2 & H3).
  split_and!; [done..|]. intros rc v Hrc ->.
  destruct (read_cache_some w rc Hrc) as [c Hco].
  unfold caching_fetch in H. rewrite Hrc in H. simpl in H. rewrite Hco in H. simpl in H.
  destruct (cache_get c _) as [v'|] eqn:Hv; [injection H as <- <-; by rewrite Hco|].
  destruct (storage_op_fetch (bucket_id ctl) i k z w) as (res & Ef & _).
  rewrite Ef in H. destruct res as [[v1|]|e]; injection H as <- Hr; simplify_eq/=.
  rewrite cache_of_map, Hco. simpl. rewrite cache_get_insert. by rewrite decide_True.
Qed.

Lemma storage_op_store b i k z d (w : World S) :
  (∃ st', storage_op (sb_store b i k z d) w = (set_storage st' w, Ok tt) ∧
          ∀ key, contents st' key =
                 if decide (key = (b, i, k, z)) then Some d else contents (storage w) key) ∨
  (∃ e, storage_op (sb_store b i k z d) w = (w, Err e)).
Proof.
  unfold storage_op. destruct (sb_store_spec b i k z d (storage w)) as [[Hok Hst]|[e He]].
  - left. exists (sb_store b i k z d (storage w)).1.
    destruct (sb_store b i k z d (storage w)) as [st' r]. simpl in *. by subst.
  - right. exists e. rewrite He. by rewrite set_storage_same.
Qed.

Lemma upload_task_spec i e (w : World S) :
  (∃ st', upload_task ctl i e w =
          (map_local_cache (cache_insert (cache_key (bucket_id ctl) (sizing_id e) i (kind e)) (data e))
                           (set_storage st' w), Ok tt) ∧
          ∀ key, contents st' key =
                 if decide (key = (bucket_id ctl, i, kind e, sizing_id e)) then Some (data e)
                 else contents (storage w) key) ∨
  (∃ err, upload_task ctl i e w = (w, Err err)).
Proof.
  unfold upload_task.
  destruct (storage_op_store (bucket_id ctl) i (kind e) (sizing_id e) (data e) w)
    as [(st' & -> & Hst)|(err & ->)]; [left|right]; eauto.
Qed.

Lemma local_get_insert (w : World S) key key' v :
  local_get (map_local_cache (cache_insert key v) w) key' =
  match local_cache w with
  | Some _ => if decide (key = key') then Some v else local_get w key'
  | None => None
  end.
Proof.
  unfold local_get. simpl. destruct (local_cache w) as [c|]; simpl; [|done].
  rewrite cache_get_insert. by case_decide.
Qed.

(** Tasks for other keys leave a key's storage object and cache entry alone. *)
Lemma run_tasks_frame i es (w : World S) k z :
  (k, z) ∉ map entry_key es →
  let w' := (run_tasks ctl i es w).1 in
  contents (storage w') (bucket_id ctl, i, k, z) = contents (storage w) (bucket_id ctl, i, k, z) ∧
  local_get w' (cache_key (bucket_id ctl) z i k) = local_get w (cache_key (bucket_id ctl) z i k) ∧
  (is_Some (local_cache w') ↔ is_Some (local_cache w)).
Proof.
  revert w. induction es as [|e es IH]; intros w Hnin; simpl; [done|].
  apply not_elem_of_cons in Hnin as [Hne Hnin].
  destruct (upload_task ctl i e w) as [w1 r] eqn:Ht.
  specialize (IH w1 Hnin). destruct (run_tasks ctl i es w1) as [w2 rs]. simpl in *.
  destruct IH as (H1 & H2 & H3). rewrite H1, H2, H3.
  destruct (upload_task_spec i e w) as [(st' & He & Hst)|(err & He)]; rewrite Ht in He;
    inversion He; subst; clear He; [|done].
  simpl. rewrite Hst, local_get_insert. unfold entry_key in Hne.
  rewrite decide_False by (intros [= ? ?]; congruence).
  unfold local_get. simpl. destruct (local_cache w); simpl; [|naive_solver].
  rewrite decide_False; [naive_solver|].
  intros Hk. apply cache_key_fields in Hk as (_ & ? & _ & ?). congruence.
Qed.

Lemma upload_task_local_some i e (w : World S) :
  is_Some (local_cache (upload_task ctl i e w).1) ↔ is_Some (local_cache w).
Proof.
  destruct (upload_task_spec i e w) as [(st' & -> & _)|(err & ->)]; simpl; [|done].
  destruct (local_cache w); simpl; split; intros [? ?]; eauto; discriminate.
Qed.

(** What the tasks that succeeded leave in storage and in the bucket cache. *)
Lemma run_tasks_stored i es (w w' : World S) rs :
  NoDup (map entry_key es) → run_tasks ctl i es w = (w', rs) →
  length rs = length es ∧
  ∀ j e, es !! j = Some e → rs !! j = Some (Ok tt) →
    contents (storage w') (bucket_id ctl, i, kind e, sizing_id e) = Some (data e) ∧
    (is_Some (local_cache w) →
     local_get w' (cache_key (bucket_id ctl) (sizing_id e) i (kind e)) = Some (data e)).
Proof.
  revert w w' rs. induction es as [|e0 es IH]; intros w w' rs Hnd H; simpl in H.
  { injection H as <- <-. split; [done|]. by intros j e. }
  apply NoDup_cons in Hnd as [Hnin Hnd].
  destruct (upload_task ctl i e0 w) as [w1 r] eqn:Ht.
  destruct (run_tasks ctl i es w1) as [w2 rs'] eqn:Er. injection H as <- <-.
  destruct (IH w1 w2 rs' Hnd Er) as [Hlen IHj]. split; [simpl; by rewrite Hlen|].
  intros [|j] e He Hr; simpl in He, Hr.
  2: { destruct (IHj j e He Hr) as [A B]. split; [done|]. intros Hs. apply B.
       pose proof (upload_task_local_some i e0 w) as Hl. rewrite Ht in Hl. by apply Hl. }
  injection He as <-. injection Hr as ->.
  pose proof (run_tasks_frame i es w1 (kind e0) (sizing_id e0) Hnin) as Hf.
  rewrite Er in Hf. simpl in Hf. destruct Hf as (H1 & H2 & H3). rewrite H1, H2.
  destruct (upload_task_spec i e0 w) as [(st' & He & Hst)|(err & He)]; rewrite Ht in He;
    [|discriminate]. injection He as ->. simpl.
  rewrite Hst, decide_True by done. split; [done|].
  intros [c Hc]. rewrite local_get_insert. simpl. rewrite Hc. by rewrite decide_True.
Qed.

(** C14: the fan-out cancels nothing.  Every task produces a result, and
    every task that succeeded has its entry in storage and in the
    bucket's cache afterwards, even when a sibling failed and the call
    as a whole reports that failure. *)
Theorem fan_out_no_cancellation i es (w w' : World S) rs :
  NoDup (map entry_key es) → run_tasks ctl i es w = (w', rs) →
  length rs = length es ∧
  ∀ j e, es !! j = Some e → rs !! j = Some (Ok tt) →
    contents (storage w') (bucket_id ctl, i, kind e, sizing_id e) = Some (data e) ∧
    (is_Some (local_cache w) →
     local_get w' (cache_key (bucket_id ctl) (sizing_id e) i (kind e)) = Some (data e)).
Proof. apply run_tasks_stored. Qed.

(** ** Preservation of the invariant *)

Lemma coherent_local (w : World S) c :
  local_cache w = Some c → coherent w ↔ coherent_cache (bucket_id ctl) (storage w) c.
Proof.
  intros Hc. unfold coherent, read_cache. rewrite Hc. split.
  - intros H. by apply (H LocalCacheRef).
  - by intros H r c' [= <-]; simpl; rewrite Hc; intros [= <-].
Qed.

Lemma coherent_same (w w' : World S) :
  storage w = storage w' → local_cache w = local_cache w' → global_cache w = global_cache w' →
  coherent w → coherent w'.
Proof. unfold coherent, read_cache, cache_of. intros Hs Hl Hg. by rewrite Hs, Hl, Hg. Qed.

Lemma coherent_data (w w' : World S) : data_of w = data_of w' → coherent w → coherent w'.
Proof. unfold data_of. intros [= Hs Hl Hg _]. by apply coherent_same. Qed.

Lemma preserves_ret {A} (a : A) : Preserves (st_ret a).
Proof. done. Qed.

Lemma preserves_bind {A B} (m : ST (World S) A) (k : A → ST (World S) B) :
  Preserves m → (∀ a, Preserves (k a)) → Preserves (st_bind m k).
Proof.
  intros Hm Hk w Hs Hc. unfold st_bind. destruct (Hm w Hs Hc) as [Hs1 Hc1].
  destruct (m w) as [w1 [a|e]]; simpl in *; [apply Hk|]; done.
Qed.

Lemma preserves_caching_fetch i k z : Preserves (caching_fetch ctl i k z).
Proof.
  intros w Hs Hc. destruct (caching_fetch ctl i k z w) as [w' r] eqn:E.
  destruct (caching_fetch_sound i k z w w' r Hc E) as [Hc' _]. split; [|done].
  pose proof (keeps_caching_fetch ctl (λ w : World S, if local_cache w is Some _ then true else false))
    as Hk.
  assert (Footprint (λ w : World S, if local_cache w is Some _ then true else false)) as Hf.
  { split; [done| |done]. intros g w0. simpl. by destruct (local_cache w0). }
  specialize (Hk Hf i k z w). rewrite E in Hk. simpl in Hk.
  destruct Hs as [c Hc0]. rewrite Hc0 in Hk. simpl. destruct (local_cache w'); [by eexists|discriminate Hk].
Qed.

Lemma preserves_upload_task i e : Preserves (upload_task ctl i e).
Proof.
  intros w [c Hc] Hcoh. destruct (upload_task_spec i e w) as [(st' & -> & Hst)|(err & ->)];
    simpl; [|split; [eauto|done]].
  split; [rewrite Hc; by eexists|].
  apply (coherent_local _ (cache_insert (cache_key (bucket_id ctl) (sizing_id e) i (kind e)) (data e) c)).
  { simpl. by rewrite Hc. }
  apply (coherent_local _ _ Hc) in Hcoh. simpl. by apply coherent_cache_store with (st := storage w).
Qed.

Lemma run_tasks_preserves i es (w : World S) :
  is_Some (local_cache w) → coherent w →
  is_Some (local_cache (run_tasks ctl i es w).1) ∧ coherent (run_tasks ctl i es w).1.
Proof.
  revert w. induction es as [|e es IH]; intros w Hs Hc; simpl; [done|].
  destruct (preserves_upload_task i e w Hs Hc) as [Hs1 Hc1].
  destruct (upload_task ctl i e w) as [w1 r]. specialize (IH w1 Hs1 Hc1).
  by destruct (run_tasks ctl i es w1).
Qed.

Lemma preserves_concurrent_upload i es : Preserves (concurrent_upload ctl i es).
Proof.
  intros w Hs Hc. unfold concurrent_upload. pose proof (run_tasks_preserves i es w Hs Hc) as H.
  by destruct (run_tasks ctl i es w).
Qed.

Lemma preserves_fetch_finish i dk cs z d rk : Preserves (fetch_finish ctl i dk cs z d rk).
Proof.
  unfold fetch_finish. destruct (is_mode ctl Aot); [apply preserves_ret|].
  apply preserves_bind.
  - intros w Hs Hc. unfold run_on_fetch. simpl. split; [done|]. by apply (coherent_same w).
  - intros r. first [apply preserves_ret
                    | apply preserves_bind; [apply preserves_concurrent_upload|]; intros _; apply preserves_ret].
Qed.

Lemma preserves_fetch_body i dk sp cs : Preserves (fetch_body ctl i dk sp cs).
Proof.
  unfold fetch_body. apply preserves_bind; [apply preserves_caching_fetch|]. intros [v|].
  - apply preserves_fetch_finish.
  - destruct (is_mode ctl Jit); [|apply preserves_ret].
    apply preserves_bind; [apply preserves_caching_fetch|].
    intros [v|]; [apply preserves_fetch_finish|apply preserves_ret].
Qed.

Lemma preserves_upload_body k d : Preserves (upload_body sha256 ctl k d).
Proof.
  unfold upload_body. apply preserves_bind.
  - intros w Hs Hc. unfold run_on_upload. simpl. split; [done|]. by apply (coherent_same w).
  - intros r. apply preserves_bind; [apply preserves_concurrent_upload|]. intros. apply preserves_ret.
Qed.

Lemma delete_body_coherent i (w w' : World S) :
  is_Some (local_cache w) → coherent w → delete_body ctl i w = (w', Ok tt) → coherent w'.
Proof.
  intros [c Hc] Hcoh. unfold delete_body, st_bind, storage_op.
  destruct (sb_delete (bucket_id ctl) i (storage w)) as [st' [l|e]] eqn:Ed; [|done].
  intros [= <-]. apply sb_delete_ok in Ed as [Hrep Hst].
  apply (coherent_local _ _ Hc) in Hcoh.
  apply (coherent_local _ (invalidate_all ctl i l c)); [simpl; by rewrite Hc|]. simpl.
  intros z i' k v Hv. rewrite Hst. simpl.
  assert (contents (storage w) (bucket_id ctl, i', k, z) = Some v) as Hold.
  { apply Hcoh. unfold cache_get in *. eapply lookup_weaken; [exact Hv|]. apply invalidate_all_sub. }
  case_decide as Hi; [|done]. injection Hi as ->.
  rewrite (invalidate_all_removes i l c z k) in Hv; [done|]. apply Hrep. by rewrite Hold.
Qed.

Lemma coherent_transfer (w w0 : World S) :
  data_of w0 = data_of w → is_Some (local_cache w) → coherent w →
  is_Some (local_cache w0) ∧ coherent w0.
Proof.
  intros Hd Hs Hc. split; [|apply (coherent_data w); [done|done]].
  unfold data_of in Hd. injection Hd as _ Hl _ _. by rewrite Hl.
Qed.

(** C7: when the bucket has a cache of its own, [upload], [fetch] and a
    successful [delete] keep the cache coherent with storage. *)
Theorem operations_preserve_coherence (w : World S) k d i dk sp cs :
  is_Some (local_cache w) → coherent w →
  (∀ w' r, upload sha256 ctl k d w = Some (w', r) → coherent w') ∧
  (∀ w' r, fetch ctl i dk sp cs w = Some (w', r) → coherent w') ∧
  (∀ w', delete ctl i w = Some (w', Ok tt) → coherent w').
Proof.
  intros Hs Hc. split_and!.
  - intros w' r H. apply with_permit_run in H as [[_ ->]|(w0 & Hd & Hd' & _)]; [done|].
    destruct (coherent_transfer w w0 Hd Hs Hc) as [Hs0 Hc0].
    apply (coherent_data (upload_body sha256 ctl k d w0).1); [by rewrite Hd'|].
    by apply preserves_upload_body.
  - intros w' r H. apply with_permit_run in H as [[_ ->]|(w0 & Hd & Hd' & _)]; [done|].
    destruct (coherent_transfer w w0 Hd Hs Hc) as [Hs0 Hc0].
    apply (coherent_data (fetch_body ctl i dk sp cs w0).1); [by rewrite Hd'|].
    by apply preserves_fetch_body.
  - intros w' H. apply with_permit_run in H as [[? _]|(w0 & Hd & Hd' & Hr)]; [done|].
    destruct (coherent_transfer w w0 Hd Hs Hc) as [Hs0 Hc0].
    apply (coherent_data (delete_body ctl i w0).1); [by rewrite Hd'|].
    apply (delete_body_coherent i w0); [done|done|].
    destruct (delete_body ctl i w0) as [w1 r1]. simpl in *. by subst.
Qed.

(** Eviction keeps the invariant: a cache that forgot entries is still
    coherent. *)
Lemma coherent_evict (w : World S) key :
  coherent w → coherent (map_local_cache (cache_evict key) (map_global_cache (cache_evict key) w)).
Proof.
  intros Hc r c Hr Hc'. unfold read_cache in Hr; simpl in Hr.
  destruct r; simpl in Hc'.
  - destruct (local_cache w) as [c0|] eqn:El; simplify_eq/=.
    apply (coherent_cache_sub _ _ c0); [apply delete_subseteq|].
    apply (Hc LocalCacheRef); [unfold read_cache; by rewrite El|done].
  - destruct (local_cache w) eqn:El; simpl in Hr; [done|].
    destruct (global_cache w) as [c0|] eqn:Eg; simplify_eq/=.
    apply (coherent_cache_sub _ _ c0); [apply delete_subseteq|].
    apply (Hc GlobalCacheRef); [unfold read_cache; by rewrite El, Eg|done].
Qed.

(** ** What [fetch] returns, per mode *)

Lemma caching_fetch_step i k z (w0 w1 : World S) r1 :
  coherent w0 → caching_fetch ctl i k z w0 = (w1, r1) →
  coherent w1 ∧ storage w1 = storage w0 ∧ pipeline_log w1 = pipeline_log w0 ∧
  (r1 = Ok (contents (storage w0) (bucket_id ctl, i, k, z)) ∨ ∃ e, r1 = Err e).
Proof.
  intros Hc E. destruct (caching_fetch_sound i k z w0 w1 r1 Hc E) as (Hc1 & Hs1 & Hr1).
  pose proof (keeps_caching_fetch ctl pipeline_log log_footprint i k z w0) as Hl.
  rewrite E in Hl. done.
Qed.

Lemma fetch_finish_derive i dk cs z d rk (w1 w2 : World S) r :
  mode (config ctl) ≠ Aot → fetch_finish ctl i dk cs z d rk w1 = (w2, r) →
  pipeline_log w2 = pipeline_log w1 ++ [CallOnFetch dk rk z] ∧
  ((∃ e, r = Err e) ∨ ∃ res, on_fetch (pipeline ctl) dk rk d z cs = Ok res ∧ r = Ok (response res)).
Proof.
  intros Hm. unfold fetch_finish. rewrite (is_mode_other ctl (mode (config ctl)) Aot) by done.
  unfold st_bind, run_on_fetch. destruct (on_fetch _ _ _ _ _ _) as [res|e]; simpl.
  - pose proof (keeps_concurrent_upload ctl pipeline_log log_footprint i (to_store res)
                  (log_call (CallOnFetch dk rk z) w1)) as Hl.
    destruct (concurrent_upload _ _ _ _) as [w3 [u|e]]; intros [= <- <-]; simpl in *;
      split; eauto.
  - intros [= <- <-]. eauto.
Qed.

(** C1: in AOT mode [fetch] answers from storage: the bytes stored for
    the requested kind and the resolved sizing id, with that kind and
    id, or "not found" when storage has none (or the error of the storage
    or limiter). *)
Theorem fetch_aot_returns_stored i dk sp cs (w w' : World S) r :
  coherent w → mode (config ctl) = Aot → fetch ctl i dk sp cs w = Some (w', r) →
  (∃ e, r = Err e) ∨
  r = Ok ((λ v, {| data := v; kind := dk; sizing_id := resolve_sizing_id ctl sp |}) <$>
          contents (storage w) (bucket_id ctl, i, dk, resolve_sizing_id ctl sp)).
Proof.
  intros Hc Hm H. apply with_permit_run in H as [[-> _]|(w0 & Hd & _ & ->)]; [by left; eexists|].
  assert (coherent w0) as Hc0 by (by apply (coherent_data w)).
  assert (storage w0 = storage w) as Hs0 by (unfold data_of in Hd; by injection Hd).
  unfold fetch_body. rewrite (is_mode_other ctl Aot Realtime Hm), (is_mode_other ctl Aot Jit Hm)
    by done.
  unfold st_bind. destruct (caching_fetch _ _ _ _ _) as [w1 r1] eqn:E.
  destruct (caching_fetch_step _ _ _ _ _ _ Hc0 E) as (_ & _ & _ & [->|[e ->]]); [|by left; eexists].
  rewrite Hs0. right.
  destruct (contents (storage w) (bucket_id ctl, i, dk, resolve_sizing_id ctl sp)) as [v|]; simpl; [|done].
  unfold fetch_finish. by rewrite (proj2 (is_mode_true ctl Aot) Hm).
Qed.

(** C3: in JIT mode, when the requested variant is not stored but the
    original is, [fetch] runs the fetch hook once on the original's
    bytes and answers with the hook's response (or an error). *)
Theorem fetch_jit_miss_derives i dk sp cs (w w' : World S) r o :
  coherent w → mode (config ctl) = Jit →
  contents (storage w) (bucket_id ctl, i, dk, resolve_sizing_id ctl sp) = None →
  contents (storage w) (bucket_id ctl, i, original_image_store_format (config ctl), 0%N) = Some o →
  fetch ctl i dk sp cs w = Some (w', r) →
  (∃ e, r = Err e) ∨
  (pipeline_log w' = pipeline_log w ++
     [CallOnFetch dk (original_image_store_format (config ctl)) (resolve_sizing_id ctl sp)] ∧
   ∃ res, on_fetch (pipeline ctl) dk (original_image_store_format (config ctl)) o
            (resolve_sizing_id ctl sp) cs = Ok res ∧ r = Ok (response res)).
Proof.
  intros Hc Hm Hnone Horig H.
  apply with_permit_run in H as [[-> _]|(w0 & Hd & Hd' & ->)]; [by left; eexists|].
  assert (coherent w0) as Hc0 by (by apply (coherent_data w)).
  unfold data_of in Hd, Hd'. injection Hd as Hs0 _ _ Hl0.
  destruct (fetch_body ctl i dk sp cs w0) as [wf rf] eqn:Ef. simpl in *. injection Hd' as _ _ _ Hl'.
  unfold fetch_body in Ef. rewrite (is_mode_other ctl Jit Realtime Hm), (proj2 (is_mode_true ctl Jit) Hm)
    in Ef by done.
  unfold st_bind at 1 in Ef. destruct (caching_fetch ctl i dk _ w0) as [w1 r1] eqn:E1.
  destruct (caching_fetch_step _ _ _ _ _ _ Hc0 E1) as (Hc1 & Hs1 & Hl1 & [->|[e ->]]);
    [|injection Ef as _ <-; by left; eexists].
  rewrite Hs0, Hnone in Ef. unfold st_bind in Ef.
  destruct (caching_fetch ctl i _ 0%N w1) as [w2 r2] eqn:E2.
  destruct (caching_fetch_step _ _ _ _ _ _ Hc1 E2) as (_ & _ & Hl2 & [->|[e ->]]);
    [|injection Ef as _ <-; by left; eexists].
  rewrite Hs1, Hs0, Horig in Ef.
  apply fetch_finish_derive in Ef as [Hl3 Hr3]; [|by rewrite Hm].
  destruct Hr3 as [[e ->]|Hr3]; [by left; eexists|right]. split; [|done]. congruence.
Qed.

(** C11: in Realtime mode [fetch] looks up only the bucket's canonical
    encoding at sizing id 0, whatever kind and preset were asked for:
    without that original it answers "not found"; with it, it runs the
    fetch hook on the original, passing the resolved sizing id. *)
Theorem fetch_realtime_original i dk sp cs (w w' : World S) r :
  coherent w → mode (config ctl) = Realtime → fetch ctl i dk sp cs w = Some (w', r) →
  (∃ e, r = Err e) ∨
  (contents (storage w) (bucket_id ctl, i, original_image_store_format (config ctl), 0%N) = None ∧
   r = Ok None) ∨
  (∃ o res, contents (storage w) (bucket_id ctl, i, original_image_store_format (config ctl), 0%N)
              = Some o ∧
            on_fetch (pipeline ctl) dk (original_image_store_format (config ctl)) o
              (resolve_sizing_id ctl sp) cs = Ok res ∧ r = Ok (response res)).
Proof.
  intros Hc Hm H. apply with_permit_run in H as [[-> _]|(w0 & Hd & _ & ->)]; [by left; eexists|].
  assert (coherent w0) as Hc0 by (by apply (coherent_data w)).
  assert (storage w0 = storage w) as Hs0 by (unfold data_of in Hd; by injection Hd).
  destruct (fetch_body ctl i dk sp cs w0) as [wf rf] eqn:Ef. simpl.
  unfold fetch_body in Ef. rewrite (proj2 (is_mode_true ctl Realtime) Hm),
    (is_mode_other ctl Realtime Jit Hm) in Ef by done.
  unfold st_bind in Ef. destruct (caching_fetch _ _ _ _ _) as [w1 r1] eqn:E.
  destruct (caching_fetch_step _ _ _ _ _ _ Hc0 E) as (_ & _ & _ & [->|[e ->]]);
    [|injection Ef as _ <-; by left; eexists].
  rewrite Hs0 in Ef.
  destruct (contents (storage w) (bucket_id ctl, i, original_image_store_format (config ctl), 0%N))
    as [o|] eqn:Ho; [|injection Ef as _ <-; by right; left].
  apply fetch_finish_derive in Ef as [_ [[e ->]|(res & Hres & ->)]]; [by left; eexists| |by rewrite Hm].
  right; right. eauto.
Qed.

End Coherence.
