(* ===== verification/Transparency.v ===== *)
(** * Transparency: the bucket cache does not change what calls return

    The refinement behind the cache-aside design: a bucket whose own cache
    is coherent with storage answers every call exactly as the same bucket
    with no cache at all.  [uncached w] forgets both caches of a world;
    [Sim m] says that running [m] on [uncached w] gives [uncached] of the
    world [m] gives on [w], with the same result, and that the cached world
    stays coherent unless [m] failed.  [Sim] is closed under the monad's
    bind, holds of each step of [caching_fetch], [concurrent_upload],
    [fetch], [upload] and [delete], and lifts through the permit guard.
    The backend must answer reads ([ReliableFetch]): a cache hit returns
    what a read would have returned.  [run_calls] runs a client's session,
    each call awaited before the next; the cache stays transparent over a
    whole session as long as no [delete] fails. *)

From S2P Require Import Prelude Config Utils Pipeline Storage Cache Admission Controller FanOut.
From S2P Require Import Coherence.
Open Scope lust_scope.

(** A world without caches, otherwise the same. *)
Definition uncached {S} (w : World S) : World S := {|
  storage := storage w; local_cache := None; global_cache := None;
  global_limiter := global_limiter w; limiter := limiter w; pipeline_log := pipeline_log w |}.

(** The calls a client makes on a bucket ([upload], [fetch], [delete])
    and what each returns. *)
Inductive Call :=
  | UploadCall (k : ImageKind) (d : bytes)
  | FetchCall (i : string) (dk : ImageKind) (sp : option string) (cs : option (N * N))
  | DeleteCall (i : string).

Inductive Answer :=
  | UploadAnswer (r : result UploadInfo)
  | FetchAnswer (r : result (option StoreEntry))
  | DeleteAnswer (r : result unit).

Section Transparency.
Context {S P : Type} `{!StorageBackend S} `{!StorageContract S} `{!ReliableFetch S} `{!Pipeline P}.
Context (sha256 : bytes → bytes) (ctl : BucketController P).

(** [m] behaves on the uncached world as on the cached one. *)
Definition Sim {A} (m : ST (World S) A) : Prop :=
  ∀ w, is_Some (local_cache w) → coherent ctl w →
       m (uncached w) = (uncached (m w).1, (m w).2) ∧ is_Some (local_cache (m w).1) ∧
       ((∃ e, (m w).2 = Err e) ∨ coherent ctl (m w).1).

(** The lifted form of a call's answer. *)
Definition forget_caches {A} (o : option (World S * result A)) : option (World S * result A) :=
  (λ '(w', r), (uncached w', r)) <$> o.

Definition call (c : Call) (w : World S) : option (World S * Answer) :=
  match c with
  | UploadCall k d => (λ '(w', r), (w', UploadAnswer r)) <$> upload sha256 ctl k d w
  | FetchCall i dk sp cs => (λ '(w', r), (w', FetchAnswer r)) <$> fetch ctl i dk sp cs w
  | DeleteCall i => (λ '(w', r), (w', DeleteAnswer r)) <$> delete ctl i w
  end.

(** A client's calls one after the other, each awaited before the next;
    a call that waits forever ends the run. *)
Fixpoint run_calls (cs : list Call) (w : World S) : World S * list Answer :=
  match cs with
  | [] => (w, [])
  | c :: cs' =>
      match call c w with
      | None => (w, [])
      | Some (w1, a) => let '(w2, ans) := run_calls cs' w1 in (w2, a :: ans)
      end
  end.

Lemma uncached_eq (w w' : World S) :
  storage w' = storage w → limiters w' = limiters w → pipeline_log w' = pipeline_log w →
  uncached w' = uncached w.
Proof. unfold uncached, limiters. intros -> [= -> ->] ->. done. Qed.

Lemma uncached_set_limiter r s (w : World S) :
  uncached (set_limiter r s w) = set_limiter r s (uncached w).
Proof. done. Qed.

Lemma sim_ret {A} (a : A) : Sim (st_ret a).
Proof. intros w Hs Hc. split_and!; [done|done|by right]. Qed.

Lemma sim_bind {A B} (m : ST (World S) A) (k : A → ST (World S) B) :
  Sim m → (∀ a, Sim (k a)) → Sim (st_bind m k).
Proof.
  intros Hm Hk w Hs Hc. unfold st_bind. destruct (Hm w Hs Hc) as (Heq & Hs1 & Hc1). rewrite Heq.
  destruct (m w) as [w1 [a|e]]; simpl in *; [|split_and!; [done|done|by left; eexists]].
  destruct Hc1 as [[e ?]|Hc1]; [done|]. by apply Hk.
Qed.

(** A world that keeps the bucket cache coherent and is otherwise
    unchanged: the pipeline hooks only log. *)
Lemma sim_log {A} (c : PipelineCall) (r : result A) : Sim (λ w, (log_call c w, r)).
Proof.
  intros w Hs Hc. simpl. split_and!; [done|done|right].
  by apply (coherent_same ctl w).
Qed.

(** With reliable reads, the cache-aside read answers what storage holds. *)
Lemma caching_fetch_ok i k z (w : World S) :
  coherent ctl w →
  (caching_fetch ctl i k z w).2 = Ok (contents (storage w) (bucket_id ctl, i, k, z)).
Proof.
  intros Hc. destruct (caching_fetch ctl i k z w) as [w' r] eqn:E.
  destruct (caching_fetch_sound ctl i k z w w' r Hc E) as (_ & _ & [->|[e ->]]); [done|].
  exfalso. unfold caching_fetch, storage_op in E.
  pose proof (sb_fetch_reliable (bucket_id ctl) i k z (storage w)) as Hrel.
  destruct (sb_fetch (bucket_id ctl) i k z (storage w)) as [st' res]. simpl in Hrel. subst res.
  destruct (_ ≫= _); [discriminate|]. destruct (read_cache w), (contents _ _); discriminate.
Qed.

Lemma sim_caching_fetch i k z : Sim (caching_fetch ctl i k z).
Proof.
  intros w Hs Hc. destruct (preserves_caching_fetch ctl i k z w Hs Hc) as [Hs' Hc'].
  split_and!; [|done|by right].
  pose proof (caching_fetch_ok i k z w Hc) as Hr.
  destruct (caching_fetch ctl i k z w) as [w' r] eqn:E.
  destruct (caching_fetch_sound ctl i k z w w' r Hc E) as (_ & Hst & _).
  pose proof (keeps_caching_fetch ctl limiters limiters_footprint i k z w) as Hl.
  pose proof (keeps_caching_fetch ctl pipeline_log log_footprint i k z w) as Hg.
  rewrite E in Hl, Hg. simpl in *. rewrite (uncached_eq w w') by done.
  unfold caching_fetch at 1. simpl. unfold storage_op. simpl.
  destruct (sb_fetch_spec (bucket_id ctl) i k z (storage w)) as [Hst0 _].
  pose proof (sb_fetch_reliable (bucket_id ctl) i k z (storage w)) as Hrel.
  destruct (sb_fetch (bucket_id ctl) i k z (storage w)) as [st0 r0]. simpl in *. subst. done.
Qed.

Lemma sim_upload_task i e : Sim (upload_task ctl i e).
Proof.
  intros w Hs Hc. destruct (preserves_upload_task ctl i e w Hs Hc) as [Hs' Hc'].
  split_and!; [|done|by right].
  unfold upload_task, storage_op. simpl.
  destruct (sb_store _ _ _ _ _ (storage w)) as [st' [u|err]]; done.
Qed.

Lemma run_tasks_uncached i es (w : World S) :
  is_Some (local_cache w) → coherent ctl w →
  run_tasks ctl i es (uncached w) = (uncached (run_tasks ctl i es w).1, (run_tasks ctl i es w).2).
Proof.
  revert w. induction es as [|e es IH]; intros w Hs Hc; simpl; [done|].
  destruct (sim_upload_task i e w Hs Hc) as (-> & Hs1 & _).
  destruct (preserves_upload_task ctl i e w Hs Hc) as [_ Hc1].
  destruct (upload_task ctl i e w) as [w1 r]. simpl in *. rewrite (IH w1 Hs1 Hc1).
  by destruct (run_tasks ctl i es w1).
Qed.

Lemma sim_concurrent_upload i es : Sim (concurrent_upload ctl i es).
Proof.
  intros w Hs Hc. destruct (preserves_concurrent_upload ctl i es w Hs Hc) as [Hs' Hc'].
  split_and!; [|done|by right].
  unfold concurrent_upload. rewrite (run_tasks_uncached i es w Hs Hc).
  by destruct (run_tasks ctl i es w).
Qed.

Lemma sim_fetch_finish i dk cs z d rk : Sim (fetch_finish ctl i dk cs z d rk).
Proof.
  unfold fetch_finish. destruct (is_mode ctl Aot); [apply sim_ret|].
  apply sim_bind; [apply sim_log|]. intros res.
  first [apply sim_ret | apply sim_bind; [apply sim_concurrent_upload|]; intros _; apply sim_ret].
Qed.

Lemma sim_fetch_body i dk sp cs : Sim (fetch_body ctl i dk sp cs).
Proof.
  unfold fetch_body. apply sim_bind; [apply sim_caching_fetch|]. intros [v|].
  - apply sim_fetch_finish.
  - destruct (is_mode ctl Jit); [|apply sim_ret].
    apply sim_bind; [apply sim_caching_fetch|]. intros [v|]; [apply sim_fetch_finish|apply sim_ret].
Qed.

Lemma sim_upload_body k d : Sim (upload_body sha256 ctl k d).
Proof.
  unfold upload_body. apply sim_bind; [apply sim_log|]. intros res.
  apply sim_bind; [apply sim_concurrent_upload|]. intros. apply sim_ret.
Qed.

Lemma sim_delete_body i : Sim (delete_body ctl i).
Proof.
  intros w Hs Hc. unfold delete_body, st_bind, storage_op. simpl.
  destruct (sb_delete (bucket_id ctl) i (storage w)) as [st' [l|e]] eqn:Ed; simpl.
  - split_and!; [done| |right].
    + destruct Hs as [c Hc0]. rewrite Hc0. by eexists.
    + apply (delete_body_coherent ctl i w); [done|done|].
      unfold delete_body, st_bind, storage_op. by rewrite Ed.
  - split_and!; [done| |by left; eexists]. destruct Hs as [c Hc0]. simpl. rewrite ?Hc0. by eexists.
Qed.

(** The permit guard sees the same limiters with or without caches. *)
Lemma with_permit_uncached {A} (body : ST (World S) A) (w : World S) :
  Sim body → is_Some (local_cache w) → coherent ctl w →
  with_permit body (uncached w) = forget_caches (with_permit body w).
Proof.
  intros Hb Hs Hc. unfold with_permit, forget_caches. simpl.
  destruct (get_optional_permit (global_limiter w) (limiter w)) as [[r s]|].
  - destruct (try_acquire s) as [s'| |]; simpl; [|done|done].
    rewrite <- uncached_set_limiter.
    assert (is_Some (local_cache (set_limiter r s' w))) as Hs1 by done.
    assert (coherent ctl (set_limiter r s' w)) as Hc1 by (by apply (coherent_same ctl w)).
    destruct (Hb _ Hs1 Hc1) as (-> & _ & _).
    destruct (body (set_limiter r s' w)) as [w1 res]. simpl.
    destruct r; simpl; [destruct (global_limiter w1)|destruct (limiter w1)]; done.
  - destruct (Hb w Hs Hc) as (-> & _ & _). by destruct (body w).
Qed.

(** The permit guard keeps the bucket cache and, unless the body failed,
    its coherence. *)
Lemma with_permit_sim {A} (body : ST (World S) A) w w' r :
  Sim body → is_Some (local_cache w) → coherent ctl w → with_permit body w = Some (w', r) →
  is_Some (local_cache w') ∧ ((∃ e, r = Err e) ∨ coherent ctl w').
Proof.
  intros Hb Hs Hc H. apply with_permit_run in H as [[-> ->]|(w0 & Hd & Hd' & ->)]; [by split; [|right]|].
  destruct (coherent_transfer ctl w w0 Hd Hs Hc) as [Hs0 Hc0].
  destruct (Hb w0 Hs0 Hc0) as (_ & Hs1 & Hc1). split.
  - unfold data_of in Hd'. injection Hd' as _ Hl _ _. by rewrite Hl.
  - destruct Hc1 as [?|Hc1]; [by left|right]. apply (coherent_data ctl (body w0).1); [done|done].
Qed.

Lemma with_permit_preserves {A} (body : ST (World S) A) w w' r :
  Preserves ctl body → is_Some (local_cache w) → coherent ctl w → with_permit body w = Some (w', r) →
  is_Some (local_cache w') ∧ coherent ctl w'.
Proof.
  intros Hb Hs Hc H. apply with_permit_run in H as [[-> ->]|(w0 & Hd & Hd' & _)]; [done|].
  destruct (coherent_transfer ctl w w0 Hd Hs Hc) as [Hs0 Hc0].
  destruct (Hb w0 Hs0 Hc0) as [Hs1 Hc1]. apply (coherent_transfer ctl (body w0).1); [done|done|done].
Qed.

Lemma forget_caches_map {A} (f : result A → Answer) (o : option (World S * result A)) :
  (λ '(w', r), (w', f r)) <$> forget_caches o =
  (λ '(w', a), (uncached w', a)) <$> ((λ '(w', r), (w', f r)) <$> o : option (World S * Answer)).
Proof. by destruct o as [[w' r]|]. Qed.

(** One call: the same answer without caches, and a coherent bucket
    cache after it unless it was a failed [delete]. *)
Lemma call_sim c (w : World S) :
  is_Some (local_cache w) → coherent ctl w →
  call c (uncached w) = (λ '(w', a), (uncached w', a)) <$> call c w ∧
  ∀ w' a, call c w = Some (w', a) → (∀ e, a ≠ DeleteAnswer (Err e)) →
          is_Some (local_cache w') ∧ coherent ctl w'.
Proof.
  intros Hs Hc. destruct c as [k d|i dk sp cs|i]; unfold call; split.
  - unfold upload. rewrite (with_permit_uncached _ w (sim_upload_body k d) Hs Hc). apply forget_caches_map.
  - intros w' a. destruct (upload _ _ k d w) as [[w1 r]|] eqn:E; intros [= <- <-] _.
    apply (with_permit_preserves _ w w1 r (preserves_upload_body sha256 ctl k d) Hs Hc E).
  - unfold fetch. rewrite (with_permit_uncached _ w (sim_fetch_body i dk sp cs) Hs Hc). apply forget_caches_map.
  - intros w' a. destruct (fetch _ i dk sp cs w) as [[w1 r]|] eqn:E; intros [= <- <-] _.
    apply (with_permit_preserves _ w w1 r (preserves_fetch_body ctl i dk sp cs) Hs Hc E).
  - unfold delete. rewrite (with_permit_uncached _ w (sim_delete_body i) Hs Hc). apply forget_caches_map.
  - intros w' a. destruct (delete _ i w) as [[w1 r]|] eqn:E; intros [= <- <-] Ha.
    destruct (with_permit_sim _ w w1 r (sim_delete_body i) Hs Hc E) as [Hs1 [[e ->]|Hc1]];
      [by destruct (Ha e)|done].
Qed.

(** C8: the bucket cache is transparent.  When a bucket has a cache of
    its own that is coherent with storage, [upload], [fetch] and [delete]
    return exactly what the same bucket returns with no cache at all, and
    leave storage, limiters and pipeline invocations exactly as that run
    does: the cached controller refines the uncached one. *)
Theorem cache_transparent (w : World S) k d i dk sp cs :
  is_Some (local_cache w) → coherent ctl w →
  upload sha256 ctl k d (uncached w) = forget_caches (upload sha256 ctl k d w) ∧
  fetch ctl i dk sp cs (uncached w) = forget_caches (fetch ctl i dk sp cs w) ∧
  delete ctl i (uncached w) = forget_caches (delete ctl i w).
Proof.
  intros Hs Hc. split_and!; apply with_permit_uncached; try done.
  - apply sim_upload_body.
  - apply sim_fetch_body.
  - apply sim_delete_body.
Qed.

(** C9: the cache is transparent over whole sessions.  Starting from a
    coherent bucket cache, any sequence of calls in which no [delete]
    fails returns, call by call, exactly the answers of the same sequence
    on the bucket without caches, and ends in the same storage, limiters
    and pipeline invocations.  (A failed [delete] can leave the cache
    stale, after which the answers may differ.) *)
Theorem cache_transparent_calls (cs : list Call) (w : World S) :
  is_Some (local_cache w) → coherent ctl w →
  (∀ e, DeleteAnswer (Err e) ∉ (run_calls cs w).2) →
  run_calls cs (uncached w) = (uncached (run_calls cs w).1, (run_calls cs w).2).
Proof.
  revert w. induction cs as [|c cs IH]; intros w Hs Hc; [done|]. cbn [run_calls].
  destruct (call_sim c w Hs Hc) as [-> Hpres].
  destruct (call c w) as [[w1 a]|] eqn:E; simpl; [|done].
  destruct (run_calls cs w1) as [w2 ans] eqn:E2. simpl. intros Hno.
  assert (∀ e, a ≠ DeleteAnswer (Err e)) as Ha by (intros e ->; apply (Hno e); left).
  destruct (Hpres w1 a eq_refl Ha) as [Hs1 Hc1].
  rewrite (IH w1 Hs1 Hc1), E2; [done|]. rewrite E2. intros e Hin. apply (Hno e). by right.
Qed.

End Transparency.
