(* ===== verification/Roundtrip.v ===== *)
(** * Roundtrip: a call followed by a fetch

    The specification's testable properties about pairs of calls
    (section 8): after a successful [upload] in AOT mode, a [fetch] of any
    variant the upload hook produced returns exactly those bytes without
    running the fetch hook; after a successful [delete], a [fetch] of the
    image in any mode answers "not found".  The first holds for every
    backend meeting [StorageContract], because the fan-out leaves each
    stored variant in the bucket's own cache; the second needs reads that
    do not fail ([ReliableFetch]), since after the purge every read goes
    to storage.  Outside AOT mode a fetch that ran the hook answers only
    after the fan-out stored what the hook produced.  Two theorems show
    where the cache invariant ends: [delete] never invalidates the shared
    cache, and a failed [delete] invalidates nothing, for every backend. *)

From S2P Require Import Prelude Config Utils Pipeline Storage Cache Admission Controller FanOut.
From S2P Require Import Coherence Transparency.
Open Scope lust_scope.

Section Roundtrip.
Context {S P : Type} `{!StorageBackend S} `{!StorageContract S} `{!Pipeline P}.
Context (sha256 : bytes → bytes) (ctl : BucketController P).

(** ** After an upload *)

Lemma first_error_ok rs u : first_error rs = Ok u → ∀ j r, rs !! j = Some r → r = Ok tt.
Proof.
  induction rs as [|[[]|e] rs IH]; intros H [|j] r Hj; simpl in *; try discriminate.
  - by injection Hj as <-.
  - by apply (IH H j).
Qed.

Lemma local_get_some (w : World S) key v :
  local_get w key = Some v →
  ∃ c, read_cache w = Some LocalCacheRef ∧ cache_of LocalCacheRef w = Some c ∧ cache_get c key = Some v.
Proof.
  unfold local_get, read_cache, cache_of. destruct (local_cache w) as [c|]; simpl; [|done].
  intros Hv. by exists c.
Qed.

(** A successful upload leaves every entry the hook produced in storage
    and in the bucket's own cache. *)
Lemma upload_stored k d (w w1 : World S) info res e :
  is_Some (local_cache w) → on_upload (pipeline ctl) k d = Ok res →
  NoDup (map entry_key (to_store res)) → e ∈ to_store res →
  upload sha256 ctl k d w = Some (w1, Ok info) →
  info_image_id info = sha256_hash sha256 d ∧
  contents (storage w1) (bucket_id ctl, info_image_id info, kind e, sizing_id e) = Some (data e) ∧
  local_get w1 (cache_key (bucket_id ctl) (sizing_id e) (info_image_id info) (kind e)) = Some (data e).
Proof.
  intros Hs Hres Hnd He H. apply with_permit_run in H as [[? _]|(w0 & Hd & Hd' & Hr)]; [done|].
  rewrite upload_body_eq, Hres in Hd', Hr.
  destruct (run_tasks ctl _ _ _) as [w2 rs] eqn:Er. destruct (first_error rs) as [u|] eqn:Hf; [|done].
  injection Hr as Hi. subst info. simpl in Hd'. simpl.
  apply list_elem_of_lookup_1 in He as [j Hj].
  destruct (run_tasks_stored ctl _ _ _ _ _ Hnd Er) as [Hlen Hall].
  destruct (lookup_lt_is_Some_2 rs j) as [r Hrj]; [rewrite Hlen; by eapply lookup_lt_Some|].
  rewrite (first_error_ok rs u Hf j r Hrj) in Hrj.
  destruct (Hall j e Hj Hrj) as [Hc Hl].
  unfold data_of in Hd, Hd'. injection Hd as Hs0 Hl0 _ _. injection Hd' as -> Hl1 _ _.
  split_and!; [done|done|]. unfold local_get in *. rewrite Hl1. apply Hl. simpl. by rewrite Hl0.
Qed.

(** In AOT mode, a fetch whose variant the cache it reads holds answers
    it as it is and changes nothing. *)
Lemma fetch_body_aot_cached i dk sp cs (w : World S) rc c v :
  mode (config ctl) = Aot → read_cache w = Some rc → cache_of rc w = Some c →
  cache_get c (cache_key (bucket_id ctl) (resolve_sizing_id ctl sp) i dk) = Some v →
  fetch_body ctl i dk sp cs w = (w, Ok (Some {| data := v; kind := dk; sizing_id := resolve_sizing_id ctl sp |})).
Proof.
  intros Hm Hr Hc Hv.
  unfold fetch_body. rewrite (is_mode_other ctl Aot Realtime Hm) by done.
  unfold st_bind at 1. rewrite (caching_fetch_hit ctl i dk _ w rc c v Hr Hc Hv).
  unfold fetch_finish. by rewrite (proj2 (is_mode_true ctl Aot) Hm).
Qed.

(** The same through the permit guard: the answer is the cached entry
    (or [AcquireError]) and no hook runs. *)
Lemma fetch_aot_cached i dk sp cs (w w' : World S) rc c v r :
  mode (config ctl) = Aot → read_cache w = Some rc → cache_of rc w = Some c →
  cache_get c (cache_key (bucket_id ctl) (resolve_sizing_id ctl sp) i dk) = Some v →
  fetch ctl i dk sp cs w = Some (w', r) →
  r = Err AcquireError ∨
  (r = Ok (Some {| data := v; kind := dk; sizing_id := resolve_sizing_id ctl sp |}) ∧
   pipeline_log w' = pipeline_log w).
Proof.
  intros Hm Hr Hc Hv Hf.
  apply with_permit_run in Hf as [[-> _]|(w0 & Hd & Hd' & ->)]; [by left|right].
  destruct (data_of_read_cache w0 w rc Hd) as [Hr0 Hc0]. rewrite <- Hr0 in Hr. rewrite <- Hc0 in Hc.
  rewrite (fetch_body_aot_cached i dk sp cs w0 rc c v Hm Hr Hc Hv) in Hd' |- *. simpl in Hd' |- *.
  unfold data_of in Hd, Hd'. simplify_eq. split; [done|congruence].
Qed.

(** C5: after a successful upload in AOT mode, a fetch of any variant the
    upload hook produced (its kind, and a preset resolving to its sizing
    id) returns exactly the stored entry without running the fetch hook,
    unless the limiter is closed; storage holds the entry as well.  The
    entries must name distinct variants, as the last write of a variant
    wins. *)
Theorem upload_fetch_aot k d res e sp cs (w w1 w2 : World S) info r :
  mode (config ctl) = Aot → is_Some (local_cache w) →
  on_upload (pipeline ctl) k d = Ok res → NoDup (map entry_key (to_store res)) →
  e ∈ to_store res → resolve_sizing_id ctl sp = sizing_id e →
  upload sha256 ctl k d w = Some (w1, Ok info) →
  fetch ctl (info_image_id info) (kind e) sp cs w1 = Some (w2, r) →
  contents (storage w1) (bucket_id ctl, info_image_id info, kind e, sizing_id e) = Some (data e) ∧
  (r = Err AcquireError ∨ (r = Ok (Some e) ∧ pipeline_log w2 = pipeline_log w1)).
Proof.
  intros Hm Hs Hres Hnd He Hz Hu Hf.
  destruct (upload_stored k d w w1 info res e Hs Hres Hnd He Hu) as (_ & Hst & Hl).
  split; [done|]. rewrite <- Hz in Hl. apply local_get_some in Hl as (c & Hr & Hc & Hv).
  destruct (fetch_aot_cached _ _ sp cs w1 w2 _ c _ r Hm Hr Hc Hv Hf) as [?|[-> ?]]; [by left|right].
  rewrite Hz. by destruct e.
Qed.

(** ** After a fetch that derives *)

(** Outside AOT mode, a successful [fetch_finish] answers the hook's
    response after the fan-out stored every entry the hook produced. *)
Lemma fetch_finish_persists i dk cs z d rk (w1 w2 : World S) o :
  mode (config ctl) ≠ Aot → fetch_finish ctl i dk cs z d rk w1 = (w2, Ok o) →
  ∃ res, on_fetch (pipeline ctl) dk rk d z cs = Ok res ∧ o = response res ∧
    (NoDup (map entry_key (to_store res)) → ∀ e, e ∈ to_store res →
     contents (storage w2) (bucket_id ctl, i, kind e, sizing_id e) = Some (data e)).
Proof.
  intros Hm. unfold fetch_finish. rewrite (is_mode_other ctl (mode (config ctl)) Aot) by done.
  unfold st_bind, run_on_fetch. destruct (on_fetch _ _ _ _ _ _) as [res|e]; simpl; [|done].
  unfold concurrent_upload. destruct (run_tasks ctl i _ _) as [w3 rs] eqn:Er.
  destruct (first_error rs) as [u|] eqn:Hf; simpl; [|done]. intros [= <- <-].
  exists res. split_and!; [done|done|]. intros Hnd e He.
  apply list_elem_of_lookup_1 in He as [j Hj].
  destruct (run_tasks_stored ctl _ _ _ _ _ Hnd Er) as [Hlen Hall].
  destruct (lookup_lt_is_Some_2 rs j) as [r Hrj]; [rewrite Hlen; by eapply lookup_lt_Some|].
  rewrite (first_error_ok rs u Hf j r Hrj) in Hrj. by apply (Hall j e Hj Hrj).
Qed.

Lemma fetch_body_persists i dk sp cs (w0 w1 : World S) o :
  mode (config ctl) ≠ Aot → fetch_body ctl i dk sp cs w0 = (w1, Ok o) →
  (o = None ∧ pipeline_log w1 = pipeline_log w0) ∨
  ∃ rk d res, on_fetch (pipeline ctl) dk rk d (resolve_sizing_id ctl sp) cs = Ok res ∧
    o = response res ∧
    (NoDup (map entry_key (to_store res)) → ∀ e, e ∈ to_store res →
     contents (storage w1) (bucket_id ctl, i, kind e, sizing_id e) = Some (data e)).
Proof.
  intros Hm. unfold fetch_body, st_bind.
  match goal with |- context [caching_fetch ctl i ?k ?z w0] =>
    pose proof (keeps_caching_fetch ctl pipeline_log log_footprint i k z w0) as Hl0;
    destruct (caching_fetch ctl i k z w0) as [wa [[v|]|e]] end; simpl in *; [| |done].
  - intros H. right. destruct (fetch_finish_persists _ _ _ _ _ _ _ _ _ Hm H) as (res & Hres & -> & Hst).
    do 2 eexists. exists res. split_and!; [exact Hres|done|exact Hst].
  - destruct (is_mode ctl Jit); [|intros [= <- <-]; by left].
    match goal with |- context [caching_fetch ctl i ?k ?z wa] =>
      pose proof (keeps_caching_fetch ctl pipeline_log log_footprint i k z wa) as Hl1;
      destruct (caching_fetch ctl i k z wa) as [wb [[v|]|e]] end; simpl in *; [| |done].
    + intros H. right. destruct (fetch_finish_persists _ _ _ _ _ _ _ _ _ Hm H) as (res & Hres & -> & Hst).
    do 2 eexists. exists res. split_and!; [exact Hres|done|exact Hst].
    + intros [= <- <-]. left. split; [done|congruence].
Qed.

(** C12: C?: outside AOT mode, a fetch that succeeds either found nothing and
    ran no hook, or ran the fetch hook and answers its response only after
    the fan-out stored every entry the hook produced (entries naming
    distinct variants): a derived variant is in storage when the answer
    arrives. *)
Theorem fetch_derived_persisted i dk sp cs (w w' : World S) o :
  mode (config ctl) ≠ Aot → fetch ctl i dk sp cs w = Some (w', Ok o) →
  (o = None ∧ pipeline_log w' = pipeline_log w) ∨
  ∃ rk d res, on_fetch (pipeline ctl) dk rk d (resolve_sizing_id ctl sp) cs = Ok res ∧
    o = response res ∧
    (NoDup (map entry_key (to_store res)) → ∀ e, e ∈ to_store res →
     contents (storage w') (bucket_id ctl, i, kind e, sizing_id e) = Some (data e)).
Proof.
  intros Hm H. apply with_permit_run in H as [[? _]|(w0 & Hd & Hd' & Hr)]; [done|].
  destruct (fetch_body ctl i dk sp cs w0) as [w1 r1] eqn:E. simpl in Hd', Hr. subst r1.
  unfold data_of in Hd, Hd'. injection Hd as _ _ _ Hl0. injection Hd' as Hs1 _ _ Hl1.
  destruct (fetch_body_persists i dk sp cs w0 w1 o Hm E) as [[-> Hl]|(rk & d & res & Hres & -> & Hst)].
  - left. split; [done|congruence].
  - right. exists rk, d, res. split_and!; [done|done|]. rewrite Hs1. done.
Qed.

(** ** After a delete *)

(** A successful delete empties storage of every variant of the image. *)
Lemma delete_purges i (w w1 : World S) :
  delete ctl i w = Some (w1, Ok tt) → ∀ k z, contents (storage w1) (bucket_id ctl, i, k, z) = None.
Proof.
  intros H k z. apply with_permit_run in H as [[? _]|(w0 & _ & Hd' & Hr)]; [done|].
  unfold delete_body, st_bind, storage_op in Hd', Hr.
  destruct (sb_delete (bucket_id ctl) i (storage w0)) as [st' [l|e]] eqn:Ed; [|done].
  unfold data_of in Hd'. simpl in Hd'. injection Hd' as -> _ _ _.
  destruct (sb_delete_ok _ _ _ _ _ Ed) as [_ Hst]. rewrite Hst. by rewrite decide_True.
Qed.

(** [delete] invalidates only the bucket's own cache, and only after
    the purge succeeded. *)
Lemma delete_caches i (w w1 : World S) r :
  delete ctl i w = Some (w1, r) →
  global_cache w1 = global_cache w ∧ (local_cache w = None → local_cache w1 = None) ∧
  ((∃ e, r = Err e) → local_cache w1 = local_cache w).
Proof.
  intros H. apply with_permit_run in H as [[-> ->]|(w0 & Hd & Hd' & ->)]; [done|].
  unfold data_of in Hd. injection Hd as _ Hl Hg _.
  unfold delete_body, st_bind, storage_op in Hd' |- *.
  destruct (sb_delete (bucket_id ctl) i (storage w0)) as [st' [l|e]]; unfold data_of in Hd'; simpl in Hd';
    injection Hd' as _ -> -> _; rewrite <- Hl, <- Hg; split_and!; try done.
  - by intros ->.
  - by intros [? ?].
Qed.

(** C23: C?: [delete] never invalidates the process-wide cache.  For a bucket
    without a cache of its own, which reads through the shared one, a
    variant the shared cache holds is still served after a successful
    [delete] in AOT mode, although storage no longer holds it. *)
Theorem delete_leaves_shared_cache_stale i k sp cs c v (w w1 w2 : World S) r :
  mode (config ctl) = Aot → local_cache w = None → global_cache w = Some c →
  cache_get c (cache_key (bucket_id ctl) (resolve_sizing_id ctl sp) i k) = Some v →
  delete ctl i w = Some (w1, Ok tt) → fetch ctl i k sp cs w1 = Some (w2, r) →
  contents (storage w1) (bucket_id ctl, i, k, resolve_sizing_id ctl sp) = None ∧
  (r = Err AcquireError ∨ r = Ok (Some {| data := v; kind := k; sizing_id := resolve_sizing_id ctl sp |})).
Proof.
  intros Hm Hl Hg Hv Hd Hf. split; [by apply (delete_purges i w w1 Hd)|].
  destruct (delete_caches i w w1 _ Hd) as (Hg1 & Hl1 & _). specialize (Hl1 Hl).
  assert (read_cache w1 = Some GlobalCacheRef) as Hr by (unfold read_cache; by rewrite Hl1, Hg1, Hg).
  assert (cache_of GlobalCacheRef w1 = Some c) as Hc by (simpl; by rewrite Hg1).
  destruct (fetch_aot_cached i k sp cs w1 w2 _ c v r Hm Hr Hc Hv Hf) as [?|[? _]]; [by left|by right].
Qed.

(** C24: C?: a failed [delete] invalidates nothing.  Whatever the backend
    purged before it failed (the contract allows a partial purge, and the
    cloud backend does one), the bucket's cache is left as it was, so in
    AOT mode a variant it holds is still served.  This holds for every
    backend. *)
Theorem failed_delete_keeps_cached i k sp cs c v e (w w1 w2 : World S) r :
  mode (config ctl) = Aot → local_cache w = Some c →
  cache_get c (cache_key (bucket_id ctl) (resolve_sizing_id ctl sp) i k) = Some v →
  delete ctl i w = Some (w1, Err e) → fetch ctl i k sp cs w1 = Some (w2, r) →
  local_cache w1 = local_cache w ∧
  (r = Err AcquireError ∨ r = Ok (Some {| data := v; kind := k; sizing_id := resolve_sizing_id ctl sp |})).
Proof.
  intros Hm Hl Hv Hd Hf.
  destruct (delete_caches i w w1 _ Hd) as (_ & _ & Hl1). specialize (Hl1 (ex_intro _ e eq_refl)).
  split; [done|].
  assert (read_cache w1 = Some LocalCacheRef) as Hr by (unfold read_cache; by rewrite Hl1, Hl).
  assert (cache_of LocalCacheRef w1 = Some c) as Hc by (simpl; by rewrite Hl1).
  destruct (fetch_aot_cached i k sp cs w1 w2 _ c v r Hm Hr Hc Hv Hf) as [?|[? _]]; [by left|by right].
Qed.

Context `{!ReliableFetch S}.

(** A read of a variant storage does not hold answers "not found" and
    keeps the invariant. *)
Lemma caching_fetch_absent i k z (w : World S) :
  is_Some (local_cache w) → coherent ctl w → contents (storage w) (bucket_id ctl, i, k, z) = None →
  (caching_fetch ctl i k z w).2 = Ok None ∧ storage (caching_fetch ctl i k z w).1 = storage w ∧
  is_Some (local_cache (caching_fetch ctl i k z w).1) ∧ coherent ctl (caching_fetch ctl i k z w).1.
Proof.
  intros Hs Hc Hn. rewrite (caching_fetch_ok ctl i k z w Hc), Hn.
  destruct (preserves_caching_fetch ctl i k z w Hs Hc) as [Hs' Hc'].
  destruct (caching_fetch ctl i k z w) as [w' r] eqn:E.
  destruct (caching_fetch_sound ctl i k z w w' r Hc E) as (_ & Hst & _). done.
Qed.

Lemma fetch_body_absent i dk sp cs (w : World S) :
  is_Some (local_cache w) → coherent ctl w →
  (∀ k z, contents (storage w) (bucket_id ctl, i, k, z) = None) →
  (fetch_body ctl i dk sp cs w).2 = Ok None.
Proof.
  intros Hs Hc Hn. unfold fetch_body, st_bind.
  match goal with |- context [caching_fetch ctl i ?k ?z w] =>
    destruct (caching_fetch_absent i k z w Hs Hc (Hn k z)) as (Hr & Hst & Hs1 & Hc1);
    destruct (caching_fetch ctl i k z w) as [w1 r] end.
  simpl in *. subst r. destruct (is_mode ctl Jit); [|done].
  rewrite <- Hst in Hn.
  match goal with |- context [caching_fetch ctl i ?k ?z w1] =>
    destruct (caching_fetch_absent i k z w1 Hs1 Hc1 (Hn k z)) as (Hr2 & _);
    destruct (caching_fetch ctl i k z w1) as [w2 r2] end.
  simpl in *. by subst r2.
Qed.

(** C6: after a successful delete, a fetch of the image answers "not
    found" in every mode (unless the limiter is closed): the bucket's
    cache was coherent and the purge removed every variant, so no stale
    bytes are served. *)
Theorem delete_fetch_not_found i dk sp cs (w w1 w2 : World S) r :
  is_Some (local_cache w) → coherent ctl w →
  delete ctl i w = Some (w1, Ok tt) → fetch ctl i dk sp cs w1 = Some (w2, r) →
  r = Ok None ∨ r = Err AcquireError.
Proof.
  intros Hs Hc Hd Hf. pose proof (delete_purges i w w1 Hd) as Hn.
  destruct (with_permit_sim ctl _ w w1 (Ok tt) (sim_delete_body ctl i) Hs Hc Hd)
    as [Hs1 [[e ?]|Hc1]]; [done|].
  apply with_permit_run in Hf as [[-> _]|(w0 & Hd0 & _ & ->)]; [by right|left].
  destruct (coherent_transfer ctl w1 w0 Hd0 Hs1 Hc1) as [Hs0 Hc0].
  apply fetch_body_absent; [done|done|]. unfold data_of in Hd0. injection Hd0 as -> _ _ _. done.
Qed.

End Roundtrip.
