(* ===== verification/Registry.v ===== *)
(** * Registry: the process-wide bucket table ([src/controller.rs] 14-27)

    [BUCKETS] is a [OnceCell<HashMap<u32, BucketController>>]: its state
    is [None] until set, then [Some] map forever.  [init_buckets] calls
    [BUCKETS.set] and ignores its result; [get_bucket_by_id] calls
    [BUCKETS.get_or_init(HashMap::new)], which fills an empty cell with an
    empty map; [get_bucket_by_name] looks up the CRC hash of the name.
    The registry is generic in the controller type [C].

    The theorems show that the first registry call fixes the table for
    the life of the process: if it is a lookup, the table stays empty and
    a later [init_buckets] is silently lost. *)

From S2P Require Import Prelude Utils.
Open Scope lust_scope.

Section Registry.
Context {C : Type}.

Abbreviation cell := (option (gmap N C)).

(** [let _ = BUCKETS.set(buckets);] *)
Definition init_buckets (buckets : gmap N C) (c : cell) : cell :=
  match c with
  | None => Some buckets
  | Some _ => c
  end.

(** [BUCKETS.get_or_init(hashbrown::HashMap::new).get(&bucket_id)] *)
Definition get_bucket_by_id (bucket_id : N) (c : cell) : cell * option C :=
  let table := match c with Some m => m | None => ∅ end in
  (Some table, table !! bucket_id).

(** [get_bucket_by_id(crate::utils::crc_hash(bucket))] *)
Definition get_bucket_by_name (bucket : string) (c : cell) : cell * option C :=
  get_bucket_by_id (crc_hash bucket) c.

Inductive RegistryOp :=
  | InitBuckets (buckets : gmap N C)
  | GetById (bucket_id : N)
  | GetByName (bucket : string).

Definition run_op (op : RegistryOp) (c : cell) : cell * option C :=
  match op with
  | InitBuckets m => (init_buckets m c, None)
  | GetById b => get_bucket_by_id b c
  | GetByName n => get_bucket_by_name n c
  end.

(** The cell after a sequence of registry calls, and the lookups' answers. *)
Fixpoint run_ops (ops : list RegistryOp) (c : cell) : cell * list (option C) :=
  match ops with
  | [] => (c, [])
  | op :: ops' =>
      let '(c1, r) := run_op op c in
      let '(c2, rs) := run_ops ops' c1 in
      (c2, r :: rs)
  end.

(** What the first call leaves in an empty cell. *)
Definition table_after_first (op : RegistryOp) : gmap N C :=
  match op with
  | InitBuckets m => m
  | _ => ∅
  end.

Lemma run_op_set op m : (run_op op (Some m)).1 = Some m.
Proof. by destruct op. Qed.

Lemma run_ops_set ops m : (run_ops ops (Some m)).1 = Some m.
Proof.
  induction ops as [|op ops IH]; simpl; [done|].
  pose proof (run_op_set op m) as E. destruct (run_op op (Some m)) as [c1 r]. simpl in E. subst.
  by destruct (run_ops ops (Some m)).
Qed.

(** C25: the first registry call fixes the table for good: the buckets of
    an [init_buckets] that comes first, and an empty table if a lookup
    comes first, whatever is initialised afterwards. *)
Theorem registry_fixed_by_first_call op ops :
  (run_ops (op :: ops) None).1 = Some (table_after_first op).
Proof.
  simpl. assert ((run_op op None).1 = Some (table_after_first op)) as E by (by destruct op).
  destruct (run_op op None) as [c1 r]. simpl in E. subst.
  pose proof (run_ops_set ops (table_after_first op)) as E.
  by destruct (run_ops ops _).
Qed.

Lemma run_ops_empty ops : Forall (λ r, r = None) (run_ops ops (Some ∅)).2.
Proof.
  induction ops as [|op ops IH]; simpl; [constructor|].
  assert ((run_op op (Some ∅)).2 = None) as Hr by (destruct op; done).
  pose proof (run_op_set op ∅) as E. destruct (run_op op (Some ∅)) as [c1 r]. simpl in *. subst.
  destruct (run_ops ops (Some ∅)). by constructor.
Qed.

(** C26: a lookup made before [init_buckets] loses every bucket: in any
    sequence of registry calls that starts with a lookup, every lookup,
    by id or by name, finds nothing, whatever [init_buckets] registers
    later. *)
Theorem lookup_before_init_loses_buckets b ops :
  Forall (λ r, r = None) (run_ops (GetById b :: ops) None).2.
Proof.
  simpl. pose proof (run_ops_empty ops) as H.
  destruct (run_ops ops (Some ∅)). by constructor.
Qed.

(** Once initialised first, lookups answer from the registered table. *)
Lemma init_then_lookup buckets b :
  (get_bucket_by_id b (init_buckets buckets None)).2 = buckets !! b.
Proof. reflexivity. Qed.

End Registry.
