(* ===== verification/GcpBackend.v ===== *)
(** * GcpBackend: [src/storage/backends/gcp_cloud_storage.rs]

    The backend keeps every variant as one object of a cloud bucket,
    named by [format_path]: ["{bucket_id}/{sizing_id}/{image_id}.{ext}"].
    Its state is the bucket's object map, together with the process's
    bucket registry that [delete] consults through [get_bucket_by_id]
    (modelled by the configurations it registers, since [delete] reads
    only [cfg()]).  The [cloud_storage] client is not under [src/]; its
    behaviour on a missing object is a parameter [ClientPolicy]: either
    the call fails (Google answers 404) or it succeeds doing nothing.
    The trait declares [image_id: &str] while this file takes a [Uuid];
    the model uses the string.

    The theorems: object paths are injective; a stored empty object reads
    back as "not found"; a successful [delete] reports every registered
    sizing id with every kind, whether or not it existed; with a strict
    client a [delete] of an image that lacks one of those variants fails
    part-way; with a lenient client [delete] removes exactly the objects
    at sizing ids the configuration lists; [delete] before the registry is
    initialised fails.  The client is modelled as far as the backend uses
    it: [create] never fails, and [download] and [delete] fail only on a
    missing object, under the strict policy. *)

From S2P Require Import Prelude Config Utils Storage Registry.
Open Scope lust_scope.

Record ClientPolicy := {
  download_missing_fails : bool;
  delete_missing_fails : bool;
}.

Record GcpState := {
  gcs_objects : gmap string bytes;
  gcs_registry : option (gmap N BucketConfig);
}.

Section Gcp.
Context (policy : ClientPolicy).

(** [GCPCloudStorageBackend::format_path]. *)
Definition format_path (bucket_id sizing_id : N) (image_id : string) (format : ImageKind) : string :=
  dec bucket_id +:+ "/" +:+ dec sizing_id +:+ "/" +:+ image_id +:+ "." +:+ as_file_extension format.

Definition set_objects (m : gmap string bytes) (st : GcpState) : GcpState :=
  {| gcs_objects := m; gcs_registry := gcs_registry st |}.

(** [client.object().create(..)]. *)
Definition client_create (path : string) (d : bytes) : ST GcpState unit :=
  λ st, (set_objects (<[path := d]> (gcs_objects st)) st, Ok tt).

(** [client.object().download(..)]. *)
Definition client_download (path : string) : ST GcpState bytes :=
  λ st, match gcs_objects st !! path with
        | Some d => (st, Ok d)
        | None => (st, if download_missing_fails policy then Err (StorageError "404")
                       else Ok [])
        end.

(** [client.object().delete(..)]. *)
Definition client_delete (path : string) : ST GcpState unit :=
  λ st, match gcs_objects st !! path with
        | Some _ => (set_objects (delete path (gcs_objects st)) st, Ok tt)
        | None => (st, if delete_missing_fails policy then Err (StorageError "404") else Ok tt)
        end.

Definition gcp_store (bucket_id : N) (image_id : string) (k : ImageKind) (sizing_id : N)
    (d : bytes) : ST GcpState unit :=
  client_create (format_path bucket_id sizing_id image_id k) d.

Definition gcp_fetch (bucket_id : N) (image_id : string) (k : ImageKind) (sizing_id : N)
    : ST GcpState (option bytes) :=
  object <- client_download (format_path bucket_id sizing_id image_id k) ;;
  st_ret (if decide (object = []) then None else Some object).

(** The registry lookup of [delete]: [get_bucket_by_id(bucket_id)] on the
    registry cell, which it may initialise. *)
Definition registry_lookup (bucket_id : N) : ST GcpState BucketConfig :=
  λ st, let '(c', r) := get_bucket_by_id bucket_id (gcs_registry st) in
        ({| gcs_objects := gcs_objects st; gcs_registry := c' |},
         match r with Some cfg => Ok cfg | None => Err BucketMissing end).

(** The nested loops of [delete]: every kind for every sizing id, each
    deletion awaited with [?] before the pair is pushed. *)
Fixpoint purge_kinds (bucket_id sizing_id : N) (image_id : string) (ks : list ImageKind)
    (acc : list (N * ImageKind)) : ST GcpState (list (N * ImageKind)) :=
  match ks with
  | [] => st_ret acc
  | k :: ks' =>
      _ <- client_delete (format_path bucket_id sizing_id image_id k) ;;
      purge_kinds bucket_id sizing_id image_id ks' (acc ++ [(sizing_id, k)])
  end.

Fixpoint purge_sizes (bucket_id : N) (image_id : string) (zs : list N)
    (acc : list (N * ImageKind)) : ST GcpState (list (N * ImageKind)) :=
  match zs with
  | [] => st_ret acc
  | z :: zs' =>
      acc' <- purge_kinds bucket_id z image_id variants acc ;;
      purge_sizes bucket_id image_id zs' acc'
  end.

Definition gcp_delete (bucket_id : N) (image_id : string) : ST GcpState (list (N * ImageKind)) :=
  bucket <- registry_lookup bucket_id ;;
  purge_sizes bucket_id image_id (sizing_preset_ids bucket) [].

End Gcp.

#[export] Instance Gcp_backend (policy : ClientPolicy) : StorageBackend GcpState := {
  sb_store := gcp_store;
  sb_fetch := gcp_fetch policy;
  sb_delete := gcp_delete policy;
}.

(** ** Construction ([GCPCloudStorageBackend::new], lines 15-31) *)

(** What [new] touches outside the backend: the process environment, and
    the cloud's answer to a bucket read, which depends on the service
    account the client authenticates with. *)
Record Process := {
  env_vars : gmap string string;
  can_read : gset (string * string);   (* (service account path, bucket name) *)
}.

(** The [GCPCloudStorageBackend] struct: the bucket name (the client has
    no state of its own in the model). *)
Record GcpClient := { bucket_name : string }.

(** [std::env::set_var]. *)
Definition set_env (k v : string) (p : Process) : Process :=
  {| env_vars := <[k := v]> (env_vars p); can_read := can_read p |}.

(** [new]: set [SERVICE_ACCOUNT], build the client from the environment,
    and read the bucket, failing if the account cannot. *)
Definition gcp_new (bucket_name service_account_path : string) : ST Process GcpClient :=
  λ p, let p' := set_env "SERVICE_ACCOUNT" service_account_path p in
       match env_vars p' !! "SERVICE_ACCOUNT" with
       | Some account =>
           if decide ((account, bucket_name) ∈ can_read p')
           then (p', Ok {| bucket_name := bucket_name |})
           else (p', Err (StorageError "bucket read failed"))
       | None => (p', Err (StorageError "SERVICE_ACCOUNT not set"))
       end.

(** ** Properties *)

Section GcpFacts.
Context (policy : ClientPolicy).

Lemma purge_kinds_lenient b z i ks acc st :
  delete_missing_fails policy = false →
  purge_kinds policy b z i ks acc st =
  (set_objects (foldl (λ m k, delete (format_path b z i k) m) (gcs_objects st) ks) st,
   Ok (acc ++ map (λ k, (z, k)) ks)).
Proof.
  intros Hp. revert acc st. induction ks as [|k ks IH]; intros acc st; simpl.
  - rewrite app_nil_r. by destruct st.
  - unfold st_bind, client_delete. rewrite Hp.
    destruct (gcs_objects st !! format_path b z i k) eqn:E; rewrite IH; simpl;
      rewrite <- app_assoc; [done|].
    by rewrite delete_id.
Qed.

Lemma purge_sizes_lenient b i zs acc st :
  delete_missing_fails policy = false →
  (purge_sizes policy b i zs acc st).2 = Ok (acc ++ list_prod zs variants).
Proof.
  intros Hp. revert acc st. induction zs as [|z zs IH]; intros acc st; cbn [purge_sizes].
  - by rewrite app_nil_r.
  - unfold st_bind. rewrite purge_kinds_lenient by done. rewrite IH, <- app_assoc. done.
Qed.

(** Purging only removes objects. *)
Lemma purge_kinds_absent b z i ks acc st p :
  gcs_objects st !! p = None → gcs_objects (purge_kinds policy b z i ks acc st).1 !! p = None.
Proof.
  revert acc st. induction ks as [|k ks IH]; intros acc st Hp; simpl; [done|].
  unfold st_bind, client_delete.
  destruct (gcs_objects st !! format_path b z i k); [|destruct (delete_missing_fails policy); [done|by apply IH]].
  apply IH. simpl. rewrite lookup_delete. by case_decide.
Qed.

Lemma purge_kinds_strict b z i ks acc st k :
  delete_missing_fails policy = true → k ∈ ks →
  gcs_objects st !! format_path b z i k = None →
  ∃ e, (purge_kinds policy b z i ks acc st).2 = Err e.
Proof.
  intros Hp. revert acc st. induction ks as [|k' ks IH]; intros acc st Hk Hmiss; [set_solver|].
  simpl. unfold st_bind, client_delete at 1.
  destruct (gcs_objects st !! format_path b z i k') eqn:E; [|rewrite Hp; eauto].
  apply elem_of_cons in Hk as [->|Hk]; [congruence|].
  apply IH; [done|]. simpl. rewrite lookup_delete. by case_decide.
Qed.

Lemma purge_sizes_strict b i zs acc st z k :
  delete_missing_fails policy = true → z ∈ zs →
  gcs_objects st !! format_path b z i k = None →
  ∃ e, (purge_sizes policy b i zs acc st).2 = Err e.
Proof.
  intros Hp. revert acc st. induction zs as [|z' zs IH]; intros acc st Hz Hmiss; [set_solver|].
  cbn [purge_sizes]. unfold st_bind.
  destruct (purge_kinds policy b z' i variants acc st) as [st1 [acc'|e]] eqn:E; [|eauto].
  destruct (decide (z = z')) as [->|Hne].
  - destruct (purge_kinds_strict b z' i variants acc st k Hp (variants_complete k) Hmiss) as [e He].
    by rewrite E in He.
  - apply elem_of_cons in Hz as [->|Hz]; [done|]. apply IH; [done|].
    pose proof (purge_kinds_absent b z' i variants acc st _ Hmiss) as Ha. by rewrite E in Ha.
Qed.

Lemma purge_kinds_objects b z i ks acc st :
  delete_missing_fails policy = false →
  gcs_objects (purge_kinds policy b z i ks acc st).1 =
  foldl (λ m zk, delete (format_path b zk.1 i zk.2) m) (gcs_objects st) (map (λ k, (z, k)) ks).
Proof.
  intros Hp. rewrite purge_kinds_lenient by done. simpl. generalize (gcs_objects st).
  induction ks as [|k ks IH]; intros m; simpl; [done|]. apply IH.
Qed.

Lemma purge_sizes_objects b i zs acc st :
  delete_missing_fails policy = false →
  gcs_objects (purge_sizes policy b i zs acc st).1 =
  foldl (λ m zk, delete (format_path b zk.1 i zk.2) m) (gcs_objects st) (list_prod zs variants).
Proof.
  intros Hp. revert acc st. induction zs as [|z zs IH]; intros acc st; cbn [purge_sizes list_prod]; [done|].
  unfold st_bind. pose proof (purge_kinds_objects b z i variants acc st Hp) as Ho.
  pose proof (purge_kinds_lenient b z i variants acc st Hp) as E.
  destruct (purge_kinds policy b z i variants acc st) as [st1 r1]. injection E as _ ->.
  cbn [fst] in Ho. rewrite IH, foldl_app, <- Ho. done.
Qed.

Lemma lookup_foldl_delete {A} (f : A → string) (l : list A) (m : gmap string bytes) x :
  foldl (λ m a, delete (f a) m) m l !! x = if decide (x ∈ f <$> l) then None else m !! x.
Proof.
  revert m. induction l as [|a l IH]; intros m; cbn [foldl].
  - rewrite decide_False; [done|]. set_solver.
  - rewrite IH, lookup_delete, fmap_cons. repeat case_decide; set_solver.
Qed.

(** The fields of an object path can be read back from it. *)
Lemma format_path_fields b z i k b' z' i' k' :
  format_path b z i k = format_path b' z' i' k' → b = b' ∧ z = z' ∧ i = i' ∧ k = k'.
Proof.
  unfold format_path. rewrite !sep_app. intros H.
  apply split_first in H as [Hb H]; auto with lust.
  apply split_first in H as [Hz H]; auto with lust.
  apply split_last in H as [Hi Hk]; try apply as_file_extension_no_sep.
  apply dec_inj in Hb, Hz. apply as_file_extension_inj in Hk. done.
Qed.

(** C31: object paths name bucket, sizing id, image id and kind uniquely. *)
Theorem format_path_inj b z i k b' z' i' k' :
  format_path b z i k = format_path b' z' i' k' ↔ (b, z, i, k) = (b', z', i', k').
Proof.
  split; [|by intros [= -> -> -> ->]].
  intros H. apply format_path_fields in H as (-> & -> & -> & ->). done.
Qed.

(** C30: an object stored by this backend reads back as stored, except
    an empty one, which reads back as "not found" ([object.is_empty()]). *)
Theorem gcp_store_fetch b i k z d st :
  (gcp_fetch policy b i k z (gcp_store b i k z d st).1).2 =
  Ok (if decide (d = []) then None else Some d).
Proof.
  unfold gcp_fetch, gcp_store, client_create, st_bind, client_download. simpl.
  by rewrite lookup_insert_eq.
Qed.

(** C28: with a client that ignores missing objects, a successful purge
    reports every registered sizing id with every kind, in loop order,
    whether or not such a variant was ever stored. *)
Theorem gcp_delete_reports_all b i st m cfg :
  delete_missing_fails policy = false →
  gcs_registry st = Some m → m !! b = Some cfg →
  (gcp_delete policy b i st).2 = Ok (list_prod (sizing_preset_ids cfg) variants).
Proof.
  intros Hp Hr Hb. unfold gcp_delete, st_bind, registry_lookup, get_bucket_by_id.
  rewrite Hr, Hb. by rewrite purge_sizes_lenient.
Qed.

(** C27: with a client that fails on a missing object, purging an image
    that lacks any registered (sizing id, kind) variant fails, after the
    variants before it in loop order were deleted. *)
Theorem gcp_delete_strict_fails b i st m cfg z k :
  delete_missing_fails policy = true →
  gcs_registry st = Some m → m !! b = Some cfg → z ∈ sizing_preset_ids cfg →
  gcs_objects st !! format_path b z i k = None →
  ∃ e, (gcp_delete policy b i st).2 = Err e.
Proof.
  intros Hp Hr Hb Hz Hmiss. unfold gcp_delete, st_bind, registry_lookup, get_bucket_by_id.
  rewrite Hr, Hb. eapply purge_sizes_strict; eauto.
Qed.

(** C29: C?: with a client that ignores missing objects, a successful purge
    removes every object of the image at a sizing id the bucket's
    configuration lists, in every kind, and leaves every object of the
    image at any other sizing id where it was: variants stored under a
    preset the configuration no longer lists are never deleted. *)
Theorem gcp_delete_objects b i st m cfg z k :
  delete_missing_fails policy = false →
  gcs_registry st = Some m → m !! b = Some cfg →
  gcs_objects (gcp_delete policy b i st).1 !! format_path b z i k =
  if decide (z ∈ sizing_preset_ids cfg) then None else gcs_objects st !! format_path b z i k.
Proof.
  intros Hp Hr Hb. unfold gcp_delete, st_bind, registry_lookup, get_bucket_by_id.
  rewrite Hr, Hb. simpl. rewrite purge_sizes_objects, lookup_foldl_delete by done. simpl.
  case_decide as Hin; case_decide as Hz; try done; exfalso.
  - apply list_elem_of_fmap in Hin as ([z' k'] & Hf & Hp'). apply Hz.
    apply format_path_fields in Hf as (_ & -> & _ & _). apply list_elem_of_In. apply list_elem_of_In in Hp'.
    by apply in_prod_iff in Hp' as [? _].
  - apply Hin, list_elem_of_fmap. exists (z, k). split; [done|].
    apply list_elem_of_In, in_prod; apply list_elem_of_In; [done|apply variants_complete].
Qed.

(** C32: a purge issued before the registry was initialised fails and leaves
    the registry initialised empty for the rest of the process. *)
Theorem gcp_delete_uninitialised_registry b i st :
  gcs_registry st = None →
  gcp_delete policy b i st = ({| gcs_objects := gcs_objects st; gcs_registry := Some ∅ |},
                              Err BucketMissing).
Proof. intros Hr. unfold gcp_delete, st_bind, registry_lookup, get_bucket_by_id. by rewrite Hr. Qed.

End GcpFacts.

(** Writes of different variants go to different paths, so they commute. *)
Lemma gcp_store_comm b i k z d k' z' d' st :
  (k, z) ≠ (k', z') →
  (gcp_store b i k' z' d' (gcp_store b i k z d st).1).1 =
    (gcp_store b i k z d (gcp_store b i k' z' d' st).1).1 ∧
  (gcp_store b i k' z' d' (gcp_store b i k z d st).1).2 = (gcp_store b i k' z' d' st).2.
Proof.
  intros Hne. unfold gcp_store, client_create, set_objects. simpl. split; [|done].
  f_equal. apply insert_insert_ne. intros Hp.
  apply format_path_fields in Hp as (_ & Hz & _ & Hk). congruence.
Qed.

#[export] Instance Gcp_commutes (policy : ClientPolicy) : @StoreCommutes GcpState (Gcp_backend policy) := {
  sb_store_comm := gcp_store_comm;
}.
