(* ===== verification/Backends.v ===== *)
(** * Backends: [src/storage/backends/register.rs], choosing a backend

    [BackendConfigs] is the configuration file's description of the
    storage backend, a [serde] enum with [rename_all = "lowercase"]: an
    object with one key, the variant's lowercase name, whose value holds
    the variant's fields.  [deserialize] is what the derived
    [Deserialize] accepts, over a small JSON-like [Value]: a required
    field must be present once, an [Option] field may be absent or
    [null], [store_public] defaults to [false], and unknown fields are
    ignored.  [connect] builds the backend of the variant; the
    constructors of the file-system, blob-storage and Scylla backends are
    not under [src/] and are section variables, while the cloud backend is
    [gcp_new] of [GcpBackend].

    The theorems: a successful [connect] yields the backend of the
    configured variant, and connecting to the cloud sets
    [SERVICE_ACCOUNT] for the whole process even when it fails. *)

From S2P Require Import Prelude Config Storage GcpBackend.
Open Scope lust_scope.

Inductive BackendConfigs :=
  | Scylla (nodes : list string) (username password : option string) (keyspace : string)
      (table : option string)
  | FileSystem (directory : string)
  | BlobStorage (name region endpoint : string) (store_public : bool)
  | GCPCloudStorage (name service_account : string).

(** ** Deserialisation *)

Inductive Value :=
  | VNull
  | VBool (b : bool)
  | VStr (s : string)
  | VList (l : list Value)
  | VObj (fields : list (string * Value)).

(** A field of a struct variant: [None] is an error (the field appears
    twice), [Some None] an absent field. *)
Definition get_field (name : string) (fs : list (string * Value)) : option (option Value) :=
  match filter (λ kv : string * Value, kv.1 = name) fs with
  | [] => Some None
  | [(_, v)] => Some (Some v)
  | _ => None
  end.

Definition as_string (v : Value) : option string :=
  if v is VStr s then Some s else None.

Definition as_opt_string (v : option Value) : option (option string) :=
  match v with
  | None | Some VNull => Some None
  | Some (VStr s) => Some (Some s)
  | Some _ => None
  end.

Fixpoint as_strings (l : list Value) : option (list string) :=
  match l with
  | [] => Some []
  | VStr s :: l' => (λ ss, s :: ss) <$> as_strings l'
  | _ :: _ => None
  end.

Definition required {A} (conv : Value → option A) (v : option Value) : option A :=
  v ≫= conv.

Definition deserialize_fields (tag : string) (fs : list (string * Value)) : option BackendConfigs :=
  if String.eqb tag "scylla" then
    nodes ← get_field "nodes" fs ≫= required (λ v, if v is VList l then as_strings l else None);
    username ← get_field "username" fs ≫= as_opt_string;
    password ← get_field "password" fs ≫= as_opt_string;
    keyspace ← get_field "keyspace" fs ≫= required as_string;
    table ← get_field "table" fs ≫= as_opt_string;
    Some (Scylla nodes username password keyspace table)
  else if String.eqb tag "filesystem" then
    directory ← get_field "directory" fs ≫= required as_string;
    Some (FileSystem directory)
  else if String.eqb tag "blobstorage" then
    name ← get_field "name" fs ≫= required as_string;
    region ← get_field "region" fs ≫= required as_string;
    endpoint ← get_field "endpoint" fs ≫= required as_string;
    store_public ← get_field "store_public" fs ≫=
      (λ v, match v with None => Some false | Some (VBool b) => Some b | Some _ => None end);
    Some (BlobStorage name region endpoint store_public)
  else if String.eqb tag "gcpcloudstorage" then
    name ← get_field "name" fs ≫= required as_string;
    service_account ← get_field "service_account" fs ≫= required as_string;
    Some (GCPCloudStorage name service_account)
  else None.

(** The externally tagged enum: one key, the variant's name. *)
Definition deserialize (v : Value) : option BackendConfigs :=
  match v with
  | VObj [(tag, VObj fs)] => deserialize_fields tag fs
  | _ => None
  end.

(** ** [BackendConfigs::connect] (lines 43-96) *)

Section Connect.
Context {Blob Scy : Type}.
(** [BlobStorageBackend::new(name, region, endpoint, store_public)]. *)
Context (blob_new : string → string → string → bool → result Blob).
(** [ScyllaBackend::connect(keyspace, table, nodes, username, password)]. *)
Context (scylla_connect : string → option string → list string → option string → option string →
                          ST Process Scy).

(** The [Arc<dyn StorageBackend>] that [connect] returns. *)
Inductive Backend :=
  | FileSystemBackend (directory : string)
  | BlobStorageBackend (b : Blob)
  | GCPCloudStorageBackend (c : GcpClient)
  | ScyllaBackend (s : Scy).

Definition connect (c : BackendConfigs) : ST Process Backend :=
  match c with
  | FileSystem directory => st_ret (FileSystemBackend directory)
  | BlobStorage name region endpoint store_public =>
      st_lift match blob_new name region endpoint store_public with
              | Ok b => Ok (BlobStorageBackend b)
              | Err e => Err e
              end
  | GCPCloudStorage name service_account =>
      backend <- gcp_new name service_account ;;
      st_ret (GCPCloudStorageBackend backend)
  | Scylla nodes username password keyspace table =>
      backend <- scylla_connect keyspace table nodes username password ;;
      st_ret (ScyllaBackend backend)
  end.

(** Which variant a configuration and a backend are. *)
Definition config_variant (c : BackendConfigs) : nat :=
  match c with Scylla _ _ _ _ _ => 0 | FileSystem _ => 1 | BlobStorage _ _ _ _ => 2
             | GCPCloudStorage _ _ => 3 end.

Definition backend_variant (b : Backend) : nat :=
  match b with ScyllaBackend _ => 0 | FileSystemBackend _ => 1 | BlobStorageBackend _ => 2
             | GCPCloudStorageBackend _ => 3 end.

End Connect.

Section ConnectFacts.
Context {Blob Scy : Type} (blob_new : string → string → string → bool → result Blob)
  (scylla_connect : string → option string → list string → option string → option string →
                    ST Process Scy).

(** A backend that [connect] returns is of the configured variant. *)
Theorem connect_variant c p p' b :
  connect blob_new scylla_connect c p = (p', Ok b) → backend_variant b = config_variant c.
Proof.
  destruct c; simpl; unfold st_bind, st_lift, st_ret.
  - destruct (scylla_connect _ _ _ _ _ p) as [? []]; by intros [= _ <-].
  - by intros [= _ <-].
  - destruct (blob_new _ _ _ _); by intros [= _ <-].
  - destruct (gcp_new _ _ p) as [? []]; by intros [= _ <-].
Qed.

(** C34: connecting to the cloud backend sets [SERVICE_ACCOUNT] for the
    whole process, whether or not the bucket can be read, and succeeds
    exactly when the account can read the bucket. *)
Theorem connect_gcp_env n sa p :
  (connect blob_new scylla_connect (GCPCloudStorage n sa) p).1 = set_env "SERVICE_ACCOUNT" sa p ∧
  ((connect blob_new scylla_connect (GCPCloudStorage n sa) p).2 =
     Ok (GCPCloudStorageBackend {| bucket_name := n |}) ↔ (sa, n) ∈ can_read p) ∧
  (∀ b, (connect blob_new scylla_connect (GCPCloudStorage n sa) p).2 = Ok b →
        b = GCPCloudStorageBackend {| bucket_name := n |}).
Proof.
  simpl. unfold st_bind, gcp_new. simpl. rewrite lookup_insert_eq. simpl.
  case_decide; simpl; split_and!; try done; naive_solver.
Qed.

End ConnectFacts.
