(* ===== verification/Scenarios.v ===== *)
(** * Scenarios: concrete runs of the controller

    A small pipeline ([ThumbPipeline]) that stores the original and a
    one-byte "thumb" variant on upload and reverses the bytes on fetch,
    the reference backend [MemStorage], and worlds with a bucket cache,
    with only the shared cache, and with a failing backend, and the cloud
    backend.  It holds one witness per theorem with hypotheses, which
    applies the theorem where its hypotheses hold (the failed-delete
    witness runs on the cloud backend, whose purge fails part-way), and
    the CRC-32 collision behind a finding on preset names. *)

From S2P Require Import Prelude Config Utils Pipeline Storage Cache Admission Interleaving Controller.
From S2P Require Import Coherence FanOut Transparency Roundtrip Registry GcpBackend Backends.
Open Scope lust_scope.

Inductive ThumbPipeline := thumb_pipeline.

Definition thumb_id : N := crc_hash "thumb".

#[export] Instance ThumbPipeline_pipeline : Pipeline ThumbPipeline := {
  on_upload := λ _ k d,
    Ok {| to_store := [{| data := d; kind := k; sizing_id := 0 |};
                       {| data := firstn 1 d; kind := k; sizing_id := thumb_id |}];
          response := None |};
  on_fetch := λ _ desired _ d z _,
    Ok {| to_store := [{| data := rev d; kind := desired; sizing_id := z |}];
          response := Some {| data := rev d; kind := desired; sizing_id := z |} |};
}.

(** A stand-in digest: the theorems hold for every [sha256]. *)
Definition demo_sha256 (d : bytes) : bytes := d.

Definition demo_cfg (m : ProcessingMode) : BucketConfig := {|
  mode := m; original_image_store_format := Png; default_serving_preset := None;
  max_concurrency := Some 2; sizing_preset_ids := [0%N; thumb_id] |}.

Definition demo_ctl (m : ProcessingMode) : BucketController ThumbPipeline :=
  {| bucket_id := 7; config := demo_cfg m; pipeline := thumb_pipeline |}.

Definition mem0 : MemStorage := {| objects := ∅; faulty := ∅ |}.

(** A world with a bucket cache, and one with only the shared cache. *)
Definition world_local (st : MemStorage) : World MemStorage := {|
  storage := st; local_cache := Some ∅; global_cache := None;
  global_limiter := None; limiter := Some (semaphore_new 2); pipeline_log := [] |}.

Definition world_shared (st : MemStorage) : World MemStorage := {|
  storage := st; local_cache := None; global_cache := Some ∅;
  global_limiter := None; limiter := Some (semaphore_new 2); pipeline_log := [] |}.

Definition abc : bytes := string_bytes "abc".

Definition abc_id : string := sha256_hash demo_sha256 abc.

(** Storage holding the original of ["abc"] and its thumb. *)
Definition mem_abc : MemStorage := {|
  objects := <[(7%N, abc_id, Png, thumb_id) := firstn 1 abc]> {[(7%N, abc_id, Png, 0%N) := abc]};
  faulty := ∅ |}.

(** A bucket cache that already holds the original of ["abc"]. *)
Definition world_cached (st : MemStorage) : World MemStorage := {|
  storage := st; local_cache := Some {[cache_key 7 0 abc_id Png := abc]}; global_cache := None;
  global_limiter := None; limiter := Some (semaphore_new 2); pipeline_log := [] |}.

(** A bucket without a cache of its own whose shared cache holds the thumb. *)
Definition world_shared_thumb (st : MemStorage) : World MemStorage := {|
  storage := st; local_cache := None; global_cache := Some {[cache_key 7 thumb_id abc_id Png := firstn 1 abc]};
  global_limiter := None; limiter := Some (semaphore_new 2); pipeline_log := [] |}.

(** The entries the upload hook produces for ["abc"] in kind PNG. *)
Definition abc_entries : list StoreEntry :=
  [{| data := abc; kind := Png; sizing_id := 0 |};
   {| data := firstn 1 abc; kind := Png; sizing_id := thumb_id |}].

(** A backend whose write of the thumb fails. *)
Definition mem_thumb_fails : MemStorage := {| objects := ∅; faulty := {[(7%N, abc_id, Png, thumb_id)]} |}.

Definition demo_zero_cfg : BucketConfig := {|
  mode := Aot; original_image_store_format := Png; default_serving_preset := None;
  max_concurrency := Some 0; sizing_preset_ids := [0%N; thumb_id] |}.

(** The cloud bucket after an upload of ["abc"] to bucket 7, with the
    process registry initialised with the bucket's configuration. *)
Definition gcs_abc : GcpState := {|
  gcs_objects := {[format_path 7 0 abc_id Png := abc; format_path 7 thumb_id abc_id Png := firstn 1 abc]};
  gcs_registry := Some {[7%N := demo_cfg Aot]} |}.

(** The same bucket with a variant at sizing id 99, a preset the
    configuration does not list (any longer). *)
Definition gcs_orphan : GcpState := {|
  gcs_objects := <[format_path 7 99 abc_id Png := abc]> (gcs_objects gcs_abc);
  gcs_registry := gcs_registry gcs_abc |}.

Definition strict_client : ClientPolicy := {| download_missing_fails := true; delete_missing_fails := true |}.
Definition lenient_client : ClientPolicy := {| download_missing_fails := false; delete_missing_fails := false |}.

(** Two requests of two buckets with local limits of two that share a
    global limiter of capacity one, the first one running. *)
Definition two_buckets : gmap N nat := {[1%N := 2; 2%N := 2]}.

Definition two_buckets_running : Interleaving.AState := {|
  Interleaving.a_global := Some {| permits := 0; closed := false |};
  Interleaving.a_locals := semaphore_new <$> two_buckets;
  Interleaving.a_reqs := [{| Interleaving.req_bucket := 1; Interleaving.phase := Interleaving.Running (Some GlobalLimiter) |};
                         {| Interleaving.req_bucket := 2; Interleaving.phase := Interleaving.Waiting |}] |}.

Definition orig_entry : StoreEntry := {| data := abc; kind := Png; sizing_id := 0 |}.
Definition thumb_entry : StoreEntry := {| data := firstn 1 abc; kind := Png; sizing_id := thumb_id |}.

(** The controller on the cloud backend with a client that fails on a
    missing object, with a bucket cache holding the original. *)
Definition gcs_fetch := @fetch GcpState ThumbPipeline (Gcp_backend strict_client) _ (demo_ctl Aot).
Definition gcs_delete := @delete GcpState ThumbPipeline (Gcp_backend strict_client) (demo_ctl Aot).

Definition world_gcs : World GcpState := {|
  storage := gcs_abc; local_cache := Some {[cache_key 7 0 abc_id Png := abc]}; global_cache := None;
  global_limiter := None; limiter := Some (semaphore_new 2); pipeline_log := [] |}.

(** A process whose service account ["sa.json"] can read the bucket
    ["images"], and backend constructors that are never reached. *)
Definition cloud_process : Process := {| env_vars := ∅; can_read := {[("sa.json", "images")]} |}.
Definition no_blob (n r e : string) (p : bool) : result unit := Err (StorageError "unsupported").
Definition no_scylla (ks : string) (t : option string) (nodes : list string) (u pw : option string)
    : ST Process unit := st_lift (Err (StorageError "unsupported")).

(** A pipeline whose upload hook rejects every image. *)
Inductive RejectPipeline := reject_pipeline.

#[export] Instance RejectPipeline_pipeline : Pipeline RejectPipeline := {
  on_upload := λ _ _ _, Err (PipelineError "unsupported");
  on_fetch := λ _ _ _ _ _ _, Err (PipelineError "unsupported");
}.

Definition reject_ctl : BucketController RejectPipeline :=
  {| bucket_id := 7; config := demo_cfg Aot; pipeline := reject_pipeline |}.

(** A session: upload ["abc"], fetch it, delete it, fetch it again. *)
Definition demo_calls : list Call :=
  [UploadCall Png abc; FetchCall abc_id Png None None; DeleteCall abc_id;
   FetchCall abc_id Png None None].

Definition no_failed_delete (ans : list Answer) : bool :=
  forallb (λ a, if a is DeleteAnswer (Err _) then false else true) ans.

(** ** Helpers *)

(** A call that gave its permit back leaves the next call free to run. *)
Lemma permit_free_after {A B} (body : ST (World MemStorage) A) (body' : ST (World MemStorage) B)
    (w w1 : World MemStorage) r :
  Keeps limiters body → with_permit body w = Some (w1, r) →
  (∀ lr s, get_optional_permit (global_limiter w) (limiter w) = Some (lr, s) →
           closed s = true ∨ 0 < permits s) →
  is_Some (with_permit body' w1).
Proof.
  intros Hk H Hf. apply with_permit_some. pose proof (with_permit_restores _ _ _ _ Hk H) as Hl.
  unfold limiters in Hl. injection Hl as -> ->. exact Hf.
Qed.

Lemma run_err {W A} (o : option (W * result A)) (P : W → error → Prop) :
  (if o is Some (_, Err _) then true else false) = true → (∀ w e, o = Some (w, Err e) → P w e) →
  match o with Some (w, Err e) => P w e | _ => False end.
Proof. destruct o as [[w [a|e]]|]; naive_solver. Qed.

Lemma no_failed_delete_sound ans : no_failed_delete ans = true → ∀ e, DeleteAnswer (Err e) ∉ ans.
Proof.
  unfold no_failed_delete. rewrite forallb_forall. intros H e Hin.
  apply list_elem_of_In, H in Hin. discriminate.
Qed.

(** A run that returns: what holds of every result it may return holds of
    the result. *)
Lemma run_some {A} (o : option A) (P : A → Prop) :
  is_Some o → (∀ a, o = Some a → P a) → match o with Some a => P a | None => False end.
Proof. intros [a ->] H. by apply H. Qed.

(** A run that returns successfully. *)
Lemma run_ok {W A} (o : option (W * result A)) (P : W → A → Prop) :
  (if o is Some (_, Ok _) then true else false) = true → (∀ w a, o = Some (w, Ok a) → P w a) →
  match o with Some (w, Ok a) => P w a | _ => False end.
Proof. destruct o as [[w [a|e]]|]; naive_solver. Qed.

Lemma coherent_empty_local {P} (ctl : BucketController P) (w : World MemStorage) :
  local_cache w = Some ∅ → coherent ctl w.
Proof.
  intros Hl r c Hr Hc. unfold read_cache in Hr. rewrite Hl in Hr. injection Hr as <-.
  simpl in Hc. rewrite Hl in Hc. injection Hc as <-. intros z i k v Hv. done.
Qed.

(** The bucket cache of [world_cached] agrees with the storage of
    ["abc"]. *)
Lemma coherent_world_cached m : coherent (demo_ctl m) (world_cached mem_abc).
Proof.
  intros r c Hr Hc. unfold read_cache in Hr. simpl in Hr. injection Hr as <-. simpl in Hc.
  injection Hc as <-. intros z i k v Hv. unfold cache_get in Hv.
  apply lookup_singleton_Some in Hv as [Hk <-]. apply cache_key_fields in Hk as (<- & <- & <- & <-).
  reflexivity.
Qed.

(** ** Witnesses of the fetch theorems *)

Lemma fetch_aot_returns_stored_witness :
  match fetch (demo_ctl Aot) abc_id Png (Some "thumb"%string) None (world_local mem_abc) with
  | Some (w', r) =>
      (∃ e, r = Err e) ∨
      r = Ok ((λ v, {| data := v; kind := Png;
                       sizing_id := resolve_sizing_id (demo_ctl Aot) (Some "thumb"%string) |}) <$>
              contents (storage (world_local mem_abc))
                (bucket_id (demo_ctl Aot), abc_id, Png,
                 resolve_sizing_id (demo_ctl Aot) (Some "thumb"%string)))
  | None => False
  end.
Proof.
  apply run_some; [apply (bool_decide_unpack _); vm_compute; reflexivity|]. intros [w' r] E.
  apply (fetch_aot_returns_stored (demo_ctl Aot) abc_id Png (Some "thumb"%string) None
           (world_local mem_abc) w' r); [by apply coherent_empty_local | reflexivity | exact E].
Defined.

Lemma fetch_aot_no_pipeline_witness :
  match fetch (demo_ctl Aot) abc_id Png (Some "thumb"%string) None (world_local mem_abc) with
  | Some (w', r) =>
      pipeline_log w' = pipeline_log (world_local mem_abc) ∧
      ∀ e, r = Ok (Some e) → kind e = Png ∧
           sizing_id e = resolve_sizing_id (demo_ctl Aot) (Some "thumb"%string)
  | None => False
  end.
Proof.
  apply run_some; [apply (bool_decide_unpack _); vm_compute; reflexivity|]. intros [w' r] E.
  apply (fetch_aot_no_pipeline (demo_ctl Aot) abc_id Png (Some "thumb"%string) None
           (world_local mem_abc) w' r); [reflexivity | exact E].
Defined.

Lemma fetch_jit_hit_reinvokes_witness :
  match fetch (demo_ctl Jit) abc_id Png None None (world_cached mem_abc) with
  | Some (w', r) =>
      r = Err AcquireError ∨
      pipeline_log w' = pipeline_log (world_cached mem_abc) ++
                          [CallOnFetch Png Png (resolve_sizing_id (demo_ctl Jit) None)]
  | None => False
  end.
Proof.
  apply run_some; [apply (bool_decide_unpack _); vm_compute; reflexivity|]. intros [w' r] E.
  apply (fetch_jit_hit_reinvokes (demo_ctl Jit) abc_id Png None None (world_cached mem_abc) w' r
           LocalCacheRef {[cache_key 7 0 abc_id Png := abc]} abc);
    [reflexivity | reflexivity | reflexivity | vm_compute; reflexivity | exact E].
Defined.

Lemma fetch_jit_miss_derives_witness :
  match fetch (demo_ctl Jit) abc_id Jpeg None None (world_local mem_abc) with
  | Some (w', r) =>
      (∃ e, r = Err e) ∨
      (pipeline_log w' = pipeline_log (world_local mem_abc) ++
         [CallOnFetch Jpeg (original_image_store_format (config (demo_ctl Jit)))
            (resolve_sizing_id (demo_ctl Jit) None)] ∧
       ∃ res, on_fetch (pipeline (demo_ctl Jit)) Jpeg
                (original_image_store_format (config (demo_ctl Jit))) abc
                (resolve_sizing_id (demo_ctl Jit) None) None = Ok res ∧ r = Ok (response res))
  | None => False
  end.
Proof.
  apply run_some; [apply (bool_decide_unpack _); vm_compute; reflexivity|]. intros [w' r] E.
  apply (fetch_jit_miss_derives (demo_ctl Jit) abc_id Jpeg None None (world_local mem_abc) w' r abc);
    [by apply coherent_empty_local | reflexivity | vm_compute; reflexivity
    | vm_compute; reflexivity | exact E].
Defined.

Lemma fetch_realtime_original_witness :
  match fetch (demo_ctl Realtime) abc_id Jpeg (Some "thumb"%string) None (world_local mem_abc) with
  | Some (w', r) =>
      (∃ e, r = Err e) ∨
      (contents (storage (world_local mem_abc))
         (bucket_id (demo_ctl Realtime), abc_id,
          original_image_store_format (config (demo_ctl Realtime)), 0%N) = None ∧ r = Ok None) ∨
      (∃ o res, contents (storage (world_local mem_abc))
                  (bucket_id (demo_ctl Realtime), abc_id,
                   original_image_store_format (config (demo_ctl Realtime)), 0%N) = Some o ∧
                on_fetch (pipeline (demo_ctl Realtime)) Jpeg
                  (original_image_store_format (config (demo_ctl Realtime))) o
                  (resolve_sizing_id (demo_ctl Realtime) (Some "thumb"%string)) None = Ok res ∧
                r = Ok (response res))
  | None => False
  end.
Proof.
  apply run_some; [apply (bool_decide_unpack _); vm_compute; reflexivity|]. intros [w' r] E.
  apply (fetch_realtime_original (demo_ctl Realtime) abc_id Jpeg (Some "thumb"%string) None
           (world_local mem_abc) w' r); [by apply coherent_empty_local | reflexivity | exact E].
Defined.

Lemma caching_fetch_correct_witness :
  let '(w', r) := caching_fetch (demo_ctl Aot) abc_id Png 0 (world_local mem_abc) in
  coherent (demo_ctl Aot) w' ∧ storage w' = storage (world_local mem_abc) ∧
  (r = Ok (contents (storage (world_local mem_abc)) (bucket_id (demo_ctl Aot), abc_id, Png, 0%N)) ∨
   ∃ e, r = Err e) ∧
  ∀ rc v, read_cache (world_local mem_abc) = Some rc → r = Ok (Some v) →
    (cache_of rc w' ≫= λ c, cache_get c (cache_key (bucket_id (demo_ctl Aot)) 0 abc_id Png)) = Some v.
Proof.
  destruct (caching_fetch _ _ _ _ _) as [w' r] eqn:E.
  apply (caching_fetch_correct (demo_ctl Aot) abc_id Png 0 (world_local mem_abc) w' r);
    [by apply coherent_empty_local | exact E].
Defined.

(** ** Witnesses of the other theorems with hypotheses *)

Lemma operations_preserve_coherence_witness :
  (∀ w' r, upload demo_sha256 (demo_ctl Jit) Png abc (world_local mem_abc) = Some (w', r) →
           coherent (demo_ctl Jit) w') ∧
  (∀ w' r, fetch (demo_ctl Jit) abc_id Jpeg None None (world_local mem_abc) = Some (w', r) →
           coherent (demo_ctl Jit) w') ∧
  (∀ w', delete (demo_ctl Jit) abc_id (world_local mem_abc) = Some (w', Ok tt) →
         coherent (demo_ctl Jit) w').
Proof.
  apply (operations_preserve_coherence demo_sha256 (demo_ctl Jit) (world_local mem_abc)
           Png abc abc_id Jpeg None None); [by eexists | by apply coherent_empty_local].
Defined.

Lemma fan_out_no_cancellation_witness :
  let '(w', rs) := run_tasks (demo_ctl Aot) abc_id abc_entries (world_local mem_thumb_fails) in
  length rs = length abc_entries ∧
  ∀ j e, abc_entries !! j = Some e → rs !! j = Some (Ok tt) →
    contents (storage w') (bucket_id (demo_ctl Aot), abc_id, kind e, sizing_id e) = Some (data e) ∧
    (is_Some (local_cache (world_local mem_thumb_fails)) →
     local_get w' (cache_key (bucket_id (demo_ctl Aot)) (sizing_id e) abc_id (kind e)) = Some (data e)).
Proof.
  destruct (run_tasks _ _ _ _) as [w' rs] eqn:E.
  apply (fan_out_no_cancellation (demo_ctl Aot) abc_id abc_entries (world_local mem_thumb_fails) w' rs);
    [apply (bool_decide_unpack _); vm_compute; reflexivity | exact E].
Defined.

Lemma upload_success_witness :
  match upload demo_sha256 (demo_ctl Aot) Png abc (world_local mem0) with
  | Some (w', Ok info) =>
      info_image_id info = sha256_hash demo_sha256 abc ∧ info_checksum info = Z.to_N (crc32 abc) ∧
      info_bucket_id info = bucket_id (demo_ctl Aot) ∧
      ∃ res, on_upload (pipeline (demo_ctl Aot)) Png abc = Ok res ∧
             info_images info = map (λ e, {| upload_sizing_id := sizing_id e |}) (to_store res) ∧
             pipeline_log w' = pipeline_log (world_local mem0) ++ [CallOnUpload Png]
  | _ => False
  end.
Proof.
  apply run_ok; [vm_compute; reflexivity|]. intros w' info E.
  apply (upload_success demo_sha256 (demo_ctl Aot) Png abc (world_local mem0) w' info E).
Defined.

Lemma zero_capacity_blocks_witness :
  let '(ctl0, w) := controller_new 7 (Some ∅) None demo_zero_cfg thumb_pipeline mem0 None in
  upload demo_sha256 ctl0 Png abc w = None ∧ fetch ctl0 abc_id Png None None w = None ∧
  delete ctl0 abc_id w = None.
Proof.
  apply (zero_capacity_blocks demo_sha256 7 (Some ∅) demo_zero_cfg thumb_pipeline mem0 None
           Png abc abc_id Png None None). reflexivity.
Defined.

Lemma reachable_inv_witness :
  Interleaving.admission_inv (default 0 (Some 1)) two_buckets two_buckets_running.
Proof.
  apply (Interleaving.reachable_inv (Some 1) two_buckets two_buckets_running).
  unfold Interleaving.reachable. eapply rtc_l; [apply (Interleaving.step_arrive _ 1%N)|].
  eapply rtc_l; [apply (Interleaving.step_arrive _ 2%N)|].
  eapply rtc_l; [apply (Interleaving.step_acquire _ 0); reflexivity|]. apply rtc_refl.
Defined.

Lemma gcp_delete_strict_fails_witness :
  ∃ e, (gcp_delete strict_client 7 abc_id gcs_abc).2 = Err e.
Proof.
  apply (gcp_delete_strict_fails strict_client 7 abc_id gcs_abc {[7%N := demo_cfg Aot]} (demo_cfg Aot)
           0 Jpeg); [reflexivity | reflexivity | reflexivity | by repeat constructor
                    | vm_compute; reflexivity].
Defined.

Lemma gcp_delete_reports_all_witness :
  (gcp_delete lenient_client 7 abc_id gcs_abc).2 =
  Ok (list_prod (sizing_preset_ids (demo_cfg Aot)) variants).
Proof.
  apply (gcp_delete_reports_all lenient_client 7 abc_id gcs_abc {[7%N := demo_cfg Aot]});
    reflexivity.
Defined.

Lemma gcp_delete_objects_witness :
  gcs_objects (gcp_delete lenient_client 7 abc_id gcs_orphan).1 !! format_path 7 99 abc_id Png =
  if decide (99%N ∈ sizing_preset_ids (demo_cfg Aot)) then None
  else gcs_objects gcs_orphan !! format_path 7 99 abc_id Png.
Proof.
  apply (gcp_delete_objects lenient_client 7 abc_id gcs_orphan {[7%N := demo_cfg Aot]} (demo_cfg Aot) 99%N Png);
    reflexivity.
Defined.

Lemma gcp_delete_uninitialised_registry_witness :
  gcp_delete strict_client 7 abc_id {| gcs_objects := ∅; gcs_registry := None |} =
  ({| gcs_objects := ∅; gcs_registry := Some ∅ |}, Err BucketMissing).
Proof.
  apply (gcp_delete_uninitialised_registry strict_client 7 abc_id
           {| gcs_objects := ∅; gcs_registry := None |}). reflexivity.
Defined.

Lemma upload_pipeline_error_witness :
  match upload demo_sha256 reject_ctl Png abc (world_local mem_abc) with
  | Some (w', r) =>
      (r = Err (PipelineError "unsupported") ∨ r = Err AcquireError) ∧
      storage w' = mem_abc ∧ local_cache w' = Some ∅ ∧ global_cache w' = None ∧
      limiters w' = limiters (world_local mem_abc)
  | None => False
  end.
Proof.
  apply run_some; [apply (bool_decide_unpack _); vm_compute; reflexivity|]. intros [w' r] E.
  apply (upload_pipeline_error demo_sha256 reject_ctl Png abc (PipelineError "unsupported")
           (world_local mem_abc) w' r); [reflexivity | exact E].
Defined.

Lemma cache_transparent_calls_witness :
  run_calls demo_sha256 (demo_ctl Jit) demo_calls (uncached (world_cached mem_abc)) =
  (uncached (run_calls demo_sha256 (demo_ctl Jit) demo_calls (world_cached mem_abc)).1,
   (run_calls demo_sha256 (demo_ctl Jit) demo_calls (world_cached mem_abc)).2).
Proof.
  apply (cache_transparent_calls demo_sha256 (demo_ctl Jit) demo_calls (world_cached mem_abc));
    [by eexists | apply coherent_world_cached | apply no_failed_delete_sound; vm_compute; reflexivity].
Defined.

Lemma upload_fetch_aot_witness :
  match upload demo_sha256 (demo_ctl Aot) Png abc (world_local mem0) with
  | Some (w1, Ok info) =>
      match fetch (demo_ctl Aot) (info_image_id info) (kind thumb_entry) (Some "thumb"%string) None w1 with
      | Some (w2, r) =>
          contents (storage w1) (bucket_id (demo_ctl Aot), info_image_id info, kind thumb_entry,
                                 sizing_id thumb_entry) = Some (data thumb_entry) ∧
          (r = Err AcquireError ∨ (r = Ok (Some thumb_entry) ∧ pipeline_log w2 = pipeline_log w1))
      | None => False
      end
  | _ => False
  end.
Proof.
  apply run_ok; [vm_compute; reflexivity|]. intros w1 info E.
  apply run_some.
  { eapply (permit_free_after (upload_body demo_sha256 (demo_ctl Aot) Png abc) _ (world_local mem0)); [apply keeps_upload_body | exact E |].
    intros lr s [= _ <-]. right. simpl. lia. }
  intros [w2 r] F.
  apply (upload_fetch_aot demo_sha256 (demo_ctl Aot) Png abc {| to_store := abc_entries; response := None |}
           thumb_entry (Some "thumb"%string) None (world_local mem0) w1 w2 info r);
    [reflexivity | by eexists | reflexivity | apply (bool_decide_unpack _); vm_compute; reflexivity
    | apply list_elem_of_In; right; left; reflexivity | vm_compute; reflexivity | exact E | exact F].
Defined.

Lemma delete_fetch_not_found_witness :
  match delete (demo_ctl Jit) abc_id (world_cached mem_abc) with
  | Some (w1, Ok _) =>
      match fetch (demo_ctl Jit) abc_id Png None None w1 with
      | Some (w2, r) => r = Ok None ∨ r = Err AcquireError
      | None => False
      end
  | _ => False
  end.
Proof.
  apply run_ok; [vm_compute; reflexivity|]. intros w1 [] E.
  apply run_some.
  { eapply (permit_free_after (delete_body (demo_ctl Jit) abc_id) _ (world_cached mem_abc)); [apply keeps_delete_body, limiters_footprint | exact E |].
    intros lr s [= _ <-]. right. simpl. lia. }
  intros [w2 r] F.
  eapply (delete_fetch_not_found (demo_ctl Jit) abc_id Png None None (world_cached mem_abc) w1 w2 r);
    [by eexists | apply coherent_world_cached | exact E | exact F].
Defined.

Lemma delete_leaves_shared_cache_stale_witness :
  match delete (demo_ctl Aot) abc_id (world_shared_thumb mem_abc) with
  | Some (w1, Ok _) =>
      match fetch (demo_ctl Aot) abc_id Png (Some "thumb"%string) None w1 with
      | Some (w2, r) =>
          contents (storage w1) (7%N, abc_id, Png, thumb_id) = None ∧
          (r = Err AcquireError ∨ r = Ok (Some thumb_entry))
      | None => False
      end
  | _ => False
  end.
Proof.
  apply run_ok; [vm_compute; reflexivity|]. intros w1 [] E.
  apply run_some.
  { eapply (permit_free_after (delete_body (demo_ctl Aot) abc_id) _ (world_shared_thumb mem_abc));
      [apply keeps_delete_body, limiters_footprint | exact E |].
    intros lr s [= _ <-]. right. simpl. lia. }
  intros [w2 r] F.
  eapply (delete_leaves_shared_cache_stale (demo_ctl Aot) abc_id Png (Some "thumb"%string) None
            {[cache_key 7 thumb_id abc_id Png := firstn 1 abc]} (firstn 1 abc)
            (world_shared_thumb mem_abc) w1 w2 r);
    [reflexivity | reflexivity | reflexivity | vm_compute; reflexivity | exact E | exact F].
Defined.

(** On the cloud backend the purge deletes the original and then fails on
    the JPEG variant that was never stored; the bucket cache still serves
    the original. *)
Lemma failed_delete_keeps_cached_witness :
  match gcs_delete abc_id world_gcs with
  | Some (w1, Err e) =>
      gcs_objects (storage w1) !! format_path 7 0 abc_id Png = None ∧
      match gcs_fetch abc_id Png None None w1 with
      | Some (w2, r) =>
          local_cache w1 = local_cache world_gcs ∧
          (r = Err AcquireError ∨ r = Ok (Some orig_entry))
      | None => False
      end
  | _ => False
  end.
Proof.
  apply run_err; [vm_compute; reflexivity|]. intros w1 e E.
  pose proof E as E'. vm_compute in E'. injection E' as <- <-. split; [vm_compute; reflexivity|].
  apply run_some; [apply (bool_decide_unpack _); vm_compute; reflexivity|]. intros [w2 r] F.
  exact (failed_delete_keeps_cached (demo_ctl Aot) abc_id Png None None {[cache_key 7 0 abc_id Png := abc]}
           abc _ world_gcs _ w2 r eq_refl eq_refl eq_refl E F).
Defined.

Lemma fetch_derived_persisted_witness :
  match fetch (demo_ctl Jit) abc_id Jpeg None None (world_local mem_abc) with
  | Some (w', Ok o) =>
      (o = None ∧ pipeline_log w' = pipeline_log (world_local mem_abc)) ∨
      ∃ rk d res, on_fetch (pipeline (demo_ctl Jit)) Jpeg rk d (resolve_sizing_id (demo_ctl Jit) None) None
                    = Ok res ∧ o = response res ∧
        (NoDup (map entry_key (to_store res)) → ∀ e, e ∈ to_store res →
         contents (storage w') (bucket_id (demo_ctl Jit), abc_id, kind e, sizing_id e) = Some (data e))
  | _ => False
  end.
Proof.
  apply run_ok; [vm_compute; reflexivity|]. intros w' o E.
  apply (fetch_derived_persisted (demo_ctl Jit) abc_id Jpeg None None (world_local mem_abc) w' o);
    [done | exact E].
Defined.

(** ** Scenarios *)

(** Names are not identified uniquely by their ids: the distinct
    preset names ["plumless"] and ["buckeroo"] have the same CRC-32 hash,
    so [fetch] resolves them to the same sizing id (a fetch with one preset
    serves the variant stored for the other), and [get_bucket_by_name]
    selects the same bucket for both names in every registry. *)
Theorem preset_names_collide :
  "plumless"%string ≠ "buckeroo"%string ∧
  resolve_sizing_id (demo_ctl Aot) (Some "plumless"%string) =
    resolve_sizing_id (demo_ctl Aot) (Some "buckeroo"%string) ∧
  ∀ C (c : option (gmap N C)),
    get_bucket_by_name "plumless" c = get_bucket_by_name "buckeroo" c.
Proof.
  assert (crc_hash "plumless" = crc_hash "buckeroo") as E by (vm_compute; reflexivity).
  split_and!; [discriminate| |intros C c; unfold get_bucket_by_name; by rewrite E].
  unfold resolve_sizing_id. simpl. by rewrite E.
Qed.

Lemma fan_out_order_independent_witness :
  (run_tasks (demo_ctl Aot) abc_id abc_entries (world_local mem_thumb_fails)).1 =
    (run_tasks (demo_ctl Aot) abc_id (reverse abc_entries) (world_local mem_thumb_fails)).1 ∧
  zip abc_entries (run_tasks (demo_ctl Aot) abc_id abc_entries (world_local mem_thumb_fails)).2 ≡ₚ
    zip (reverse abc_entries)
        (run_tasks (demo_ctl Aot) abc_id (reverse abc_entries) (world_local mem_thumb_fails)).2.
Proof.
  apply (fan_out_order_independent (demo_ctl Aot) abc_id abc_entries (reverse abc_entries)
           (world_local mem_thumb_fails)).
  - apply perm_swap.
  - apply (bool_decide_unpack _). vm_compute. reflexivity.
Defined.

Lemma cache_transparent_witness :
  upload demo_sha256 (demo_ctl Jit) Png abc (uncached (world_cached mem_abc)) =
    forget_caches (upload demo_sha256 (demo_ctl Jit) Png abc (world_cached mem_abc)) ∧
  fetch (demo_ctl Jit) abc_id Png None None (uncached (world_cached mem_abc)) =
    forget_caches (fetch (demo_ctl Jit) abc_id Png None None (world_cached mem_abc)) ∧
  delete (demo_ctl Jit) abc_id (uncached (world_cached mem_abc)) =
    forget_caches (delete (demo_ctl Jit) abc_id (world_cached mem_abc)).
Proof.
  apply (cache_transparent demo_sha256 (demo_ctl Jit) (world_cached mem_abc) Png abc abc_id Png None None);
    [by eexists | apply coherent_world_cached].
Defined.
